(** * Confetti effects (scripts/main.js): a shallow embedding

    JavaScript numbers are doubles.  The proofs read the arithmetic of
    the script over exact rationals ([Q]; every finite double is a
    rational), and the cosine interpolation over the real numbers.
    Module [Binary64] holds the same arithmetic on binary64 floats, as
    the script runs it: it is used to evaluate the code where rounding
    shows.  A bound that the exact reading meets with no room to spare
    is stated with the margin [slack], or as a closed bound, so that the
    last bit of a double does not decide it.  The calls the script makes
    to its host ([Math.random], [Date.now], [window.innerWidth],
    [setTimeout], ...) are explicit inputs of the definitions. *)

From Stdlib Require Import QArith Qround Qabs Qminmax Qpower.
From Stdlib Require Import ZArith List Bool Lia Psatz.
From Stdlib Require String.
From Stdlib Require Reals Qreals.
From Stdlib Require Floats.PrimFloat Floats.SpecFloat Floats.FloatOps.
Import String.StringSyntax.
Delimit Scope string_scope with string.
Import ListNotations.

Local Open Scope Q_scope.

(** ** Comparison operators of the script, as booleans on [Q] *)

Definition Qltb (a b : Q) : bool := negb (Qle_bool b a).
Definition Qgeb (a b : Q) : bool := Qle_bool b a.
Definition Qgtb (a b : Q) : bool := negb (Qle_bool a b).
Definition Qneqb (a b : Q) : bool := negb (Qeq_bool a b).

Infix "<?" := Qltb (at level 70, no associativity) : Q_scope.
Infix "<=?" := Qle_bool (at level 70, no associativity) : Q_scope.
Infix ">=?" := Qgeb (at level 70, no associativity) : Q_scope.
Infix ">?" := Qgtb (at level 70, no associativity) : Q_scope.

(** ** The host environment

    [Math.random] and [Date.now] are read through call counters: the
    n-th call of a run returns [Math_random n], resp. [Date_now n].
    [Math.cos], [Math.sin] and [Math.log] return doubles, hence
    rationals; they are inputs of the model. *)

Record Host := mkHost {
  Math_random : nat -> Q;
  Date_now : nat -> Q;
  Math_cos : Q -> Q;
  Math_sin : Q -> Q;
  Math_log : Q -> Q;
  Math_PI : Q;
  innerWidth : Q;
  innerHeight : Q
}.

Record Calls := mkCalls { randoms : nat; clocks : nat }.

(** Computations that read the host and count their calls to it. *)
Definition M (A : Type) : Type := Host -> Calls -> A * Calls.

Definition ret {A} (a : A) : M A := fun _ k => (a, k).

Definition bind {A B} (m : M A) (f : A -> M B) : M B :=
  fun h k => let (a, k') := m h k in f a h k'.

Notation "x <- m ;; f" := (bind m (fun x => f))
  (at level 61, m at next level, right associativity).

Definition random : M Q :=
  fun h k => (Math_random h (randoms k), mkCalls (S (randoms k)) (clocks k)).

Definition now : M Q :=
  fun h k => (Date_now h (clocks k), mkCalls (randoms k) (S (clocks k))).

Definition host {A} (f : Host -> A) : M A := fun h k => (f h, k).

(** JavaScript truthiness of a string-or-null and of a number-or-undefined. *)
Definition truthy_str (s : option String.string) : bool :=
  match s with
  | Some String.EmptyString => false
  | Some _ => true
  | None => false
  end.

Definition truthy_num (n : option Q) : bool :=
  match n with
  | Some q => Qneqb q 0
  | None => false
  end.

Definition truthy_handle (n : option Z) : bool :=
  match n with
  | Some z => negb (Z.eqb z 0)
  | None => false
  end.

(** Truncation toward zero, and the remainder operator [%]. *)
Definition Qtrunc (q : Q) : Z := if q <? 0 then Qceiling q else Qfloor q.

Definition js_rem (a m : Q) : Q := a - m * inject_Z (Qtrunc (a / m)).

(** ** Utils *)

Module Utils.

(** [getRandomInRange(min, max, precision = 0)]; [u] is the value
    returned by its call to [Math.random()].  This is the exact
    reading; [Binary64.getRandomInRange_at] is the function on
    doubles. *)
Definition getRandomInRange_at (min max : Q) (precision : Z) (u : Q) : Q :=
  let multiplier := 10 ^ precision in
  let randomValue := u * (max - min) + min in
  inject_Z (Qfloor (randomValue * multiplier)) / multiplier.

Definition getRandomInRange (min max : Q) (precision : Z) : M Q :=
  u <- random ;; ret (getRandomInRange_at min max precision u).

(** [getRandomItem(array)]; [None] is [undefined]. *)
Definition getRandomItem_at {A} (array : list A) (u : Q) : option A :=
  match Qfloor (u * inject_Z (Z.of_nat (length array))) with
  | Zneg _ => None
  | i => nth_error array (Z.to_nat i)
  end.

Definition getRandomItem {A} (array : list A) : M (option A) :=
  u <- random ;; ret (getRandomItem_at array u).

(** [getScaleFactor()]. *)
Definition getScaleFactor : M Q :=
  host (fun h => Math_log h (innerWidth h) / Math_log h 1920).

End Utils.

Definition DEG_TO_RAD (h : Host) : Q := Math_PI h / 180.

(** ** The canvas burst: [Confetti] and [ConfettiManager] *)

Module Canvas.

Inductive Direction := dir_left | dir_right.
Inductive YDirection := down | up.

Definition is_left (d : Direction) : bool :=
  match d with dir_left => true | dir_right => false end.

Record Vec := mkVec { x : Q; y : Q }.

Record Confetti := mkConfetti {
  speed : Vec;
  finalSpeedX : Q;
  rotationSpeed : Q;
  dragCoefficient : Q;
  radius : Vec;
  initialRadius : Q;
  rotationAngle : Q;
  emojiRotationAngle : Q;
  radiusYDirection : YDirection;
  absCos : Q;
  absSin : Q;
  position : Vec;
  initialPosition : Vec;
  color : option String.string;
  emoji : option String.string;
  svgIcon : option String.string;
  svgImage : option String.string;
  createdAt : Q;
  direction : Direction
}.

(** The object passed to [new Confetti({...})]. *)
Record ConfettiArgs := mkArgs {
  arg_initialPosition : Vec;
  arg_direction : Direction;
  arg_radius : Q;
  arg_colors : list String.string;
  arg_emojis : list String.string;
  arg_svgIcon : option String.string
}.

(** [emojis.length || svgIcon] *)
Definition emojis_or_icon (a : ConfettiArgs) : bool :=
  negb (Nat.eqb (length (arg_emojis a)) 0) || truthy_str (arg_svgIcon a).

(** The constructor of [Confetti]. *)
Definition new_Confetti (a : ConfettiArgs) : M Confetti :=
  r <- Utils.getRandomInRange 0.9 1.7 3 ;;
  scale <- Utils.getScaleFactor ;;
  let speedFactor := r * scale in
  finalSpeedX <- Utils.getRandomInRange 0.2 0.6 3 ;;
  rotationSpeed <-
    (if emojis_or_icon a then ret 0.01
     else r <- Utils.getRandomInRange 0.03 0.07 3 ;;
          scale <- Utils.getScaleFactor ;;
          ret (r * scale)) ;;
  dragCoefficient <- Utils.getRandomInRange 0.0005 0.0009 6 ;;
  rotationAngle <-
    (if is_left (arg_direction a) then Utils.getRandomInRange 0 0.2 3
     else Utils.getRandomInRange (-0.2) 0 3) ;;
  pi <- host Math_PI ;;
  emojiRotationAngle <- Utils.getRandomInRange 0 (2 * pi) 0 ;;
  deg <- host DEG_TO_RAD ;;
  angle <-
    (if is_left (arg_direction a)
     then r <- Utils.getRandomInRange 82 15 0 ;; ret (r * deg)
     else r <- Utils.getRandomInRange (-15) (-82) 0 ;; ret (r * deg)) ;;
  absCos <- host (fun h => Qabs (Math_cos h angle)) ;;
  absSin <- host (fun h => Qabs (Math_sin h angle)) ;;
  offset <- Utils.getRandomInRange (-150) 0 0 ;;
  let position :=
    mkVec (x (arg_initialPosition a)
           + (if is_left (arg_direction a) then - offset else offset) * absCos)
          (y (arg_initialPosition a) - offset * absSin) in
  color <-
    (if emojis_or_icon a then ret None
     else Utils.getRandomItem (arg_colors a)) ;;
  emoji <-
    (if negb (Nat.eqb (length (arg_emojis a)) 0)
     then Utils.getRandomItem (arg_emojis a)
     else ret None) ;;
  createdAt <- now ;;
  ret {| speed := mkVec speedFactor speedFactor;
         finalSpeedX := finalSpeedX;
         rotationSpeed := rotationSpeed;
         dragCoefficient := dragCoefficient;
         radius := mkVec (arg_radius a) (arg_radius a);
         initialRadius := arg_radius a;
         rotationAngle := rotationAngle;
         emojiRotationAngle := emojiRotationAngle;
         radiusYDirection := down;
         absCos := absCos;
         absSin := absSin;
         position := position;
         initialPosition := position;
         color := color;
         emoji := emoji;
         svgIcon := None;
         svgImage := if truthy_str (arg_svgIcon a) then arg_svgIcon a else None;
         createdAt := createdAt;
         direction := arg_direction a |}.

(** [svgImage.onload]: the icon becomes usable. *)
Definition svgImage_onload (c : Confetti) : Confetti :=
  {| speed := speed c; finalSpeedX := finalSpeedX c;
     rotationSpeed := rotationSpeed c; dragCoefficient := dragCoefficient c;
     radius := radius c; initialRadius := initialRadius c;
     rotationAngle := rotationAngle c;
     emojiRotationAngle := emojiRotationAngle c;
     radiusYDirection := radiusYDirection c;
     absCos := absCos c; absSin := absSin c;
     position := position c; initialPosition := initialPosition c;
     color := color c; emoji := emoji c;
     svgIcon := svgImage c; svgImage := svgImage c;
     createdAt := createdAt c; direction := direction c |}.

(** [updatePosition(deltaTime, currentTime)], statement by statement. *)
Definition updatePosition (deltaTime currentTime : Q) (c : Confetti)
  : Confetti :=
  let elapsed := currentTime - createdAt c in
  let speed_x :=
    if x (speed c) >? finalSpeedX c
    then x (speed c) - dragCoefficient c * deltaTime
    else x (speed c) in
  let position_x :=
    x (position c)
    + speed_x * (if is_left (direction c) then - absCos c else absCos c)
      * deltaTime in
  let position_y :=
    y (initialPosition c) - y (speed c) * absSin c * elapsed
    + 0.00125 * elapsed ^ 2 / 2 in
  let plain := negb (truthy_str (emoji c)) && negb (truthy_str (svgIcon c)) in
  let rotationSpeed' :=
    if plain then Qmax (rotationSpeed c - 0.00001 * deltaTime) 0
    else rotationSpeed c in
  let '(radius_y, radiusYDirection') :=
    if plain then
      match radiusYDirection c with
      | down =>
          let ry := y (radius c) - deltaTime * rotationSpeed' in
          if ry <=? 0 then (0, up) else (ry, down)
      | up =>
          let ry := y (radius c) + deltaTime * rotationSpeed' in
          if ry >=? initialRadius c then (initialRadius c, down) else (ry, up)
      end
    else (y (radius c), radiusYDirection c) in
  {| speed := mkVec speed_x (y (speed c));
     finalSpeedX := finalSpeedX c;
     rotationSpeed := rotationSpeed';
     dragCoefficient := dragCoefficient c;
     radius := mkVec (x (radius c)) radius_y;
     initialRadius := initialRadius c;
     rotationAngle := rotationAngle c;
     emojiRotationAngle := emojiRotationAngle c;
     radiusYDirection := radiusYDirection';
     absCos := absCos c; absSin := absSin c;
     position := mkVec position_x position_y;
     initialPosition := initialPosition c;
     color := color c; emoji := emoji c;
     svgIcon := svgIcon c; svgImage := svgImage c;
     createdAt := createdAt c; direction := direction c |}.

(** [isVisible(canvasHeight)] *)
Definition isVisible (canvasHeight : Q) (c : Confetti) : bool :=
  y (position c) <? canvasHeight + 100.

(** A sequence of [updatePosition(deltaTime, currentTime)] calls. *)
Fixpoint updates (calls : list (Q * Q)) (c : Confetti) : Confetti :=
  match calls with
  | [] => c
  | (deltaTime, currentTime) :: rest =>
      updates rest (updatePosition deltaTime currentTime c)
  end.

(** The configuration object; an absent field is [None]. *)
Record Config := mkConfig {
  confettiesNumber : option Z;
  confettiRadius : option Q;
  confettiColors : option (list String.string);
  emojies : option (list String.string);
  cfg_svgIcon : option (option String.string)
}.

Definition emptyConfig : Config := mkConfig None None None None None.

Definition defaultColors : list String.string :=
  ["#c3c77e"; "#c7548c"; "#6d3ba6"; "#20c371";
   "#11888d"; "#a6660e"; "#a40e0e"; "#34a40e"]%string.

(** [{ ...defaultConfettiConfig, ...config }], destructured. *)
Record Merged := mkMerged {
  m_confettiesNumber : Z;
  m_confettiRadius : Q;
  m_confettiColors : list String.string;
  m_emojies : list String.string;
  m_svgIcon : option String.string
}.

Definition or_default {A} (o : option A) (d : A) : A :=
  match o with Some a => a | None => d end.

Definition merge (config : Config) : Merged :=
  {| m_confettiesNumber := or_default (confettiesNumber config) 295%Z;
     m_confettiRadius := or_default (confettiRadius config) 5;
     m_confettiColors := or_default (confettiColors config) defaultColors;
     m_emojies := or_default (emojies config) [];
     m_svgIcon := or_default (cfg_svgIcon config) None |}.

Record ConfettiManager := mkManager {
  confetti : list Confetti;
  lastUpdated : Q
}.

Definition args_right (m : Merged) (baseY : Q) : ConfettiArgs :=
  mkArgs (mkVec 0 baseY) dir_right (m_confettiRadius m)
         (m_confettiColors m) (m_emojies m) (m_svgIcon m).

Definition args_left (m : Merged) (width baseY : Q) : ConfettiArgs :=
  mkArgs (mkVec width baseY) dir_left (m_confettiRadius m)
         (m_confettiColors m) (m_emojies m) (m_svgIcon m).

(** The loop [for (let i = 0; i < confettiesNumber / 2; i++)] of
    [addConfetti]; [None] when the fuel runs out before the loop test
    fails. *)
Fixpoint addConfetti_for (fuel : nat) (m : Merged) (baseY : Q) (i : Z)
  (acc : list Confetti) : M (option (list Confetti)) :=
  if inject_Z i <? inject_Z (m_confettiesNumber m) / 2 then
    match fuel with
    | O => ret None
    | S fuel' =>
        c1 <- new_Confetti (args_right m baseY) ;;
        width <- host innerWidth ;;
        c2 <- new_Confetti (args_left m width baseY) ;;
        addConfetti_for fuel' m baseY (i + 1) (acc ++ [c1; c2])
    end
  else ret (Some acc).

(** [addConfetti(config)] *)
Definition addConfetti (fuel : nat) (config : Config) (mgr : ConfettiManager)
  : M (option ConfettiManager) :=
  let m := merge config in
  height <- host innerHeight ;;
  let baseY := 5 * height / 7 in
  r <- addConfetti_for fuel m baseY 0 (confetti mgr) ;;
  ret (option_map (fun l => mkManager l (lastUpdated mgr)) r).

(** [resetAndStart(config)] *)
Definition resetAndStart (fuel : nat) (config : Config)
  (mgr : ConfettiManager) : M (option ConfettiManager) :=
  addConfetti fuel config (mkManager [] (lastUpdated mgr)).

(** One frame of [ConfettiManager.loop]: update, then keep the visible. *)
Definition loop (canvasHeight : Q) (mgr : ConfettiManager)
  : M ConfettiManager :=
  currentTime <- now ;;
  let deltaTime := currentTime - lastUpdated mgr in
  ret (mkManager
         (filter (isVisible canvasHeight)
                 (map (updatePosition deltaTime currentTime) (confetti mgr)))
         currentTime).

End Canvas.

(** ** The ambient shower: [BackgroundConfetti] *)

Module Background.

Definition particles : Z := 10.
Definition spread : Q := 40.
Definition sizeMin : Q := 3.
Definition sizeMax : Q := 12 - sizeMin.
Definition eccentricity : Q := 10.
Definition deviation : Q := 100.
Definition dxThetaMin : Q := - 0.1.
Definition dxThetaMax : Q := - dxThetaMin - dxThetaMin.
Definition dyMin : Q := 0.13.
Definition dyMax : Q := 0.18.
Definition dThetaMin : Q := 0.4.
(** [0.3] in the exact reading, [0.29999999999999993] in doubles
    ([Binary64.dThetaMax]). *)
Definition dThetaMax : Q := 0.7 - dThetaMin.

(** [colorThemes[0]]: three draws, each [200 * random() | 0]. *)
Definition theme0 : M (Z * Z * Z) :=
  r <- random ;; g <- random ;; b <- random ;;
  ret (Qtrunc (200 * r), Qtrunc (200 * g), Qtrunc (200 * b)).

Definition radius : Q := 1 / eccentricity.
Definition radius2 : Q := radius + radius.

(** *** createPoisson

    [domain] is the flat array of interval end points
    [a0; b0; a1; b1; ...] of the script.  This is the exact reading;
    [Binary64.createPoisson] is the function on doubles. *)

(** "Find where dart lies": [Some] of the absolute position pushed on
    the spline, [None] when the loop ends without a [break]. *)
Fixpoint find_dart (domain : list Q) (dart measure : Q) : option Q :=
  match domain with
  | a :: b :: rest =>
      let interval := b - a in
      if dart <? measure + interval then Some (dart + (a - measure))
      else find_dart rest dart (measure + interval)
  | _ => None
  end.

(** [domain[i] = v] for an index in range. *)
Definition set_nth (i : nat) (v : Q) (domain : list Q) : list Q :=
  firstn i domain ++ v :: skipn (S i) domain.

(** [domain.splice(l, 2)] *)
Definition splice_out (l : nat) (domain : list Q) : list Q :=
  firstn l domain ++ skipn (l + 2) domain.

(** [domain.splice(i, 0, c, d)] *)
Definition splice_in (i : nat) (c d : Q) (domain : list Q) : list Q :=
  firstn i domain ++ c :: d :: skipn i domain.

(** The body of "Update the domain" at index [i]. *)
Definition update_step (c d : Q) (i : nat) (domain : list Q) : list Q :=
  let l := (i - 1)%nat in
  let a := nth l domain 0 in
  let b := nth i domain 0 in
  if (a >=? c) && (a <? d) then
    if b >? d then set_nth l d domain
    else splice_out l domain
  else if (a <? c) && (b >? c) then
    if b <=? d then set_nth i c domain
    else splice_in i c d domain
  else domain.

(** [for (i = domain.length-1; i > 0; i -= 2)], from index [i]. *)
Fixpoint update_domain_for (c d : Q) (i : nat) (domain : list Q) : list Q :=
  match i with
  | O => domain
  | S l =>
      let domain' := update_step c d i domain in
      match l with
      | O => domain'
      | S i' => update_domain_for c d i' domain'
      end
  end.

Definition update_domain (c d : Q) (domain : list Q) : list Q :=
  update_domain_for c d (length domain - 1) domain.

(** "Re-measure the domain" *)
Fixpoint remeasure (domain : list Q) (measure : Q) : Q :=
  match domain with
  | a :: b :: rest => remeasure rest (measure + (b - a))
  | _ => measure
  end.

(** [while (measure) { ... }]: [None] when the fuel runs out while
    [measure] is still non-zero. *)
Fixpoint createPoisson_while (fuel : nat) (domain : list Q) (measure : Q)
  (spline : list Q) : M (option (list Q)) :=
  if Qeq_bool measure 0 then ret (Some spline)
  else
    match fuel with
    | O => ret None
    | S fuel' =>
        u <- random ;;
        let dart0 := measure * u in
        let found := find_dart domain dart0 0 in
        let spline' :=
          match found with Some p => spline ++ [p] | None => spline end in
        let dart := match found with Some p => p | None => dart0 end in
        let c := dart - radius in
        let d := dart + radius in
        let domain' := update_domain c d domain in
        createPoisson_while fuel' domain' (remeasure domain' 0) spline'
    end.

(** [spline.sort()].  Without a comparator the elements are ordered by
    their decimal strings; on [0], [1] and numbers of [[0.1, 0.9)],
    the only values the spline holds, that is the numeric order. *)
Fixpoint insert (v : Q) (l : list Q) : list Q :=
  match l with
  | [] => [v]
  | h :: t => if v <=? h then v :: l else h :: insert v t
  end.

Fixpoint sort (l : list Q) : list Q :=
  match l with
  | [] => []
  | h :: t => insert h (sort t)
  end.

Definition createPoisson (fuel : nat) : M (option (list Q)) :=
  r <- createPoisson_while fuel [radius; 1 - radius] (1 - radius2) [0; 1] ;;
  ret (option_map sort r).

(** *** Confetto *)

Record Confetto := mkConfetto {
  frame : Q;
  outer_width : Q;
  outer_height : Q;
  backgroundColor : Z * Z * Z;
  outer_rotate : Q;
  axis : Q * Q;
  theta : Q;
  dTheta : Q;
  x : Q;
  y : Q;
  dx : Q;
  dy : Q;
  splineX : list Q;
  splineY : list (option Q)
}.

(** [arr[i] = v] on a JavaScript array: a write past the end extends the
    array with holes, a negative key leaves the elements alone. *)
Definition array_set (arr : list (option Q)) (i : Z) (v : Q)
  : list (option Q) :=
  match i with
  | Zneg _ => arr
  | _ =>
      let n := Z.to_nat i in
      if Nat.ltb n (length arr)
      then firstn n arr ++ Some v :: skipn (S n) arr
      else arr ++ repeat None (n - length arr) ++ [Some v]
  end.

(** [for (var i = 1, l = splineX.length-1; i < l; ++i)
       splineY[i] = deviation * random();]
    with [n] iterations left. *)
Fixpoint splineY_for (n : nat) (i : Z) (splineY : list (option Q))
  : M (list (option Q)) :=
  match n with
  | O => ret splineY
  | S n' =>
      u <- random ;;
      splineY_for n' (i + 1)%Z (array_set splineY i (deviation * u))
  end.

Definition new_splineY (splineX : list Q) : M (list (option Q)) :=
  let l := (Z.of_nat (length splineX) - 1)%Z in
  splineY <- splineY_for (Z.to_nat (l - 1)) 1 [] ;;
  u <- random ;;
  let v := deviation * u in
  ret (array_set (array_set splineY l v) 0 v).

(** The constructor [new Confetto(theme)] with [theme = colorThemes[0]];
    [None] when [createPoisson] runs out of fuel. *)
Definition new_Confetto (fuel : nat) : M (option Confetto) :=
  w <- random ;;
  h <- random ;;
  bg <- theme0 ;;
  rot <- random ;;
  a1 <- random ;;
  c1 <- host (fun e => Math_cos e (360 * a1)) ;;
  a2 <- random ;;
  c2 <- host (fun e => Math_cos e (360 * a2)) ;;
  th <- random ;;
  dth <- random ;;
  width <- host innerWidth ;;
  ux <- random ;;
  udx <- random ;;
  sdx <- host (fun e => Math_sin e (dxThetaMin + dxThetaMax * udx)) ;;
  udy <- random ;;
  sx <- createPoisson fuel ;;
  match sx with
  | None => ret None
  | Some splineX =>
      splineY <- new_splineY splineX ;;
      ret (Some {| frame := 0;
                   outer_width := sizeMin + sizeMax * w;
                   outer_height := sizeMin + sizeMax * h;
                   backgroundColor := bg;
                   outer_rotate := 360 * rot;
                   axis := (c1, c2);
                   theta := 360 * th;
                   dTheta := dThetaMin + dThetaMax * dth;
                   x := width * ux;
                   y := - deviation;
                   dx := sdx;
                   dy := dyMin + dyMax * udy;
                   splineX := splineX;
                   splineY := splineY |})
  end.

(** [while (phi >= this.splineX[j]) i = j++;] where [rest] is the part
    of [splineX] from index [j] on; past the end [splineX[j]] is
    [undefined] and the test is false. *)
Fixpoint bracket_while (phi : Q) (rest : list Q) (i j : nat) : nat * nat :=
  match rest with
  | [] => (i, j)
  | xj :: rest' =>
      if phi >=? xj then bracket_while phi rest' j (S j) else (i, j)
  end.

Definition bracket (phi : Q) (splineX : list Q) : nat * nat :=
  bracket_while phi (skipn 1 splineX) 0 1.

(** [phi = this.frame % 7777 / 7777] *)
Definition phase (frame : Q) : Q := js_rem frame 7777 / 7777.

(** The state change of [update(height, delta)] and its result. *)
Definition update (height delta : Q) (c : Confetto) : Confetto * bool :=
  let c' :=
    {| frame := frame c + delta;
       outer_width := outer_width c;
       outer_height := outer_height c;
       backgroundColor := backgroundColor c;
       outer_rotate := outer_rotate c;
       axis := axis c;
       theta := theta c + dTheta c * delta;
       dTheta := dTheta c;
       x := x c + dx c * delta;
       y := y c + dy c * delta;
       dx := dx c;
       dy := dy c;
       splineX := splineX c;
       splineY := splineY c |} in
  (c', y c' >? height + deviation).

(** The interpolation parameter [(phi - splineX[i]) / (splineX[j] - splineX[i])]
    that [update] passes on, for the state after the increments. *)
Definition spline_t (c : Confetto) : Q :=
  let phi := phase (frame c) in
  let '(i, j) := bracket phi (splineX c) in
  (phi - nth i (splineX c) 0) / (nth j (splineX c) 0 - nth i (splineX c) 0).

End Background.

(** ** The frame loop of [poof] *)

Module Poof.

Import Background.

(** The variables closed over by [poof]: the particle array, the two
    handles, [prev]; [attached] tells whether the container is a child
    of the document body and [scheduled] whether an animation-frame
    callback for [loop] is queued. *)
Record System := mkSystem {
  confetti : list Confetto;
  timer : option Z;
  frame : option Z;
  prev : option Q;
  attached : bool;
  scheduled : bool
}.

Definition initial : System := mkSystem [] None None None false false.

(** [addConfetto]: [confetto] is the value of [new Confetto(theme)] and
    [handle] the value returned by [setTimeout]. *)
Definition addConfetto (confetto : Confetto) (handle : option Z)
  (s : System) : System :=
  mkSystem (confetti s ++ [confetto]) handle (frame s) (prev s)
           (attached s) (scheduled s).

(** [poof()] *)
Definition poof (confetto : Confetto) (handle : option Z) (s : System)
  : System :=
  if negb (truthy_handle (frame s)) then
    let s1 := mkSystem (confetti s) (timer s) (frame s) (prev s) true
                       (scheduled s) in
    let s2 := addConfetto confetto handle s1 in
    mkSystem (confetti s2) (timer s2) (frame s2) None (attached s2) true
  else s.

(** [confetti.splice(i, 1)] and the write-back of the updated object. *)
Definition remove_at (i : nat) (l : list Confetto) : list Confetto :=
  firstn i l ++ skipn (S i) l.

Definition put_at (i : nat) (c : Confetto) (l : list Confetto)
  : list Confetto :=
  firstn i l ++ c :: skipn (S i) l.

(** [for (var i = confetti.length-1; i >= 0; --i)], with [n = i + 1]. *)
Fixpoint loop_for (n : nat) (height delta : Q) (l : list Confetto)
  : list Confetto :=
  match n with
  | O => l
  | S i =>
      match nth_error l i with
      | Some c =>
          let (c', done) := update height delta c in
          if done then loop_for i height delta (remove_at i l)
          else loop_for i height delta (put_at i c' l)
      | None => l
      end
  end.

(** [loop(timestamp)]; [height] is [window.innerHeight] and [raf] the
    value [requestAnimationFrame] returns if it is called. *)
Definition loop (timestamp height : Q) (raf : Z) (s : System) : System :=
  let delta :=
    match prev s with
    | Some p => if truthy_num (prev s) then timestamp - p else 0
    | None => 0
    end in
  let confetti' := loop_for (length (confetti s)) height delta (confetti s) in
  if truthy_handle (timer s) || negb (Nat.eqb (length confetti') 0)
  then mkSystem confetti' (timer s) (Some raf) (Some timestamp)
                (attached s) true
  else mkSystem confetti' (timer s) None (Some timestamp) false false.

(** What the host does to the system: a spawn timer fires, or an
    animation frame fires (only if one is queued). *)
Inductive Event :=
| Spawn (confetto : Confetto) (handle : option Z)
| Frame (timestamp height : Q) (raf : Z).

Definition step (s : System) (e : Event) : System :=
  match e with
  | Spawn c h => addConfetto c h s
  | Frame t h raf => if scheduled s then loop t h raf s else s
  end.

Definition run (evs : list Event) (s : System) : System :=
  fold_left step evs s.

(** Handles as a browser hands them out: integers greater than zero. *)
Definition browser_event (e : Event) : Prop :=
  match e with
  | Spawn _ (Some h) => (0 < h)%Z
  | Spawn _ None => False
  | Frame _ _ raf => (0 < raf)%Z
  end.

(** The inputs [update] receives from a run of frames: the height and
    the delta computed from [prev]. *)
Fixpoint frame_inputs (prev : option Q) (frames : list (Q * Q))
  : list (Q * Q) :=
  match frames with
  | [] => []
  | (timestamp, height) :: rest =>
      let delta :=
        match prev with
        | Some p => if truthy_num prev then timestamp - p else 0
        | None => 0
        end in
      (height, delta) :: frame_inputs (Some timestamp) rest
  end.

(** A particle's [update] returns true at one of the given calls. *)
Fixpoint done_within (inputs : list (Q * Q)) (c : Confetto) : bool :=
  match inputs with
  | [] => false
  | (height, delta) :: rest =>
      let (c', done) := update height delta c in
      done || done_within rest c'
  end.

Definition frame_events (frames : list (Q * Q)) (raf : Z) : list Event :=
  map (fun f => Frame (fst f) (snd f) raf) frames.

End Poof.

(** ** Rendering: the spline offset, over the reals *)

Module Render.

Import Stdlib.Reals.Reals Stdlib.Reals.Qreals.
Import Background.
Local Open Scope R_scope.

(** [interpolation(a, b, t)]: cosine interpolation, over the reals;
    [Binary64.interpolation_at] is its arithmetic on doubles. *)
Definition interpolation (a b t : R) : R :=
  (1 - cos (PI * t)) / 2 * (b - a) + a.

Definition PI2 : R := PI * 2.

(** [rho] as [update] computes it from the state after the increments;
    [None] when a [splineY] entry is missing. *)
Definition rho (c : Confetto) : option R :=
  let '(i, j) := bracket (phase (frame c)) (splineX c) in
  match nth_error (splineY c) i, nth_error (splineY c) j with
  | Some (Some yi), Some (Some yj) =>
      Some (interpolation (Q2R yi) (Q2R yj) (Q2R (spline_t c)))
  | _, _ => None
  end.

(** [outerStyle.left] and [outerStyle.top], in pixels. *)
Definition outer_left (c : Confetto) : option R :=
  option_map (fun r => Q2R (x c) + r * cos (Q2R (phase (frame c)) * PI2))
             (rho c).

Definition outer_top (c : Confetto) : option R :=
  option_map (fun r => Q2R (y c) + r * sin (Q2R (phase (frame c)) * PI2))
             (rho c).

End Render.

(** ** The arithmetic of the script in binary64 *)

Set Warnings "-inexact-float".

Module Binary64.

Import Stdlib.Floats.PrimFloat Stdlib.Floats.SpecFloat Stdlib.Floats.FloatOps.
Local Open Scope float_scope.

(** The rational number a finite double stands for. *)
Definition to_Q (x : float) : Q :=
  match Prim2SF x with
  | S754_finite s m e =>
      let v := (inject_Z (Zpos m) * 2 ^ e)%Q in
      if s then Qopp v else v
  | _ => 0%Q
  end.

(** [Math.floor]: below [2^52] in magnitude, adding and taking off
    [2^52] rounds to an integer, which is the floor or one more; from
    [2^52] on every double is an integer. *)
Definition two52 : float := 4503599627370496.

Definition floor (x : float) : float :=
  if ltb (abs x) two52 then
    let t := if ltb x 0 then (x - two52) + two52 else (x + two52) - two52 in
    if ltb x t then t - 1 else if eqb t x then x else t
  else x.

(** [Math.pow(10, precision)] for a precision in [0..22], where the
    power is a double and the products are exact. *)
Fixpoint pow10 (precision : nat) : float :=
  match precision with
  | O => 1
  | S p => 10 * pow10 p
  end.

(** [Utils.getRandomInRange(min, max, precision)] when [Math.random()]
    returns [u]. *)
Definition getRandomInRange_at (min max : float) (precision : nat) (u : float)
  : float :=
  let multiplier := pow10 precision in
  let randomValue := u * (max - min) + min in
  floor (randomValue * multiplier) / multiplier.

(** The greatest double below 1, the top of the range of [Math.random]. *)
Definition top : float := 0.9999999999999999.

Definition eccentricity : float := 10.
Definition dThetaMin : float := 0.4.
Definition dThetaMax : float := 0.7 - dThetaMin.
Definition radius : float := 1 / eccentricity.
Definition radius2 : float := radius + radius.

(** [interpolation(a, b, t)] when [cos(PI * t)] returns [c]: [1] at
    [t = 0] and [-1] at [t = 1]. *)
Definition interpolation_at (c a b : float) : float :=
  (1 - c) / 2 * (b - a) + a.

(** [createPoisson], statement by statement as in [Background]. *)
Fixpoint find_dart (domain : list float) (dart measure : float)
  : option float :=
  match domain with
  | a :: b :: rest =>
      let interval := b - a in
      if ltb dart (measure + interval) then Some (dart + (a - measure))
      else find_dart rest dart (measure + interval)
  | _ => None
  end.

Definition set_nth (i : nat) (v : float) (domain : list float) : list float :=
  firstn i domain ++ v :: skipn (S i) domain.

Definition splice_out (l : nat) (domain : list float) : list float :=
  firstn l domain ++ skipn (l + 2) domain.

Definition splice_in (i : nat) (c d : float) (domain : list float)
  : list float :=
  firstn i domain ++ c :: d :: skipn i domain.

Definition update_step (c d : float) (i : nat) (domain : list float)
  : list float :=
  let l := (i - 1)%nat in
  let a := nth l domain 0 in
  let b := nth i domain 0 in
  if leb c a && ltb a d then
    if ltb d b then set_nth l d domain
    else splice_out l domain
  else if ltb a c && ltb c b then
    if leb b d then set_nth i c domain
    else splice_in i c d domain
  else domain.

Fixpoint update_domain_for (c d : float) (i : nat) (domain : list float)
  : list float :=
  match i with
  | O => domain
  | S l =>
      let domain' := update_step c d i domain in
      match l with
      | O => domain'
      | S i' => update_domain_for c d i' domain'
      end
  end.

Definition update_domain (c d : float) (domain : list float) : list float :=
  update_domain_for c d (length domain - 1) domain.

Fixpoint remeasure (domain : list float) (measure : float) : float :=
  match domain with
  | a :: b :: rest => remeasure rest (measure + (b - a))
  | _ => measure
  end.

(** A number that ends [while (measure)]: a zero or NaN. *)
Definition falsy (x : float) : bool := eqb x 0 || negb (eqb x x).

(** The [n]-th call of [Math.random] returns [random n]; the result
    comes with the count of calls made. *)
Fixpoint createPoisson_while (fuel : nat) (random : nat -> float) (n : nat)
  (domain : list float) (measure : float) (spline : list float)
  : option (list float) * nat :=
  if falsy measure then (Some spline, n)
  else
    match fuel with
    | O => (None, n)
    | S fuel' =>
        let dart0 := measure * random n in
        let found := find_dart domain dart0 0 in
        let spline' :=
          match found with Some p => spline ++ [p] | None => spline end in
        let dart := match found with Some p => p | None => dart0 end in
        let c := dart - radius in
        let d := dart + radius in
        let domain' := update_domain c d domain in
        createPoisson_while fuel' random (S n) domain' (remeasure domain' 0)
          spline'
    end.

(** [spline.sort()]: the order of the decimal strings, which is the
    numeric order on [0], [1] and the darts in between. *)
Fixpoint insert (v : float) (l : list float) : list float :=
  match l with
  | [] => [v]
  | h :: t => if leb v h then v :: l else h :: insert v t
  end.

Fixpoint sort (l : list float) : list float :=
  match l with
  | [] => []
  | h :: t => insert h (sort t)
  end.

Definition createPoisson (fuel : nat) (random : nat -> float)
  : option (list float) * nat :=
  let (r, n) :=
    createPoisson_while fuel random 0 [radius; 1 - radius] (1 - radius2)
      [0; 1] in
  (option_map sort r, n).

End Binary64.

(** The margin left to the rounding of the doubles. *)
Definition slack : Q := 1 / 1000000000.

(** * Vocabulary of the properties *)

(** ** Sample particle of the burst *)

Section CanvasSamples.

Import Canvas.

(** A plain particle as the constructor leaves it, with values from the
    ranges it draws from (viewport width 1920, scale factor 1). *)
Definition fresh_particle : Confetti :=
  {| speed := mkVec 0.9 0.9;
     finalSpeedX := 0.595;
     rotationSpeed := 0.05;
     dragCoefficient := 0.0008;
     radius := mkVec 5 5;
     initialRadius := 5;
     rotationAngle := 0.1;
     emojiRotationAngle := 3;
     radiusYDirection := down;
     absCos := 0.6;
     absSin := 0.8;
     position := mkVec 1900 600;
     initialPosition := mkVec 1900 600;
     color := Some "#c3c77e"%string;
     emoji := None;
     svgIcon := None;
     svgImage := None;
     createdAt := 1000;
     direction := dir_left |}.

(** [n] frames 16 ms apart after time [t]: the arguments of the calls
    [updatePosition(deltaTime, currentTime)] that the render loop makes. *)
Fixpoint frames16 (n : nat) (t : Q) : list (Q * Q) :=
  match n with
  | O => []
  | S n' => (16, t + 16) :: frames16 n' (t + 16)
  end.

End CanvasSamples.

(** ** Vocabulary for the burst *)

Section BurstVocabulary.

Import Canvas.

Definition dir_eqb (d1 d2 : Direction) : bool :=
  match d1, d2 with
  | dir_left, dir_left | dir_right, dir_right => true
  | _, _ => false
  end.

Definition count_direction (d : Direction) (l : list Confetti) : nat :=
  length (filter (fun p => dir_eqb (direction p) d) l).

(** [p] is the object a call [new Confetti(a)] returns on host [h]. *)
Definition constructed (h : Host) (a : ConfettiArgs) (p : Confetti) : Prop :=
  exists k, fst (new_Confetti a h k) = p.

(** A particle of the burst: built at the left edge flying right, or at
    the right edge flying left, at [5/7] of the viewport height. *)
Definition burst_particle (h : Host) (m : Merged) (p : Confetti) : Prop :=
  exists a,
    constructed h a p
    /\ arg_direction a = direction p
    /\ arg_radius a = m_confettiRadius m
    /\ arg_initialPosition a
       = mkVec (if is_left (direction p) then innerWidth h else 0)
               (5 * innerHeight h / 7)
    /\ exists offset,
         position p
         = mkVec (x (arg_initialPosition a)
                  + (if is_left (direction p) then - offset else offset)
                    * absCos p)
                 (y (arg_initialPosition a) - offset * absSin p).

(** A host for examples: a 1920 x 1080 viewport. *)
Definition host0 : Host :=
  {| Math_random := fun n => inject_Z (Z.of_nat (n mod 10)) / 10;
     Date_now := fun n => 1000 + inject_Z (Z.of_nat n);
     Math_cos := fun a => 1 - a * a / 2;
     Math_sin := fun a => a;
     Math_log := fun a => a;
     Math_PI := 3.141592653589793;
     innerWidth := 1920;
     innerHeight := 1080 |}.

Definition config100 : Config :=
  mkConfig (Some 100%Z) (Some 5) (Some ["#fff"%string]) None None.

End BurstVocabulary.

(** ** Vocabulary for the frame loop *)

Section FrameLoopVocabulary.

Import Background Poof.

(** What one pass of the removal loop leaves: the updated particles that
    are not done, in their order. *)
Definition survivors (height delta : Q) (l : list Confetto) : list Confetto :=
  flat_map (fun c => let (c', done) := update height delta c in
                     if done then [] else [c']) l.

Definition stopped (s : System) : Prop :=
  confetti s = [] /\ attached s = false /\ frame s = None
  /\ scheduled s = false.

Definition frame_delta (prev : option Q) (timestamp : Q) : Q :=
  match prev with
  | Some p => if truthy_num prev then timestamp - p else 0
  | None => 0
  end.

Definition live (s : System) : Prop :=
  truthy_handle (timer s) = true /\ attached s = true /\ scheduled s = true.

End FrameLoopVocabulary.

(** ** The domain of the sampler as intervals *)

Section DomainVocabulary.

Import Background.

(** The flat array of the script holds the end points of the intervals. *)
Fixpoint flat (ps : list (Q * Q)) : list Q :=
  match ps with
  | [] => []
  | (a, b) :: rest => a :: b :: flat rest
  end.

(** What "Update the domain" does to one interval [[a, b]]. *)
Definition update_interval (c d : Q) (ab : Q * Q) : list (Q * Q) :=
  let (a, b) := ab in
  if (a >=? c) && (a <? d) then
    if b >? d then [(d, b)] else []
  else if (a <? c) && (b >? c) then
    if b <=? d then [(a, c)] else [(a, c); (d, b)]
  else [(a, b)].

Definition update_intervals (c d : Q) (ps : list (Q * Q)) : list (Q * Q) :=
  flat_map (update_interval c d) ps.

Fixpoint measure_of (ps : list (Q * Q)) : Q :=
  match ps with
  | [] => 0
  | (a, b) :: rest => (b - a) + measure_of rest
  end.

End DomainVocabulary.

(** ** Vocabulary for the sampler *)

Section SamplerVocabulary.

Import Background.

(** An interval with an interior. *)
Definition proper (ab : Q * Q) : Prop := fst ab < snd ab.

(** An interval inside [[lo, hi]]. *)
Definition within (lo hi : Q) (ab : Q * Q) : Prop :=
  lo <= fst ab /\ snd ab <= hi.

(** Every point of the interval is at least [radius] away from [s]. *)
Definition clear_of (s : Q) (ab : Q * Q) : Prop :=
  snd ab <= s - radius \/ s + radius <= fst ab.

(** The dart [p] lies in the interval. *)
Definition holds (p : Q) (ab : Q * Q) : Prop :=
  fst ab <= p /\ p < snd ab.

(** Two samples at least [g] apart. *)
Definition far (g x y : Q) : Prop := x + g <= y \/ y + g <= x.

(** All samples of a list pairwise at least [radius] apart. *)
Fixpoint separated (l : list Q) : Prop :=
  match l with
  | [] => True
  | x :: rest => Forall (far radius x) rest /\ separated rest
  end.

(** Adjacent elements of a list differ by at least [g], in ascending
    order. *)
Fixpoint gaps_ge (g : Q) (l : list Q) : Prop :=
  match l with
  | [] => True
  | x :: rest =>
      match rest with
      | [] => True
      | y :: _ => x + g <= y /\ gaps_ge g rest
      end
  end.

(** The measure of the domain plus [radius] for each of its intervals:
    every dart lowers it by at least [radius]. *)
Fixpoint weight (ps : list (Q * Q)) : Q :=
  match ps with
  | [] => 0
  | (a, b) :: rest => radius + (b - a) + weight rest
  end.

(** The state of the sampling loop: the intervals still available and
    the darts thrown so far (the spline is [0 :: 1 :: darts]). *)
Definition sampling (ps : list (Q * Q)) (darts : list Q) : Prop :=
  Forall proper ps
  /\ Forall (within radius (1 - radius)) ps
  /\ (forall s, In s (0 :: 1 :: darts) -> Forall (clear_of s) ps)
  /\ separated (0 :: 1 :: darts)
  /\ Forall (fun p => radius <= p /\ p < 1 - radius) darts.

Definition draws_in_unit (h : Host) : Prop :=
  forall n, 0 <= Math_random h n /\ Math_random h n < 1.

Definition zero_host : Host :=
  {| Math_random := fun _ => 0;
     Date_now := fun n => inject_Z (Z.of_nat n);
     Math_cos := fun a => 1 - a * a / 2;
     Math_sin := fun a => a;
     Math_log := fun a => a;
     Math_PI := 3.141592653589793;
     innerWidth := 1920;
     innerHeight := 1080 |}.

End SamplerVocabulary.

(** ** Sample hosts, particles and runs *)

Section AmbientSamples.

Import Background Poof.

(** A host whose every draw is [1/2]. *)
Definition half_host : Host :=
  {| Math_random := fun _ => 0.5;
     Date_now := fun n => inject_Z (Z.of_nat n);
     Math_cos := fun a => 1 - a * a / 2;
     Math_sin := fun a => a;
     Math_log := fun a => a;
     Math_PI := 3.141592653589793;
     innerWidth := 1920;
     innerHeight := 1080 |}.

(** A particle as the constructor leaves it, above the viewport, with
    a spline the sampler can return. *)
Definition sample_confetto (dy0 : Q) : Confetto :=
  {| Background.frame := 0;
     outer_width := 7.5;
     outer_height := 7.5;
     backgroundColor := (100, 100, 100)%Z;
     outer_rotate := 180;
     axis := (1, 1);
     theta := 180;
     dTheta := 0.55;
     x := 960;
     y := - deviation;
     dx := 0;
     dy := dy0;
     splineX := [0; 0.1; 0.25; 0.4; 0.55; 0.7; 0.85; 1];
     splineY := map Some [50; 10; 20; 30; 40; 60; 70; 50] |}.

(** Three particles spawned under a mocked scheduler whose third
    [setTimeout] returns [undefined] and never fires. *)
Definition three_spawned : System :=
  addConfetto (sample_confetto 0.3) None
    (addConfetto (sample_confetto 0.2) (Some 2%Z)
       (poof (sample_confetto 0.13) (Some 1%Z) initial)).

(** The same particles when the third [setTimeout] returned the handle
    [3], as a browser does, and the scheduler then never fired it. *)
Definition three_spawned_stale : System :=
  addConfetto (sample_confetto 0.3) (Some 3%Z)
    (addConfetto (sample_confetto 0.2) (Some 2%Z)
       (poof (sample_confetto 0.13) (Some 1%Z) initial)).

(** Frames one second apart in a viewport 500 pixels high. *)
Definition eight_frames : list (Q * Q) :=
  [(1000, 500); (2000, 500); (3000, 500); (4000, 500);
   (5000, 500); (6000, 500); (7000, 500); (8000, 500)].

End AmbientSamples.

(** * Further code of the script *)

(** ** Confetti.draw *)

Module CanvasDraw.

Import Canvas.

(** The one drawing call [draw(context)] issues on the 2D context, with
    its arguments; [NoDraw] when no branch is taken. *)
Inductive DrawOp :=
| DrawImage (image : String.string) (tx ty angle dx dy dw dh : Q)
| FillEllipse (fillStyle : String.string)
              (cx cy radiusX radiusY rotation startAngle endAngle : Q)
| FillText (text : String.string) (fontPx tx ty angle ox oy : Q)
| NoDraw.

(** [draw(context)]; [scale] is [window.devicePixelRatio]. *)
Definition draw (scale : Q) (pi : Q) (c : Confetti) : DrawOp :=
  let x := x (position c) in
  let y := y (position c) in
  let radiusX := Canvas.x (radius c) in
  let radiusY := Canvas.y (radius c) in
  if truthy_str (svgIcon c) then
    match svgIcon c with
    | Some image =>
        DrawImage image (scale * x) (scale * y) (emojiRotationAngle c)
                  (- radiusX) (- radiusY) (radiusX * 2) (radiusY * 2)
    | None => NoDraw
    end
  else if truthy_str (color c) then
    match color c with
    | Some fillStyle =>
        FillEllipse fillStyle (x * scale) (y * scale)
                    (radiusX * scale) (radiusY * scale)
                    (rotationAngle c) 0 (2 * pi)
    | None => NoDraw
    end
  else if truthy_str (emoji c) then
    match emoji c with
    | Some text =>
        FillText text (radiusX * scale) (scale * x) (scale * y)
                 (emojiRotationAngle c) 0 (radiusY / 2)
    | None => NoDraw
    end
  else NoDraw.

End CanvasDraw.

(** ** Utils.debounce

    The wrapper keeps one variable, [timeout]; the host keeps the timers.
    A timer is its handle, its due time and the arguments its callback
    will pass to [func]. *)

Module Debounce.

Section Wrapper.

Variable A : Type.

Record Timer := mkTimer { handle : Z; due : Q; args : A }.

(** The timers of the host that are still to fire, the variable
    [timeout] of the wrapper, and the calls of [func] made so far, the
    latest first. *)
Record State := mkState {
  timers : list Timer;
  timeout : option Z;
  invoked : list (Q * A)
}.

Definition start : State := mkState [] None [].

(** [clearTimeout(timeout)]: removes the timer with that handle, if any;
    [undefined] names none. *)
Definition clearTimeout (h : option Z) (ts : list Timer) : list Timer :=
  match h with
  | Some z => filter (fun t => negb (Z.eqb (handle t) z)) ts
  | None => ts
  end.

(** A call of the wrapper at time [t] with arguments [a];
    [fresh] is the handle [setTimeout] returns. *)
Definition call (delay : Q) (t : Q) (a : A) (fresh : Z) (s : State) : State :=
  mkState (mkTimer fresh (t + delay) a :: clearTimeout (timeout s) (timers s))
          (Some fresh) (invoked s).

(** The host runs the timers due at time [t]: each calls [func] with its
    arguments. *)
Definition fire (t : Q) (s : State) : State :=
  let dues := filter (fun tm => due tm <=? t) (timers s) in
  mkState (filter (fun tm => negb (due tm <=? t)) (timers s))
          (timeout s)
          (map (fun tm => (t, args tm)) dues ++ invoked s).

Inductive Event :=
| Call (t : Q) (a : A) (fresh : Z)
| Fire (t : Q).

Definition step (delay : Q) (s : State) (e : Event) : State :=
  match e with
  | Call t a fresh => call delay t a fresh s
  | Fire t => fire t s
  end.

Definition run (delay : Q) (evs : list Event) (s : State) : State :=
  fold_left (step delay) evs s.

End Wrapper.

Arguments mkTimer {A}.
Arguments handle {A}.
Arguments due {A}.
Arguments args {A}.
Arguments mkState {A}.
Arguments timers {A}.
Arguments timeout {A}.
Arguments invoked {A}.
Arguments start {A}.
Arguments clearTimeout {A}.
Arguments call {A}.
Arguments fire {A}.
Arguments Call {A}.
Arguments Fire {A}.
Arguments step {A}.
Arguments run {A}.

End Debounce.

(** ** Vocabulary for runs of calls *)

Section RunVocabulary.

(** The sum of the [deltaTime]s of a run of [updatePosition] calls. *)
Fixpoint total_time (calls : list (Q * Q)) : Q :=
  match calls with
  | [] => 0
  | (deltaTime, _) :: rest => deltaTime + total_time rest
  end.

End RunVocabulary.

(** ** Vocabulary for the canvas loop *)

Section CanvasLoopVocabulary.

Import Canvas.

(** At time [t] the particle has fallen for long enough to be below
    the removal line of a canvas of height [canvasHeight]. *)
Definition overdue (canvasHeight t : Q) (c : Confetti) : Prop :=
  let elapsed := t - createdAt c in
  0 <= elapsed
  /\ 1600 * (y (speed c) * absSin c + 1) <= elapsed
  /\ canvasHeight + 100 - y (initialPosition c) <= elapsed.

End CanvasLoopVocabulary.

(** ** Vocabulary for the coverage of the sampler *)

Section CoverageVocabulary.

Import Background.

(** [t] lies in one of the intervals. *)
Definition in_domain (ps : list (Q * Q)) (t : Q) : Prop :=
  exists ab, In ab ps /\ fst ab <= t /\ t <= snd ab.

(** [t] is within [radius] of one of the darts. *)
Definition covered_by (darts : list Q) (t : Q) : Prop :=
  exists p, In p darts /\ p - radius <= t /\ t <= p + radius.

(** Every point of [[radius, 1 - radius]] is still available or within
    [radius] of a dart. *)
Definition covering (ps : list (Q * Q)) (darts : list Q) : Prop :=
  forall t, radius <= t -> t <= 1 - radius ->
            in_domain ps t \/ covered_by darts t.

(** Adjacent elements of a list differ by at most [g]. *)
Fixpoint gaps_le (g : Q) (l : list Q) : Prop :=
  match l with
  | [] => True
  | x :: rest =>
      match rest with
      | [] => True
      | y :: _ => y <= x + g /\ gaps_le g rest
      end
  end.

End CoverageVocabulary.

(** ** Vocabulary for runs of the ambient particle *)

Section AmbientRunVocabulary.

Import Background.



(** [v] is [deviation * random()] for one of the draws of the host. *)
Definition deviation_draw (h : Host) (v : Q) : Prop :=
  exists n, v = deviation * Math_random h n.

End AmbientRunVocabulary.

(** ** Vocabulary for the debounced function *)

Section DebounceVocabulary.

(** The count of calls of the wrapper among the events. *)
Fixpoint calls_in {A : Type} (evs : list (Debounce.Event A)) : nat :=
  match evs with
  | [] => O
  | Debounce.Call _ _ _ :: rest => S (calls_in rest)
  | Debounce.Fire _ :: rest => calls_in rest
  end.

(** What holds of the wrapper after any events: at most one timer is
    waiting, it is the one whose handle [timeout] holds, and it was set
    by a call, [delay] before it is due. *)
Definition one_timer {A : Type} (delay : Q)
  (evs : list (Debounce.Event A)) (s : Debounce.State A) : Prop :=
  Debounce.timers s = []
  \/ exists tm t0,
       Debounce.timers s = [tm]
       /\ Debounce.timeout s = Some (Debounce.handle tm)
       /\ In (Debounce.Call t0 (Debounce.args tm) (Debounce.handle tm)) evs
       /\ Debounce.due tm = t0 + delay.

End DebounceVocabulary.

(** * Properties *)

(** ** Comparisons *)

Lemma Qltb_lt a b : (a <? b) = true <-> a < b.
Proof.
  unfold Qltb. rewrite negb_true_iff, <- not_true_iff_false, Qle_bool_iff.
  split; intro H; [apply Qnot_le_lt | apply Qlt_not_le]; exact H.
Qed.

Lemma Qltb_ge a b : (a <? b) = false <-> b <= a.
Proof.
  unfold Qltb. rewrite negb_false_iff. apply Qle_bool_iff.
Qed.

Lemma Qgeb_ge a b : (a >=? b) = true <-> b <= a.
Proof. apply Qle_bool_iff. Qed.

Lemma Qgeb_lt a b : (a >=? b) = false <-> a < b.
Proof.
  unfold Qgeb. rewrite <- not_true_iff_false, Qle_bool_iff.
  split; intro H; [apply Qnot_le_lt | apply Qlt_not_le]; exact H.
Qed.

Lemma Qgtb_gt a b : (a >? b) = true <-> b < a.
Proof. apply Qltb_lt. Qed.

Lemma Qgtb_le a b : (a >? b) = false <-> a <= b.
Proof. apply Qltb_ge. Qed.

Lemma Qleb_le a b : (a <=? b) = true <-> a <= b.
Proof. apply Qle_bool_iff. Qed.

Lemma Qleb_gt a b : (a <=? b) = false <-> b < a.
Proof. apply (Qgeb_lt b a). Qed.

(** The comparisons among the hypotheses, as inequalities. *)
Ltac qfacts :=
  repeat match goal with
  | H : Qltb _ _ = true |- _ => apply Qltb_lt in H
  | H : Qltb _ _ = false |- _ => apply Qltb_ge in H
  | H : Qgeb _ _ = true |- _ => apply Qgeb_ge in H
  | H : Qgeb _ _ = false |- _ => apply Qgeb_lt in H
  | H : Qgtb _ _ = true |- _ => apply Qgtb_gt in H
  | H : Qgtb _ _ = false |- _ => apply Qgtb_le in H
  | H : Qle_bool _ _ = true |- _ => apply Qleb_le in H
  | H : Qle_bool _ _ = false |- _ => apply Qleb_gt in H
  end.

(** ** Utils.getRandomInRange *)

Lemma pow10_pos (p : Z) : 0 < 10 ^ p.
Proof. apply Qpower_0_lt. reflexivity. Qed.

Lemma floor_div_le (v m : Q) : 0 < m -> inject_Z (Qfloor (v * m)) / m <= v.
Proof.
  intro Hm. apply Qle_shift_div_r; [exact Hm | apply Qfloor_le].
Qed.

Lemma floor_div_gt (v m : Q) :
  0 < m -> v - 1 / m < inject_Z (Qfloor (v * m)) / m.
Proof.
  intro Hm. apply Qlt_shift_div_l; [exact Hm |].
  assert (H := Qlt_floor (v * m)).
  rewrite inject_Z_plus in H.
  assert (E : (v - 1 / m) * m == v * m - 1) by (field; lra).
  rewrite E. change (inject_Z 1) with 1 in H. lra.
Qed.

Lemma floor_div_ge_aligned (lo v m : Q) :
  0 < m -> lo <= v -> inject_Z (Qfloor (lo * m)) == lo * m ->
  lo <= inject_Z (Qfloor (v * m)) / m.
Proof.
  intros Hm Hlo Hal. apply Qle_shift_div_l; [exact Hm |].
  rewrite <- Hal. rewrite <- Zle_Qle. apply Qfloor_resp_le. nra.
Qed.

Example getRandomInRange_speed :
  Utils.getRandomInRange_at 0.9 1.7 3 0.5 == 1.3.
Proof. reflexivity. Qed.

Example getRandomInRange_reversed_bounds :
  Utils.getRandomInRange_at 82 15 0 0 == 82.
Proof. reflexivity. Qed.

(** C5, as stated, fails: with [min = 0.5], [max = 1.5], precision 0 and
    the draw [0], the result is [0], which is below [min]. *)
Lemma getRandomInRange_leaves_range :
  ~ (0.5 <= Utils.getRandomInRange_at 0.5 1.5 0 0
     /\ Utils.getRandomInRange_at 0.5 1.5 0 0 < 1.5).
Proof.
  intros [H _]. vm_compute in H. apply H. reflexivity.
Qed.

Lemma slack_pos : 0 < slack.
Proof. reflexivity. Qed.

(** C5, amended: for bounds [-1000 <= min < max <= 1000], a precision of
    [0..6] and a draw [u] of [[0, 1)], the result is the uniform draw
    [v = u * (max - min) + min] cut down to a multiple of
    [step = 10 ^ -precision], up to the rounding of the doubles: it is a
    multiple of [step], at most [v] and at most [step] below [v], hence
    at most [max] and at most [step] below [min], each within the margin
    [slack].  It can be below [min], and it can be [max].  The bounds
    on the arguments keep the rounding of the doubles within the
    margin. *)
Theorem getRandomInRange_truncates (min max : Q) (precision : Z) (u : Q) :
  (0 <= precision <= 6)%Z -> 0 <= u -> u < 1 ->
  - (1000) <= min -> min < max -> max <= 1000 ->
  let step := 1 / 10 ^ precision in
  let v := u * (max - min) + min in
  let r := Utils.getRandomInRange_at min max precision u in
  (exists n : Z, Qabs (r - inject_Z n * step) <= slack)
  /\ v - step - slack <= r /\ r <= v + slack
  /\ min - step - slack <= r /\ r <= max + slack.
Proof.
  intros _ Hu0 Hu1 _ Hmm _ step v r.
  assert (Hm := pow10_pos precision). assert (Hs := slack_pos).
  assert (Hv : min <= v /\ v < max) by (unfold v; split; nra).
  assert (Hle : r <= v) by (apply floor_div_le; exact Hm).
  assert (Hgt : v - step < r) by (apply floor_div_gt; exact Hm).
  split; [| repeat split; lra].
  exists (Qfloor (v * 10 ^ precision)).
  assert (E : r - inject_Z (Qfloor (v * 10 ^ precision)) * step == 0).
  { unfold r, step, Utils.getRandomInRange_at. fold v. field. lra. }
  rewrite E. simpl. lra.
Qed.

Lemma getRandomInRange_truncates_witness :
  let step := 1 / 10 ^ 3 in
  let v := 0.5 * (1.7 - 0.9) + 0.9 in
  let r := Utils.getRandomInRange_at 0.9 1.7 3 0.5 in
  (exists n : Z, Qabs (r - inject_Z n * step) <= slack)
  /\ v - step - slack <= r /\ r <= v + slack
  /\ 0.9 - step - slack <= r /\ r <= 1.7 + slack.
Proof.
  apply (getRandomInRange_truncates 0.9 1.7 3 0.5).
  - lia.
  - lra.
  - lra.
  - lra.
  - lra.
  - lra.
Defined.

Section UtilsInDoubles.

Import Stdlib.Floats.PrimFloat.

Example to_Q_values :
  Binary64.to_Q 0.5 == 1 # 2 /\ Binary64.to_Q (-3) == - (3)
  /\ Binary64.to_Q 0.1 == 3602879701896397 # 36028797018963968.
Proof. vm_compute. repeat split. Qed.

Example floor_values :
  map Binary64.floor
      [2.5; 0.5; 0; -0.5; -3; -3.25; 799.9999999999999; 1e15;
       4503599627370497; -9007199254740993]%float
  = [2; 0; 0; -1; -3; -4; 799; 1e15;
     4503599627370497; -9007199254740993]%float.
Proof. vm_compute. reflexivity. Qed.

(** The function on doubles.  With the draw [0] the result is below
    [min]; the top draw gives [max] itself, and a draw can lose a whole
    step to the rounding of [randomValue * multiplier]:
    [0.75 * (0.0009 - 0.0005) + 0.0005] times [10^6] is
    [799.9999999999999]. *)
Example getRandomInRange_in_doubles :
  Binary64.getRandomInRange_at 0.5 1.5 0 0 = 0%float
  /\ Binary64.getRandomInRange_at 0.0005 0.0009 6 Binary64.top
     = 0.0009%float
  /\ Binary64.getRandomInRange_at 0.0005 0.0009 6 0.75 = 0.000799%float
  /\ Binary64.getRandomInRange_at (-0.2) 0 3 0.25 = (-0.151)%float
  /\ Binary64.getRandomInRange_at 0.29 1 2 0 = 0.28%float.
Proof. vm_compute. repeat split. Qed.

(** These results, as exact rationals, against the bounds of the
    amended C5. *)
Example getRandomInRange_truncates_in_doubles :
  Forall
    (fun '(min, max, precision, u) =>
       let step := 1 / 10 ^ Z.of_nat precision in
       let v := Binary64.to_Q u * (Binary64.to_Q max - Binary64.to_Q min)
                + Binary64.to_Q min in
       let r :=
         Binary64.to_Q (Binary64.getRandomInRange_at min max precision u) in
       v - step - slack <= r /\ r <= v + slack
       /\ Binary64.to_Q min - step - slack <= r
       /\ r <= Binary64.to_Q max + slack)
    [(0.5, 1.5, 0%nat, 0); (0.0005, 0.0009, 6%nat, Binary64.top);
     (0.0005, 0.0009, 6%nat, 0.75); (-0.2, 0, 3%nat, 0.25);
     (0.29, 1, 2%nat, 0); (0.9, 1.7, 3%nat, 0.5)]%float.
Proof.
  repeat constructor; vm_compute; discriminate.
Qed.

(** The draws of the constructor of [Confetti] at the two ends of the
    range of [Math.random].  Every operation of [getRandomInRange] is
    monotone in the draw, so these results bound all the others. *)
Example new_Confetti_draws_in_doubles :
  (Binary64.getRandomInRange_at 0.2 0.6 3 0 = 0.2
   /\ Binary64.getRandomInRange_at 0.2 0.6 3 Binary64.top = 0.599)%float
  /\ (Binary64.getRandomInRange_at 0.0005 0.0009 6 0 = 0.0005
      /\ Binary64.getRandomInRange_at 0.0005 0.0009 6 Binary64.top
         = 0.0009)%float
  /\ (Binary64.getRandomInRange_at 0 0.2 3 0 = 0
      /\ Binary64.getRandomInRange_at 0 0.2 3 Binary64.top = 0.199)%float
  /\ (Binary64.getRandomInRange_at (-0.2) 0 3 0 = -0.2
      /\ Binary64.getRandomInRange_at (-0.2) 0 3 Binary64.top
         = -0.001)%float.
Proof. vm_compute. repeat split. Qed.

(** The turning rate of [Confetto] at the two ends of the range:
    [dThetaMax] is [0.29999999999999993], and the top draw gives
    [0.7]. *)
Example dTheta_in_doubles :
  (Binary64.dThetaMax = 0.29999999999999993
   /\ Binary64.dThetaMin + Binary64.dThetaMax * 0 = 0.4
   /\ Binary64.dThetaMin + Binary64.dThetaMax * Binary64.top = 0.7)%float.
Proof. vm_compute. repeat split. Qed.

End UtilsInDoubles.

(** ** Confetti.updatePosition *)

Section UpdatePosition.

Import Canvas.

(** C2: at 16 ms per frame the particle is above its floor
    [finalSpeedX = 0.595] after 23 frames and below it after the 24th,
    where it stays: the decrement is not clamped. *)
Lemma updatePosition_undershoots_floor :
  x (speed (updates (frames16 23 1000) fresh_particle)) == 0.6056
  /\ x (speed (updates (frames16 24 1000) fresh_particle)) == 0.5928
  /\ x (speed (updates (frames16 24 1000) fresh_particle))
     < finalSpeedX (updates (frames16 24 1000) fresh_particle)
  /\ x (speed (updates (frames16 60 1000) fresh_particle)) == 0.5928.
Proof. vm_compute. repeat split; reflexivity. Qed.

(** Whenever the decrement of a call exceeds the distance to the floor,
    the call leaves [speed.x] below the floor. *)
Lemma updatePosition_speed_x_below (deltaTime currentTime : Q) (c : Confetti) :
  finalSpeedX c < x (speed c) ->
  x (speed c) - finalSpeedX c < dragCoefficient c * deltaTime ->
  x (speed (updatePosition deltaTime currentTime c)) < finalSpeedX c.
Proof.
  intros Habove Hstep. unfold updatePosition.
  destruct (if negb (truthy_str (emoji c)) && negb (truthy_str (svgIcon c))
            then _ else _) as [ry rd].
  simpl. apply Qgtb_gt in Habove. rewrite Habove.
  apply Qgtb_gt in Habove. lra.
Qed.

(** Once below the floor the speed stays where it is. *)
Lemma updatePosition_speed_x_rests (deltaTime currentTime : Q) (c : Confetti) :
  x (speed c) <= finalSpeedX c ->
  x (speed (updatePosition deltaTime currentTime c)) = x (speed c).
Proof.
  intro H. unfold updatePosition.
  destruct (if negb (truthy_str (emoji c)) && negb (truthy_str (svgIcon c))
            then _ else _) as [ry rd].
  simpl. apply Qgtb_le in H. rewrite H. reflexivity.
Qed.

(** The fields [updatePosition] never writes. *)
Lemma updatePosition_constants (deltaTime currentTime : Q) (c : Confetti) :
  let c' := updatePosition deltaTime currentTime c in
  initialPosition c' = initialPosition c /\ y (speed c') = y (speed c)
  /\ absSin c' = absSin c /\ createdAt c' = createdAt c
  /\ initialRadius c' = initialRadius c /\ emoji c' = emoji c
  /\ svgIcon c' = svgIcon c.
Proof.
  unfold updatePosition.
  destruct (if negb (truthy_str (emoji c)) && negb (truthy_str (svgIcon c))
            then _ else _) as [ry rd].
  simpl. repeat split; reflexivity.
Qed.

Lemma updates_constants (calls : list (Q * Q)) (c : Confetti) :
  let c' := updates calls c in
  initialPosition c' = initialPosition c /\ y (speed c') = y (speed c)
  /\ absSin c' = absSin c /\ createdAt c' = createdAt c
  /\ initialRadius c' = initialRadius c /\ emoji c' = emoji c
  /\ svgIcon c' = svgIcon c.
Proof.
  revert c. induction calls as [| [dt t] rest IH]; intro c; simpl.
  - repeat split; reflexivity.
  - destruct (IH (updatePosition dt t c)) as (A1 & A2 & A3 & A4 & A5 & A6 & A7).
    destruct (updatePosition_constants dt t c)
      as (B1 & B2 & B3 & B4 & B5 & B6 & B7).
    cbv zeta. repeat split; congruence.
Qed.

Lemma updates_app (calls1 calls2 : list (Q * Q)) (c : Confetti) :
  updates (calls1 ++ calls2) c = updates calls2 (updates calls1 c).
Proof.
  revert c. induction calls1 as [| [dt t] rest IH]; intro c; simpl.
  - reflexivity.
  - apply IH.
Qed.

Lemma updatePosition_y (deltaTime currentTime : Q) (c : Confetti) :
  y (position (updatePosition deltaTime currentTime c))
  == y (initialPosition c)
     - y (speed c) * absSin c * (currentTime - createdAt c)
     + 0.000625 * (currentTime - createdAt c) ^ 2.
Proof.
  unfold updatePosition.
  destruct (if negb (truthy_str (emoji c)) && negb (truthy_str (svgIcon c))
            then _ else _) as [ry rd].
  simpl. field.
Qed.

(** C4: after any history of calls, the call
    [updatePosition(deltaTime, now)] leaves
    [position.y = initialPosition.y - speed.y * absSin * elapsed
                  + 0.000625 * elapsed ^ 2]
    with [elapsed = now - createdAt]: the value is recomputed from the
    fields set at construction, whatever [position.y] was before. *)
Theorem updatePosition_recomputes_y
  (history : list (Q * Q)) (deltaTime now : Q) (c : Confetti) :
  let elapsed := now - createdAt c in
  y (position (updates (history ++ [(deltaTime, now)]) c))
  == y (initialPosition c) - y (speed c) * absSin c * elapsed
     + 0.000625 * elapsed ^ 2.
Proof.
  intro elapsed. rewrite updates_app. simpl.
  rewrite updatePosition_y.
  destruct (updates_constants history c) as (A1 & A2 & A3 & A4 & _).
  cbv zeta in *. rewrite A1, A2, A3, A4. reflexivity.
Qed.

(** The bound on [radius.y] is kept by every call with a non-negative
    [deltaTime]. *)
Lemma updatePosition_radius_y (deltaTime currentTime : Q) (c : Confetti) :
  0 <= deltaTime -> 0 <= initialRadius c ->
  0 <= y (radius c) <= initialRadius c ->
  0 <= y (radius (updatePosition deltaTime currentTime c))
    <= initialRadius c.
Proof.
  intros Hdt Hr0 [Hlo Hhi]. unfold updatePosition.
  assert (Hrot : 0 <= Qmax (rotationSpeed c - 0.00001 * deltaTime) 0)
    by apply Q.le_max_r.
  set (rs := Qmax (rotationSpeed c - 0.00001 * deltaTime) 0) in *.
  assert (Hstep : 0 <= deltaTime * rs) by (apply Qmult_le_0_compat; assumption).
  destruct (negb (truthy_str (emoji c)) && negb (truthy_str (svgIcon c))).
  - destruct (radiusYDirection c).
    + destruct (Qle_bool (y (radius c) - deltaTime * rs) 0) eqn:E; simpl.
      * lra.
      * apply Qleb_gt in E. lra.
    + destruct (Qgeb (y (radius c) + deltaTime * rs) (initialRadius c)) eqn:E;
        simpl.
      * lra.
      * apply Qgeb_lt in E. lra.
  - simpl. lra.
Qed.

(** C6: for a particle with no emoji and no icon, [initialRadius >= 0]
    and [radius.y = initialRadius] at the start, [radius.y] is within
    [[0, initialRadius]] after any sequence of [updatePosition] calls
    with [deltaTime >= 0] (every prefix of such a sequence is one). *)
Theorem radius_y_bounded (calls : list (Q * Q)) (c : Confetti) :
  truthy_str (emoji c) = false -> truthy_str (svgIcon c) = false ->
  0 <= initialRadius c -> y (radius c) == initialRadius c ->
  Forall (fun call => 0 <= fst call) calls ->
  0 <= y (radius (updates calls c)) <= initialRadius c.
Proof.
  intros _ _ Hr0 Hstart Hcalls.
  assert (Hinv : 0 <= y (radius c) <= initialRadius c) by lra.
  clear Hstart. revert c Hr0 Hinv.
  induction Hcalls as [| [dt t] rest Hdt _ IH]; intros c Hr0 Hinv; simpl.
  - exact Hinv.
  - destruct (updatePosition_constants dt t c) as (_ & _ & _ & _ & A5 & _).
    cbv zeta in A5. rewrite <- A5. apply IH.
    + rewrite A5. exact Hr0.
    + rewrite A5. apply updatePosition_radius_y; assumption.
Qed.

Lemma radius_y_bounded_witness :
  0 <= y (radius (updates [(16, 1016); (17, 1033); (4000, 5033)]
                          fresh_particle))
    <= initialRadius fresh_particle.
Proof.
  apply (radius_y_bounded [(16, 1016); (17, 1033); (4000, 5033)]
           fresh_particle).
  - reflexivity.
  - reflexivity.
  - simpl. lra.
  - simpl. lra.
  - repeat constructor; simpl; lra.
Defined.

End UpdatePosition.

(** ** Cosine interpolation *)

Section InterpolationInDoubles.

Import Stdlib.Floats.PrimFloat.

(** C10, as stated, fails in the doubles of the script.  At [t = 1],
    where [cos(PI * t)] is [-1], the pair [(0.3, 0.9)] gives
    [(1 - -1) / 2 * (0.9 - 0.3) + 0.3 = 0.6000000000000001 + 0.3
     = 0.9000000000000001], which is above [max (0.3, 0.9)]. *)
Lemma interpolation_overshoots :
  ~ (Qmin (Binary64.to_Q 0.3) (Binary64.to_Q 0.9)
     <= Binary64.to_Q (Binary64.interpolation_at (-1) 0.3 0.9)
     /\ Binary64.to_Q (Binary64.interpolation_at (-1) 0.3 0.9)
        <= Qmax (Binary64.to_Q 0.3) (Binary64.to_Q 0.9)).
Proof.
  intros [_ H]. vm_compute in H. apply H. reflexivity.
Qed.

Example interpolation_at_the_ends :
  Binary64.interpolation_at (-1) 0.3 0.9 = 0.9000000000000001%float
  /\ Binary64.interpolation_at (-1) 0.4 0.1 = 0.09999999999999998%float
  /\ Binary64.interpolation_at 1 0.3 0.9 = 0.3%float.
Proof. vm_compute. repeat split. Qed.

End InterpolationInDoubles.

Section Interpolation.

Import Stdlib.Reals.Reals Stdlib.Reals.Qreals.
Import Render.
Local Open Scope R_scope.

(** The blend factor [(1 - cos (PI * t)) / 2] is a weight of [[0, 1]]. *)
Lemma blend_weight (t : R) : 0 <= (1 - cos (PI * t)) / 2 <= 1.
Proof.
  destruct (COS_bound (PI * t)) as [Hlo Hhi]. lra.
Qed.

Lemma interpolation_ends (a b : R) :
  interpolation a b 0 = a /\ interpolation a b 1 = b.
Proof.
  unfold interpolation. split.
  - rewrite Rmult_0_r, cos_0. lra.
  - rewrite Rmult_1_r, cos_PI. lra.
Qed.

Lemma interpolation_convex (a b t : R) :
  Rmin a b <= interpolation a b t <= Rmax a b.
Proof.
  unfold interpolation.
  assert (Hw := blend_weight t).
  set (w := (1 - cos (PI * t)) / 2) in *.
  unfold Rmin, Rmax. destruct (Rle_dec a b) as [Hab | Hab]; split; nra.
Qed.

Lemma slack_pos_R : 0 < Q2R slack.
Proof.
  rewrite <- RMicromega.Q2R_0. apply Qlt_Rlt. exact slack_pos.
Qed.

(** C10, amended: for every pair [(a, b)] of [[-100, 100]] (the entries
    of [splineY] lie in [[0, 100)]) and every [t] of [[0, 1]], the cosine
    interpolation [(1 - cos (PI * t)) / 2 * (b - a) + a] lies between
    [min a b] and [max a b] up to the rounding of the doubles, that is
    within the margin [slack] of that range; it is never on the far
    side of [a].  The bounds on [a] and [b] keep the rounding of the
    doubles within the margin. *)
Theorem interpolation_between (a b t : R) :
  0 <= t <= 1 -> -100 <= a <= 100 -> -100 <= b <= 100 ->
  Rmin a b - Q2R slack <= interpolation a b t <= Rmax a b + Q2R slack
  /\ (a <= b -> a <= interpolation a b t)
  /\ (b <= a -> interpolation a b t <= a).
Proof.
  intros _ _ _. assert (Hs := slack_pos_R).
  assert (H := interpolation_convex a b t). revert H.
  unfold Rmin, Rmax. destruct (Rle_dec a b) as [Hab | Hab]; intro H.
  - repeat split; lra.
  - repeat split; lra.
Qed.

Lemma interpolation_between_witness :
  (Rmin 30 70 - Q2R slack <= interpolation 30 70 (1 / 2)
   <= Rmax 30 70 + Q2R slack)
  /\ (30 <= 70 -> 30 <= interpolation 30 70 (1 / 2))
  /\ (70 <= 30 -> interpolation 30 70 (1 / 2) <= 30).
Proof.
  apply (interpolation_between 30 70 (1 / 2)).
  - lra.
  - lra.
  - lra.
Defined.

End Interpolation.

(** ** ConfettiManager.addConfetti *)

Section AddConfetti.

Import Canvas.

Ltac run_monad :=
  repeat match goal with
  | |- context [let (_, _) := ?e in _] => destruct e
  end.

Lemma new_Confetti_direction (a : ConfettiArgs) (h : Host) (k : Calls) :
  direction (fst (new_Confetti a h k)) = arg_direction a.
Proof.
  unfold new_Confetti, bind, ret. run_monad. reflexivity.
Qed.

Lemma new_Confetti_position (a : ConfettiArgs) (h : Host) (k : Calls) :
  let p := fst (new_Confetti a h k) in
  exists offset,
    position p
    = mkVec (x (arg_initialPosition a)
             + (if is_left (arg_direction a) then - offset else offset)
               * absCos p)
            (y (arg_initialPosition a) - offset * absSin p).
Proof.
  unfold new_Confetti, bind, ret. run_monad. simpl.
  eexists. reflexivity.
Qed.

Lemma loop_test_iff (i n : Z) :
  (inject_Z i <? inject_Z n / 2) = true <-> (2 * i < n)%Z.
Proof.
  rewrite Qltb_lt, Zlt_Qlt, inject_Z_mult. change (inject_Z 2) with 2.
  assert (E : inject_Z n / 2 == inject_Z n * (1 # 2)) by field.
  rewrite E. split; intro H; lra.
Qed.

Lemma count_direction_app (d : Direction) (l1 l2 : list Confetti) :
  count_direction d (l1 ++ l2)
  = (count_direction d l1 + count_direction d l2)%nat.
Proof.
  unfold count_direction. rewrite filter_app, length_app. reflexivity.
Qed.

(** The loop of [addConfetti] from index [i] runs [r] more times, where
    [r] counts the integers from [i] below [confettiesNumber / 2]. *)
Lemma addConfetti_for_runs (r : nat) :
  forall (fuel : nat) (m : Merged) (baseY : Q) (i : Z) (acc : list Confetti)
         (h : Host) (k : Calls),
  baseY = 5 * innerHeight h / 7 ->
  r = Z.to_nat ((m_confettiesNumber m + 1) / 2 - i) ->
  (r <= fuel)%nat ->
  exists created k',
    addConfetti_for fuel m baseY i acc h k = (Some (acc ++ created), k')
    /\ length created = (2 * r)%nat
    /\ count_direction dir_right created = r
    /\ count_direction dir_left created = r
    /\ Forall (burst_particle h m) created.
Proof.
  induction r as [| r IH]; intros fuel m baseY i acc h k HbaseY Hr Hfuel.
  - exists [], k. rewrite app_nil_r.
    assert (Hstop : (inject_Z i <? inject_Z (m_confettiesNumber m) / 2) = false).
    { apply not_true_iff_false. rewrite loop_test_iff.
      assert ((m_confettiesNumber m + 1) / 2 - i <= 0)%Z by lia.
      assert (H2 := Z.div_mod (m_confettiesNumber m + 1) 2 ltac:(lia)).
      assert (H3 := Z.mod_pos_bound (m_confettiesNumber m + 1) 2 ltac:(lia)).
      lia. }
    destruct fuel; simpl; rewrite Hstop; repeat split; constructor.
  - assert (Hgo : (inject_Z i <? inject_Z (m_confettiesNumber m) / 2) = true).
    { rewrite loop_test_iff.
      assert (H2 := Z.div_mod (m_confettiesNumber m + 1) 2 ltac:(lia)).
      assert (H3 := Z.mod_pos_bound (m_confettiesNumber m + 1) 2 ltac:(lia)).
      lia. }
    destruct fuel as [| fuel]; [lia |].
    simpl. rewrite Hgo. unfold bind at 1.
    destruct (new_Confetti (args_right m baseY) h k) as [c1 k1] eqn:E1.
    unfold bind at 1, host at 1. unfold bind at 1.
    destruct (new_Confetti (args_left m (innerWidth h) baseY) h k1)
      as [c2 k2] eqn:E2.
    destruct (IH fuel m baseY (i + 1)%Z (acc ++ [c1; c2]) h k2 HbaseY
                ltac:(lia) ltac:(lia))
      as (created & k' & Hrun & Hlen & Hright & Hleft & Hall).
    assert (D1 : direction c1 = dir_right).
    { replace c1 with (fst (new_Confetti (args_right m baseY) h k))
        by (rewrite E1; reflexivity).
      apply new_Confetti_direction. }
    assert (D2 : direction c2 = dir_left).
    { replace c2 with (fst (new_Confetti (args_left m (innerWidth h) baseY) h k1))
        by (rewrite E2; reflexivity).
      apply new_Confetti_direction. }
    exists (c1 :: c2 :: created), k'.
    split; [| split; [| split; [| split]]].
    + rewrite Hrun. rewrite <- app_assoc. reflexivity.
    + simpl. lia.
    + change (c1 :: c2 :: created) with ([c1; c2] ++ created).
      rewrite count_direction_app, Hright.
      unfold count_direction. simpl. rewrite D1, D2. reflexivity.
    + change (c1 :: c2 :: created) with ([c1; c2] ++ created).
      rewrite count_direction_app, Hleft.
      unfold count_direction. simpl. rewrite D1, D2. reflexivity.
    + constructor; [| constructor; [| exact Hall]].
      * exists (args_right m baseY).
        split; [| split; [| split; [| split]]].
        -- exists k. rewrite E1. reflexivity.
        -- rewrite D1. reflexivity.
        -- reflexivity.
        -- rewrite D1. simpl. rewrite HbaseY. reflexivity.
        -- rewrite D1. replace c1
             with (fst (new_Confetti (args_right m baseY) h k))
             by (rewrite E1; reflexivity).
           apply (new_Confetti_position (args_right m baseY) h k).
      * exists (args_left m (innerWidth h) baseY).
        split; [| split; [| split; [| split]]].
        -- exists k1. rewrite E2. reflexivity.
        -- rewrite D2. reflexivity.
        -- reflexivity.
        -- rewrite D2. simpl. rewrite HbaseY. reflexivity.
        -- rewrite D2. replace c2
             with (fst (new_Confetti (args_left m (innerWidth h) baseY) h k1))
             by (rewrite E2; reflexivity).
           apply (new_Confetti_position (args_left m (innerWidth h) baseY) h k1).
Qed.

(** For any integer count the loop body runs [ceil (count / 2)] times. *)
Lemma addConfetti_pairs (fuel : nat) (config : Config) (mgr : ConfettiManager)
  (h : Host) (k : Calls) :
  let n := m_confettiesNumber (merge config) in
  let r := Z.to_nat ((n + 1) / 2) in
  (r <= fuel)%nat ->
  exists created k',
    addConfetti fuel config mgr h k
    = (Some (mkManager (confetti mgr ++ created) (lastUpdated mgr)), k')
    /\ length created = (2 * r)%nat
    /\ count_direction dir_right created = r
    /\ count_direction dir_left created = r
    /\ Forall (burst_particle h (merge config)) created.
Proof.
  intros n r Hfuel. unfold addConfetti, bind, host, ret.
  destruct (addConfetti_for_runs r fuel (merge config)
              (5 * innerHeight h / 7) 0 (confetti mgr) h k eq_refl
              ltac:(unfold r, n; f_equal; lia) Hfuel)
    as (created & k' & Hrun & Hrest).
  exists created, k'. rewrite Hrun. split; [reflexivity | exact Hrest].
Qed.

(** C3, as stated, fails: with the default configuration (count 295)
    the call creates 296 particles, 148 for each direction. *)
Lemma addConfetti_default_makes_296 :
  let out := fst (addConfetti 148 emptyConfig (mkManager [] 0) host0
                              (mkCalls 0 0)) in
  m_confettiesNumber (merge emptyConfig) = 295%Z
  /\ option_map (fun mgr => length (confetti mgr)) out = Some 296%nat
  /\ option_map (fun mgr => count_direction dir_right (confetti mgr)) out
     = Some 148%nat
  /\ option_map (fun mgr => count_direction dir_left (confetti mgr)) out
     = Some 148%nat.
Proof.
  cbv zeta.
  destruct (addConfetti_pairs 148 emptyConfig (mkManager [] 0) host0
              (mkCalls 0 0) ltac:(vm_compute; lia))
    as (created & k' & Hrun & Hlen & Hright & Hleft & _).
  rewrite Hrun. simpl. rewrite Hlen, Hright, Hleft.
  repeat split.
Qed.

(** C3, amended: for every even count [>= 0], a call of [addConfetti]
    appends exactly [count] particles: [count / 2] with direction right,
    each built from the initial position [(0, 5 * innerHeight / 7)], and
    [count / 2] with direction left, each built from
    [(innerWidth, 5 * innerHeight / 7)]. *)
Theorem addConfetti_even_count (fuel : nat) (config : Config)
  (mgr : ConfettiManager) (h : Host) (k : Calls) :
  let n := m_confettiesNumber (merge config) in
  (0 <= n)%Z -> Z.even n = true -> (Z.to_nat (n / 2) <= fuel)%nat ->
  exists created k',
    addConfetti fuel config mgr h k
    = (Some (mkManager (confetti mgr ++ created) (lastUpdated mgr)), k')
    /\ length created = Z.to_nat n
    /\ count_direction dir_right created = Z.to_nat (n / 2)
    /\ count_direction dir_left created = Z.to_nat (n / 2)
    /\ Forall (burst_particle h (merge config)) created.
Proof.
  intros n Hn Heven Hfuel.
  apply Z.even_spec in Heven. destruct Heven as [half Hhalf].
  assert (E1 : ((n + 1) / 2 = n / 2)%Z).
  { rewrite Hhalf. rewrite (Z.mul_comm 2 half).
    rewrite Z.div_add_l by lia. rewrite Z.div_mul by lia.
    change (1 / 2)%Z with 0%Z. lia. }
  destruct (addConfetti_pairs fuel config mgr h k) as
    (created & k' & Hrun & Hlen & Hright & Hleft & Hall).
  { fold n. rewrite E1. exact Hfuel. }
  fold n in Hlen, Hright, Hleft. rewrite E1 in Hlen, Hright, Hleft.
  exists created, k'. repeat split; try assumption.
  rewrite Hlen. rewrite Hhalf. rewrite (Z.mul_comm 2 half).
  rewrite Z.div_mul by lia. lia.
Qed.

Lemma addConfetti_even_count_witness :
  exists created k',
    addConfetti 50 config100 (mkManager [] 0) host0 (mkCalls 0 0)
    = (Some (mkManager ([] ++ created) 0), k')
    /\ length created = 100%nat
    /\ count_direction dir_right created = 50%nat
    /\ count_direction dir_left created = 50%nat
    /\ Forall (burst_particle host0 (merge config100)) created.
Proof.
  apply (addConfetti_even_count 50 config100 (mkManager [] 0) host0
           (mkCalls 0 0)).
  - simpl. lia.
  - reflexivity.
  - simpl. lia.
Defined.

End AddConfetti.

(** ** The frame loop of the ambient shower *)

Section FrameLoop.

Import Background Poof.

Lemma nth_error_middle (l1 l2 : list Confetto) (c : Confetto) :
  nth_error (l1 ++ c :: l2) (length l1) = Some c.
Proof.
  rewrite nth_error_app2 by lia. rewrite Nat.sub_diag. reflexivity.
Qed.

Lemma remove_at_middle (l1 l2 : list Confetto) (c : Confetto) :
  remove_at (length l1) (l1 ++ c :: l2) = l1 ++ l2.
Proof.
  unfold remove_at. induction l1 as [| c1 l1 IH]; simpl.
  - reflexivity.
  - f_equal. exact IH.
Qed.

Lemma put_at_middle (l1 l2 : list Confetto) (c c' : Confetto) :
  put_at (length l1) c' (l1 ++ c :: l2) = l1 ++ c' :: l2.
Proof.
  unfold put_at. induction l1 as [| c1 l1 IH]; simpl.
  - reflexivity.
  - f_equal. exact IH.
Qed.

Lemma survivors_app (height delta : Q) (l1 l2 : list Confetto) :
  survivors height delta (l1 ++ l2)
  = survivors height delta l1 ++ survivors height delta l2.
Proof. unfold survivors. apply flat_map_app. Qed.

Lemma loop_for_S (i : nat) (height delta : Q) (l : list Confetto) :
  loop_for (S i) height delta l
  = match nth_error l i with
    | Some c =>
        if snd (update height delta c)
        then loop_for i height delta (remove_at i l)
        else loop_for i height delta (put_at i (fst (update height delta c)) l)
    | None => l
    end.
Proof.
  simpl. destruct (nth_error l i); reflexivity.
Qed.

Lemma survivors_one (height delta : Q) (c : Confetto) :
  survivors height delta [c]
  = if snd (update height delta c) then []
    else [fst (update height delta c)].
Proof.
  unfold survivors. simpl. destruct (_ >? _); reflexivity.
Qed.

(** The downward loop with its in-place removals visits every particle
    once and keeps those whose [update] returned false. *)
Lemma loop_for_prefix (height delta : Q) (l1 : list Confetto) :
  forall l2,
  loop_for (length l1) height delta (l1 ++ l2)
  = survivors height delta l1 ++ l2.
Proof.
  induction l1 as [| c l1 IH] using rev_ind; intro l2.
  - reflexivity.
  - rewrite length_app. simpl length. rewrite Nat.add_1_r.
    rewrite <- app_assoc. simpl app. rewrite loop_for_S.
    rewrite nth_error_middle. rewrite survivors_app, survivors_one.
    destruct (snd (update height delta c)).
    + rewrite remove_at_middle. rewrite IH. rewrite app_nil_r. reflexivity.
    + rewrite put_at_middle. rewrite IH.
      rewrite <- app_assoc. reflexivity.
Qed.

Lemma loop_for_survivors (height delta : Q) (l : list Confetto) :
  loop_for (length l) height delta l = survivors height delta l.
Proof.
  rewrite <- (app_nil_r l) at 2. rewrite loop_for_prefix. apply app_nil_r.
Qed.

Lemma loop_confetti (timestamp height : Q) (raf : Z) (s : System) :
  confetti (loop timestamp height raf s)
  = survivors height (frame_delta (prev s) timestamp) (confetti s).
Proof.
  unfold loop. fold (frame_delta (prev s) timestamp).
  rewrite loop_for_survivors.
  destruct (truthy_handle (timer s) || _); reflexivity.
Qed.

Lemma loop_timer (timestamp height : Q) (raf : Z) (s : System) :
  timer (loop timestamp height raf s) = timer s.
Proof.
  unfold loop. destruct (truthy_handle (timer s) || _); reflexivity.
Qed.

Lemma loop_prev (timestamp height : Q) (raf : Z) (s : System) :
  prev (loop timestamp height raf s) = Some timestamp.
Proof.
  unfold loop. destruct (truthy_handle (timer s) || _); reflexivity.
Qed.

(** The decision at the end of a frame. *)
Lemma loop_decision (timestamp height : Q) (raf : Z) (s : System) :
  let s' := loop timestamp height raf s in
  (scheduled s' = true <->
   truthy_handle (timer s) = true \/ confetti s' <> [])
  /\ (scheduled s' = true -> frame s' = Some raf /\ attached s' = attached s)
  /\ (scheduled s' = false -> attached s' = false /\ frame s' = None).
Proof.
  cbv zeta. unfold loop. fold (frame_delta (prev s) timestamp).
  rewrite loop_for_survivors.
  generalize (survivors height (frame_delta (prev s) timestamp) (confetti s)).
  intro l. destruct (truthy_handle (timer s)); simpl.
  - repeat split; auto; discriminate.
  - destruct l as [| c l']; simpl.
    + repeat split; try discriminate; auto.
      intros [H | H]; [discriminate | congruence].
    + repeat split; auto; try discriminate.
      intros _. right. discriminate.
Qed.

Lemma run_frames_stopped (frames : list (Q * Q)) (raf : Z) (s : System) :
  scheduled s = false -> run (frame_events frames raf) s = s.
Proof.
  intro H. induction frames as [| [t h] rest IH]; simpl.
  - reflexivity.
  - unfold run in *. simpl. rewrite H. exact IH.
Qed.

Lemma done_within_cons (height delta : Q) (rest : list (Q * Q))
  (c : Confetto) :
  done_within ((height, delta) :: rest) c
  = snd (update height delta c)
    || done_within rest (fst (update height delta c)).
Proof. reflexivity. Qed.

Lemma in_survivors (height delta : Q) (l : list Confetto) (c' : Confetto) :
  In c' (survivors height delta l) ->
  exists c, In c l /\ snd (update height delta c) = false
            /\ c' = fst (update height delta c).
Proof.
  induction l as [| c l IH]; intro Hin.
  - destruct Hin.
  - change (c :: l) with ([c] ++ l) in Hin.
    rewrite survivors_app, survivors_one in Hin.
    apply in_app_or in Hin. destruct Hin as [Hin | Hin].
    + exists c. destruct (snd (update height delta c)) eqn:E.
      * destruct Hin.
      * destruct Hin as [<- | []]. repeat split. left. reflexivity.
    + destruct (IH Hin) as (c0 & H0 & H1 & H2).
      exists c0. repeat split; try assumption. right. exact H0.
Qed.

Lemma survivors_done_within (height delta : Q) (rest : list (Q * Q))
  (l : list Confetto) :
  (forall c, In c l -> done_within ((height, delta) :: rest) c = true) ->
  forall c', In c' (survivors height delta l) -> done_within rest c' = true.
Proof.
  intros H c' Hin.
  destruct (in_survivors height delta l c' Hin) as (c & Hc & Hnot & ->).
  specialize (H c Hc). rewrite done_within_cons, Hnot in H. exact H.
Qed.

(** With no spawn pending, a run of frames in which every live particle
    gets done ends with the system torn down. *)
Lemma frames_stop (frames : list (Q * Q)) (raf : Z) :
  forall s : System,
  scheduled s = true -> truthy_handle (timer s) = false -> frames <> [] ->
  (forall c, In c (confetti s) ->
             done_within (frame_inputs (prev s) frames) c = true) ->
  stopped (run (frame_events frames raf) s).
Proof.
  induction frames as [| [t h] rest IH]; intros s Hs Ht Hne Hdone.
  - congruence.
  - unfold run. simpl. rewrite Hs. fold (run (frame_events rest raf)).
    destruct (loop_decision t h raf s) as (Hiff & Hon & Hoff).
    cbv zeta in *.
    assert (Hc := loop_confetti t h raf s).
    assert (Hsurv : forall c', In c' (confetti (loop t h raf s)) ->
              done_within (frame_inputs (Some t) rest) c' = true).
    { rewrite Hc. apply survivors_done_within. exact Hdone. }
    destruct (confetti (loop t h raf s)) as [| c' l'] eqn:El.
    + assert (Hstop : scheduled (loop t h raf s) = false).
      { apply not_true_iff_false. rewrite Hiff. rewrite Ht.
        intros [H | H]; [discriminate | congruence]. }
      rewrite run_frames_stopped by exact Hstop.
      destruct (Hoff Hstop) as [Ha Hf]. repeat split; assumption.
    + apply IH.
      * apply Hiff. right. discriminate.
      * rewrite loop_timer. exact Ht.
      * intro Hnil. specialize (Hsurv c' (or_introl eq_refl)).
        rewrite Hnil in Hsurv. discriminate.
      * rewrite loop_prev. rewrite El. exact Hsurv.
Qed.

(** C7, amended: a frame reschedules itself exactly when the handle in
    [timer] is truthy or particles remain after the removals; otherwise
    it detaches the container and stops.  Hence, when the spawn
    scheduler has stopped and left a falsy handle in [timer] (a mocked
    [setTimeout] that returns [undefined]), with finitely many particles
    alive, if each of them gets done within the given frames, then after
    these frames no particle is left and the container is detached: the
    count of frames bounds the run. *)
Theorem dom_loop_terminates :
  (forall (timestamp height : Q) (raf : Z) (s : System),
     let s' := loop timestamp height raf s in
     (scheduled s' = true <->
      truthy_handle (timer s) = true \/ confetti s' <> [])
     /\ (scheduled s' = true ->
         frame s' = Some raf /\ attached s' = attached s)
     /\ (scheduled s' = false -> attached s' = false /\ frame s' = None))
  /\ (forall (frames : list (Q * Q)) (raf : Z) (s : System),
        scheduled s = true -> attached s = true ->
        truthy_handle (timer s) = false -> frames <> [] ->
        (forall c, In c (confetti s) ->
                   done_within (frame_inputs (prev s) frames) c = true) ->
        exists n, (n <= length frames)%nat
          /\ stopped (run (frame_events (firstn n frames) raf) s)
          /\ run (frame_events frames raf) s
             = run (frame_events (firstn n frames) raf) s).
Proof.
  split.
  - intros t h raf s. exact (loop_decision t h raf s).
  - intros frames raf s Hs _ Ht Hne Hdone.
    exists (length frames). rewrite firstn_all.
    split; [lia | split; [| reflexivity]].
    apply frames_stop; assumption.
Qed.

(** Addition of a particle and of a fresh handle by the spawn callback. *)
Lemma addConfetto_timer (c : Confetto) (handle : option Z) (s : System) :
  timer (addConfetto c handle s) = handle
  /\ confetti (addConfetto c handle s) = confetti s ++ [c]
  /\ attached (addConfetto c handle s) = attached s
  /\ scheduled (addConfetto c handle s) = scheduled s.
Proof. repeat split. Qed.

Lemma truthy_positive (h : Z) : (0 < h)%Z -> truthy_handle (Some h) = true.
Proof.
  intro H. simpl. apply negb_true_iff. apply Z.eqb_neq. lia.
Qed.

Lemma step_live (s : System) (e : Event) :
  browser_event e -> live s -> live (step s e).
Proof.
  intros He (Ht & Ha & Hs). destruct e as [c [h |] | t h raf]; simpl in *.
  - repeat split; try assumption. apply truthy_positive. exact He.
  - destruct He.
  - rewrite Hs. unfold loop. rewrite Ht. simpl. repeat split; assumption.
Qed.

Lemma run_live (evs : list Event) :
  forall s, Forall browser_event evs -> live s -> live (run evs s).
Proof.
  induction evs as [| e evs IH]; intros s Hevs Hlive.
  - exact Hlive.
  - inversion Hevs; subst. unfold run. simpl. apply IH.
    + assumption.
    + apply step_live; assumption.
Qed.

Lemma frame_events_browser (frames : list (Q * Q)) (raf : Z) :
  (0 < raf)%Z -> Forall browser_event (frame_events frames raf).
Proof.
  intro Hraf. unfold frame_events. apply Forall_forall.
  intros e He. apply in_map_iff in He. destruct He as (f & <- & _).
  exact Hraf.
Qed.

(** C7, as stated, fails: that the spawn scheduler has stopped does not
    make the handle falsy.  [timer] is written by [addConfetto] only, so
    when the last [setTimeout] returned the handle [3] and never fired,
    the three particles alive get done within eight frames and the
    array is emptied, yet no run of frames detaches the container. *)
Lemma stale_handle_keeps_container :
  (forall c, In c (confetti three_spawned_stale) ->
     done_within (frame_inputs (prev three_spawned_stale) eight_frames) c
     = true)
  /\ confetti (run (frame_events eight_frames 1%Z) three_spawned_stale) = []
  /\ forall frames : list (Q * Q),
       ~ stopped (run (frame_events frames 1%Z) three_spawned_stale).
Proof.
  split; [| split].
  - intros c Hc. unfold three_spawned_stale in Hc.
    cbn [confetti addConfetto poof initial truthy_handle Poof.frame negb
         app In] in Hc.
    destruct Hc as [<- | [<- | [<- | []]]]; vm_compute; reflexivity.
  - vm_compute. reflexivity.
  - intros frames (_ & Ha & _).
    assert (Hlive : live (run (frame_events frames 1%Z) three_spawned_stale)).
    { apply run_live.
      - apply frame_events_browser. lia.
      - repeat split. }
    destruct Hlive as (_ & Ha' & _). congruence.
Qed.

(** C8: in the browser every call of [addConfetto] stores a fresh truthy
    handle in [timer], and the frame loop never changes [timer]; so
    after [poof], whatever spawn and frame callbacks fire, the handle is
    truthy, every frame takes the rescheduling branch, and the container
    stays attached: the cleanup branch is never reached. *)
Theorem unmocked_loop_never_stops :
  (forall (c : Confetto) (h : Z) (s : System),
     (0 < h)%Z -> truthy_handle (timer (addConfetto c (Some h) s)) = true)
  /\ (forall (timestamp height : Q) (raf : Z) (s : System),
        timer (loop timestamp height raf s) = timer s)
  /\ (forall (c0 : Confetto) (h0 : Z) (evs : list Event),
        (0 < h0)%Z -> Forall browser_event evs ->
        let s := run evs (poof c0 (Some h0) initial) in
        truthy_handle (timer s) = true
        /\ attached s = true
        /\ scheduled s = true
        /\ forall timestamp height raf,
             let s' := loop timestamp height raf s in
             scheduled s' = true /\ attached s' = true
             /\ frame s' = Some raf).
Proof.
  split; [| split].
  - intros c h s Hh. simpl. apply truthy_positive. exact Hh.
  - apply loop_timer.
  - intros c0 h0 evs Hh0 Hevs s.
    assert (Hlive : live s).
    { apply run_live; [exact Hevs |].
      unfold poof, initial. simpl. repeat split.
      apply truthy_positive. exact Hh0. }
    destruct Hlive as (Ht & Ha & Hs). repeat split; try assumption.
    + unfold loop. rewrite Ht. reflexivity.
    + unfold loop. rewrite Ht. simpl. exact Ha.
    + unfold loop. rewrite Ht. reflexivity.
Qed.

End FrameLoop.

(** ** createPoisson: the domain as a list of intervals *)

Section Domain.

Import Background.

Lemma flat_app (ps1 ps2 : list (Q * Q)) :
  flat (ps1 ++ ps2) = flat ps1 ++ flat ps2.
Proof.
  induction ps1 as [| [a b] ps1 IH]; simpl.
  - reflexivity.
  - rewrite IH. reflexivity.
Qed.

Lemma flat_length (ps : list (Q * Q)) :
  length (flat ps) = (2 * length ps)%nat.
Proof.
  induction ps as [| [a b] ps IH]; simpl.
  - reflexivity.
  - rewrite IH. lia.
Qed.

Lemma firstn_flat (xs rest : list Q) :
  firstn (length xs) (xs ++ rest) = xs.
Proof.
  rewrite firstn_app, firstn_all, Nat.sub_diag. simpl. apply app_nil_r.
Qed.

Lemma skipn_flat (xs rest : list Q) :
  skipn (length xs) (xs ++ rest) = rest.
Proof.
  rewrite skipn_app, skipn_all, Nat.sub_diag. reflexivity.
Qed.

Lemma nth_flat (xs rest : list Q) (n : nat) :
  nth (length xs + n) (xs ++ rest) 0 = nth n rest 0.
Proof.
  rewrite app_nth2 by lia. f_equal. lia.
Qed.

(** The step at index [i = length xs + 1] acts on the interval stored
    at [length xs] and [length xs + 1]. *)
Lemma update_step_at (c d a b : Q) (xs rest : list Q) :
  update_step c d (S (length xs)) (xs ++ a :: b :: rest)
  = xs ++ flat (update_interval c d (a, b)) ++ rest.
Proof.
  unfold update_step.
  replace (S (length xs) - 1)%nat with (length xs) by lia.
  replace (nth (length xs) (xs ++ a :: b :: rest) 0) with a
    by (rewrite <- (Nat.add_0_r (length xs)), nth_flat; reflexivity).
  replace (nth (S (length xs)) (xs ++ a :: b :: rest) 0) with b
    by (rewrite <- (Nat.add_1_r (length xs)), nth_flat; reflexivity).
  unfold update_interval.
  destruct ((a >=? c) && (a <? d)).
  - destruct (b >? d).
    + unfold set_nth. rewrite firstn_flat.
      replace (xs ++ a :: b :: rest) with ((xs ++ [a]) ++ b :: rest)
        by (rewrite <- app_assoc; reflexivity).
      replace (S (length xs)) with (length (xs ++ [a]))
        by (rewrite length_app; simpl; lia).
      rewrite skipn_flat. reflexivity.
    + unfold splice_out. rewrite firstn_flat.
      replace (xs ++ a :: b :: rest) with ((xs ++ [a; b]) ++ rest)
        by (rewrite <- app_assoc; reflexivity).
      replace (length xs + 2)%nat with (length (xs ++ [a; b]))
        by (rewrite length_app; simpl; lia).
      rewrite skipn_flat. reflexivity.
  - destruct ((a <? c) && (b >? c)).
    + destruct (b <=? d).
      * unfold set_nth.
        replace (xs ++ a :: b :: rest) with ((xs ++ [a]) ++ b :: rest)
          by (rewrite <- app_assoc; reflexivity).
        replace (S (length xs)) with (length (xs ++ [a]))
          by (rewrite length_app; simpl; lia).
        rewrite firstn_flat.
        replace ((xs ++ [a]) ++ b :: rest) with ((xs ++ [a; b]) ++ rest)
          by (rewrite <- !app_assoc; reflexivity).
        replace (S (length (xs ++ [a]))) with (length (xs ++ [a; b]))
          by (rewrite !length_app; simpl; lia).
        rewrite skipn_flat. rewrite <- app_assoc. reflexivity.
      * unfold splice_in.
        replace (xs ++ a :: b :: rest) with ((xs ++ [a]) ++ b :: rest)
          by (rewrite <- app_assoc; reflexivity).
        replace (S (length xs)) with (length (xs ++ [a]))
          by (rewrite length_app; simpl; lia).
        rewrite firstn_flat, skipn_flat. rewrite <- app_assoc. reflexivity.
    + reflexivity.
Qed.

(** The downward loop over the flat array updates every interval. *)
Lemma update_domain_for_prefix (c d : Q) (ps : list (Q * Q)) :
  forall rest,
  update_domain_for c d (length (flat ps) - 1) (flat ps ++ rest)
  = flat (update_intervals c d ps) ++ rest.
Proof.
  induction ps as [| [a b] ps IH] using rev_ind; intro rest.
  - reflexivity.
  - rewrite flat_app. simpl flat.
    rewrite length_app. simpl length.
    replace (length (flat ps) + 2 - 1)%nat with (S (length (flat ps))) by lia.
    rewrite <- app_assoc. simpl app.
    unfold update_intervals. rewrite flat_map_app. simpl flat_map.
    rewrite app_nil_r. rewrite flat_app.
    cbn [update_domain_for]. rewrite update_step_at.
    destruct (length (flat ps)) as [| l] eqn:El.
    + destruct ps as [| [a0 b0] ps]; [| discriminate]. reflexivity.
    + specialize (IH (flat (update_interval c d (a, b)) ++ rest)).
      replace (S l - 1)%nat with l in IH by lia.
      rewrite IH. unfold update_intervals, update_interval.
      rewrite <- app_assoc. reflexivity.
Qed.

Lemma update_domain_flat (c d : Q) (ps : list (Q * Q)) :
  update_domain c d (flat ps) = flat (update_intervals c d ps).
Proof.
  unfold update_domain.
  rewrite <- (app_nil_r (flat ps)) at 2.
  rewrite update_domain_for_prefix. apply app_nil_r.
Qed.

Lemma remeasure_flat (ps : list (Q * Q)) :
  forall m, remeasure (flat ps) m == m + measure_of ps.
Proof.
  induction ps as [| [a b] ps IH]; intro m; simpl.
  - ring.
  - rewrite IH. ring.
Qed.

End Domain.

(** ** createPoisson: invariants of the sampling loop *)

Section Sampler.

Import Background.

Lemma radius_value : radius == 0.1.
Proof. reflexivity. Qed.

Lemma radius2_value : radius2 == 0.2.
Proof. reflexivity. Qed.

Lemma weight_app (ps1 ps2 : list (Q * Q)) :
  weight (ps1 ++ ps2) == weight ps1 + weight ps2.
Proof.
  induction ps1 as [| [a b] ps1 IH]; simpl.
  - ring.
  - rewrite IH. ring.
Qed.

Lemma measure_of_nonneg (ps : list (Q * Q)) :
  Forall proper ps -> 0 <= measure_of ps.
Proof.
  induction 1 as [| [a b] ps Hab _ IH]; simpl.
  - lra.
  - unfold proper in Hab. simpl in Hab. lra.
Qed.

Lemma weight_ge_radius (ps : list (Q * Q)) :
  Forall proper ps -> ps <> [] -> radius <= weight ps.
Proof.
  intros H Hne. destruct H as [| [a b] ps Hab Hps]; [congruence |].
  simpl. assert (Hw : 0 <= weight ps).
  { clear Hne Hab. induction Hps as [| [a0 b0] ps0 H0 _ IH]; simpl.
    - lra.
    - unfold proper in H0. simpl in H0. assert (R := radius_value). lra. }
  unfold proper in Hab. simpl in Hab. lra.
Qed.

(** The pieces left of an interval lie inside it, have an interior, and
    stay out of the open zone [(c, d)] around the dart. *)
Lemma update_interval_pieces (c d a b a' b' : Q) :
  a < b -> c < d ->
  In (a', b') (update_interval c d (a, b)) ->
  a <= a' /\ b' <= b /\ a' < b' /\ (b' <= c \/ d <= a').
Proof.
  intros Hab Hcd Hin. unfold update_interval in Hin.
  destruct (a >=? c) eqn:E1; destruct (a <? d) eqn:E2;
    destruct (b >? d) eqn:E3; destruct (a <? c) eqn:E4;
    destruct (b >? c) eqn:E5; destruct (b <=? d) eqn:E6;
    simpl in Hin; qfacts;
    repeat match goal with
    | H : _ \/ _ |- _ => destruct H
    | H : (_, _) = (_, _) |- _ => inversion H; subst; clear H
    | H : False |- _ => destruct H
    end;
    repeat split; try lra; try (left; lra); try (right; lra).
Qed.

(** The weight of an interval does not grow, and it drops by at least
    [radius] for the interval that holds the dart. *)
Lemma update_interval_weight (p a b : Q) :
  a < b ->
  weight (update_interval (p - radius) (p + radius) (a, b)) <= weight [(a, b)]
  /\ (holds p (a, b) ->
      weight (update_interval (p - radius) (p + radius) (a, b))
      <= weight [(a, b)] - radius).
Proof.
  intro Hab. assert (R := radius_value). unfold holds, update_interval.
  simpl fst. simpl snd.
  destruct (a >=? p - radius) eqn:E1; destruct (a <? p + radius) eqn:E2;
    destruct (b >? p + radius) eqn:E3; destruct (a <? p - radius) eqn:E4;
    destruct (b >? p - radius) eqn:E5; destruct (b <=? p + radius) eqn:E6;
    simpl; qfacts; split; try intros [Hp1 Hp2]; lra.
Qed.

Lemma update_intervals_weight (p : Q) (ps : list (Q * Q)) :
  Forall proper ps ->
  weight (update_intervals (p - radius) (p + radius) ps) <= weight ps
  /\ (Exists (holds p) ps ->
      weight (update_intervals (p - radius) (p + radius) ps)
      <= weight ps - radius).
Proof.
  induction 1 as [| [a b] ps Hab Hps [IH1 IH2]].
  - split; [simpl; lra | intro H; inversion H].
  - unfold update_intervals in *. simpl flat_map.
    destruct (update_interval_weight p a b Hab) as [W1 W2].
    simpl weight in W1, W2. split.
    + rewrite weight_app. simpl weight. lra.
    + intro Hex. rewrite weight_app. simpl weight.
      inversion Hex; subst.
      * specialize (W2 H0). lra.
      * specialize (IH2 H0). lra.
Qed.

(** Properties that pass from an interval to the intervals inside it
    are kept by the update of the domain. *)
Lemma update_intervals_keep (P : Q * Q -> Prop) (c d : Q)
  (ps : list (Q * Q)) :
  (forall a b a' b', P (a, b) -> a <= a' -> b' <= b -> P (a', b')) ->
  c < d -> Forall proper ps -> Forall P ps ->
  Forall P (update_intervals c d ps).
Proof.
  intros Hsub Hcd Hproper HP. apply Forall_forall. intros [a' b'] Hin.
  unfold update_intervals in Hin. apply in_flat_map in Hin.
  destruct Hin as ([a b] & Hab & Hin).
  rewrite Forall_forall in Hproper, HP.
  destruct (update_interval_pieces c d a b a' b' (Hproper _ Hab) Hcd Hin)
    as (H1 & H2 & _).
  apply (Hsub a b); [apply HP; exact Hab | exact H1 | exact H2].
Qed.

Lemma update_intervals_proper (c d : Q) (ps : list (Q * Q)) :
  c < d -> Forall proper ps -> Forall proper (update_intervals c d ps).
Proof.
  intros Hcd Hproper. apply Forall_forall. intros [a' b'] Hin.
  unfold update_intervals in Hin. apply in_flat_map in Hin.
  destruct Hin as ([a b] & Hab & Hin).
  rewrite Forall_forall in Hproper.
  destruct (update_interval_pieces c d a b a' b' (Hproper _ Hab) Hcd Hin)
    as (_ & _ & H3 & _).
  exact H3.
Qed.

Lemma update_intervals_clear (p : Q) (ps : list (Q * Q)) :
  Forall proper ps ->
  Forall (clear_of p) (update_intervals (p - radius) (p + radius) ps).
Proof.
  intros Hproper. assert (R := radius_value).
  apply Forall_forall. intros [a' b'] Hin.
  unfold update_intervals in Hin. apply in_flat_map in Hin.
  destruct Hin as ([a b] & Hab & Hin).
  rewrite Forall_forall in Hproper.
  destruct (update_interval_pieces (p - radius) (p + radius) a b a' b'
              (Hproper _ Hab) ltac:(lra) Hin) as (_ & _ & _ & H4).
  exact H4.
Qed.

(** "Find where dart lies": a dart below the measure lands in one of
    the intervals. *)
Lemma find_dart_lands (ps : list (Q * Q)) :
  forall dart m,
  m <= dart -> dart < m + measure_of ps ->
  exists p, find_dart (flat ps) dart m = Some p /\ Exists (holds p) ps.
Proof.
  induction ps as [| [a b] ps IH]; intros dart m Hlo Hhi; simpl in *.
  - lra.
  - destruct (dart <? m + (b - a)) eqn:E; qfacts.
    + exists (dart + (a - m)). split; [reflexivity |].
      apply Exists_cons_hd. unfold holds. simpl. lra.
    + destruct (IH dart (m + (b - a)) E ltac:(lra)) as (p & Hp & Hex).
      exists p. split; [exact Hp | apply Exists_cons_tl; exact Hex].
Qed.

Lemma separated_snoc (l : list Q) (p : Q) :
  separated l -> Forall (fun s => far radius s p) l -> separated (l ++ [p]).
Proof.
  induction l as [| x l IH]; intros Hsep Hfar; simpl.
  - split; constructor.
  - destruct Hsep as [Hx Hl]. inversion Hfar; subst. split.
    + apply Forall_app. split; [exact Hx | constructor; [assumption | constructor]].
    + apply IH; assumption.
Qed.

Lemma sampling_start : sampling [(radius, 1 - radius)] [].
Proof.
  assert (R := radius_value).
  unfold sampling. repeat split.
  - constructor; [unfold proper; simpl; lra | constructor].
  - constructor; [unfold within; simpl; lra | constructor].
  - intros s [<- | [<- | []]]; (constructor; [| constructor]);
      unfold clear_of; simpl; lra.
  - constructor; [unfold far; lra | constructor].
  - constructor.
  - constructor.
Qed.

Lemma within_sub (lo hi a b a' b' : Q) :
  within lo hi (a, b) -> a <= a' -> b' <= b -> within lo hi (a', b').
Proof. unfold within. simpl. lra. Qed.

Lemma clear_of_sub (s a b a' b' : Q) :
  clear_of s (a, b) -> a <= a' -> b' <= b -> clear_of s (a', b').
Proof. unfold clear_of. simpl. lra. Qed.

(** A dart that lands in the domain keeps the loop state sound. *)
Lemma sampling_step (ps : list (Q * Q)) (darts : list Q) (p : Q) :
  sampling ps darts -> Exists (holds p) ps ->
  sampling (update_intervals (p - radius) (p + radius) ps) (darts ++ [p]).
Proof.
  intros (Hproper & Hwithin & Hclear & Hsep & Hdarts) Hex.
  assert (R := radius_value).
  assert (Hcd : p - radius < p + radius) by lra.
  apply Exists_exists in Hex. destruct Hex as ([a b] & Hab & Hp).
  assert (Hw : within radius (1 - radius) (a, b))
    by (rewrite Forall_forall in Hwithin; apply Hwithin; exact Hab).
  assert (Hfar : forall s, In s (0 :: 1 :: darts) -> far radius s p).
  { intros s Hs. specialize (Hclear s Hs). rewrite Forall_forall in Hclear.
    specialize (Hclear _ Hab). unfold clear_of, holds, far in *.
    simpl in *. lra. }
  unfold sampling. split; [| split; [| split; [| split]]].
  - apply update_intervals_proper; assumption.
  - apply update_intervals_keep; try assumption.
    intros; eapply within_sub; eassumption.
  - intros s Hs.
    assert (Hs' : In s (0 :: 1 :: darts) \/ s = p).
    { change (0 :: 1 :: darts ++ [p]) with ((0 :: 1 :: darts) ++ [p]) in Hs.
      apply in_app_or in Hs. destruct Hs as [Hs | [Hs | []]]; auto. }
    destruct Hs' as [Hs' | ->].
    + apply update_intervals_keep; try assumption.
      * intros; eapply clear_of_sub; eassumption.
      * apply Hclear. exact Hs'.
    + apply update_intervals_clear. exact Hproper.
  - change (0 :: 1 :: darts ++ [p]) with ((0 :: 1 :: darts) ++ [p]).
    apply separated_snoc; [exact Hsep |].
    apply Forall_forall. exact Hfar.
  - apply Forall_app. split; [exact Hdarts |].
    constructor; [| constructor].
    unfold within, holds in *. simpl in *. lra.
Qed.

Lemma measure_of_zero (ps : list (Q * Q)) :
  Forall proper ps -> measure_of ps == 0 -> ps = [].
Proof.
  intros H Hz. destruct H as [| [a b] ps Hab Hps]; [reflexivity |].
  simpl in Hz. assert (H0 := measure_of_nonneg ps Hps).
  unfold proper in Hab. simpl in Hab. lra.
Qed.

(** The sampling loop ends before its fuel, once the fuel covers the
    weight of the domain, and leaves pairwise separated samples. *)
Lemma createPoisson_while_ends (h : Host) (fuel : nat) :
  draws_in_unit h ->
  forall (ps : list (Q * Q)) (measure : Q) (darts : list Q) (k : Calls),
  sampling ps darts ->
  measure == measure_of ps ->
  weight ps <= radius * inject_Z (Z.of_nat fuel) ->
  exists darts' k',
    createPoisson_while fuel (flat ps) measure (0 :: 1 :: darts) h k
    = (Some (0 :: 1 :: darts'), k')
    /\ separated (0 :: 1 :: darts')
    /\ Forall (fun p => radius <= p /\ p < 1 - radius) darts'.
Proof.
  intro Hrand. assert (R := radius_value).
  induction fuel as [| fuel IH]; intros ps measure darts k Hs Hm Hw.
  - destruct (Qeq_bool measure 0) eqn:E.
    + exists darts, k. simpl. rewrite E.
      destruct Hs as (_ & _ & _ & Hsep & Hd).
      split; [reflexivity | split; assumption].
    + exfalso. apply Qeq_bool_neq in E.
      destruct Hs as (Hproper & _).
      assert (Hne : ps <> []).
      { intros ->. apply E. rewrite Hm. reflexivity. }
      assert (H1 := weight_ge_radius ps Hproper Hne).
      change (inject_Z (Z.of_nat 0)) with 0 in Hw. lra.
  - cbn [createPoisson_while]. destruct (Qeq_bool measure 0) eqn:E.
    + exists darts, k.
      destruct Hs as (_ & _ & _ & Hsep & Hd).
      split; [reflexivity | split; assumption].
    + apply Qeq_bool_neq in E.
      assert (Hproper : Forall proper ps) by apply Hs.
      assert (Hpos : 0 < measure).
      { assert (H0 := measure_of_nonneg ps Hproper).
        destruct (Qlt_le_dec 0 measure) as [Hlt | Hle]; [exact Hlt |].
        exfalso. apply E. lra. }
      unfold bind at 1. unfold random at 1.
      destruct (Hrand (randoms k)) as [Hu0 Hu1].
      set (u := Math_random h (randoms k)) in *.
      destruct (find_dart_lands ps (measure * u) 0) as (p & Hfind & Hex).
      { nra. }
      { rewrite <- Hm. nra. }
      rewrite Hfind. rewrite update_domain_flat.
      destruct (update_intervals_weight p ps Hproper) as [_ Hdrop].
      specialize (Hdrop Hex).
      destruct (IH (update_intervals (p - radius) (p + radius) ps)
                   (remeasure
                      (flat (update_intervals (p - radius) (p + radius) ps)) 0)
                   (darts ++ [p])
                   {| randoms := S (randoms k); clocks := clocks k |})
        as (darts' & k' & Hrun & Hsep & Hd).
      * apply sampling_step; assumption.
      * rewrite remeasure_flat. ring.
      * rewrite Nat2Z.inj_succ in Hw. unfold Z.succ in Hw.
        rewrite inject_Z_plus in Hw. change (inject_Z 1) with 1 in Hw. lra.
      * exists darts', k'. split; [| split; assumption].
        exact Hrun.
Qed.

(** *** Sorting the spline *)

Lemma insert_in (v x : Q) (l : list Q) :
  In x (insert v l) <-> x = v \/ In x l.
Proof.
  induction l as [| y l IH]; simpl.
  - intuition.
  - destruct (v <=? y); simpl; intuition.
Qed.

Lemma sort_in (x : Q) (l : list Q) : In x (sort l) <-> In x l.
Proof.
  induction l as [| y l IH]; simpl.
  - reflexivity.
  - rewrite insert_in, IH. intuition.
Qed.

Lemma sort_length (l : list Q) : length (sort l) = length l.
Proof.
  assert (Hins : forall v l0, length (insert v l0) = S (length l0)).
  { intros v l0. induction l0 as [| y l0 IH]; simpl.
    - reflexivity.
    - destruct (v <=? y); simpl; [reflexivity | rewrite IH; reflexivity]. }
  induction l as [| y l IH]; simpl.
  - reflexivity.
  - rewrite Hins, IH. reflexivity.
Qed.

Lemma insert_gaps (g v : Q) (l : list Q) :
  0 < g -> gaps_ge g l -> Forall (far g v) l -> gaps_ge g (insert v l).
Proof.
  intros Hg. induction l as [| y l IH]; intros Hgaps Hfar.
  - exact I.
  - inversion Hfar as [| ? ? Hy Hl]; subst. simpl insert.
    destruct (v <=? y) eqn:E; qfacts.
    + split; [unfold far in Hy; lra | exact Hgaps].
    + destruct l as [| z l].
      * simpl. split; [unfold far in Hy; lra | exact I].
      * destruct Hgaps as [Hyz Hrest].
        specialize (IH Hrest Hl). simpl insert in *.
        destruct (v <=? z) eqn:E2; qfacts.
        -- split; [unfold far in Hy; lra | exact IH].
        -- split; [exact Hyz | exact IH].
Qed.

Lemma separated_far (l : list Q) (x : Q) :
  Forall (far radius x) l -> Forall (far radius x) (sort l).
Proof.
  intro H. rewrite Forall_forall in *. intros y Hy.
  apply H. apply sort_in. exact Hy.
Qed.

Lemma sort_gaps (l : list Q) : separated l -> gaps_ge radius (sort l).
Proof.
  induction l as [| x l IH]; intro Hsep.
  - exact I.
  - destruct Hsep as [Hx Hl]. simpl sort.
    apply insert_gaps.
    + reflexivity.
    + apply IH. exact Hl.
    + apply separated_far. exact Hx.
Qed.

(** In a list with positive gaps the head is the least element and the
    last element the greatest. *)
Lemma gaps_head_least (g x : Q) (l : list Q) :
  0 < g -> gaps_ge g (x :: l) -> Forall (fun y => x < y) l.
Proof.
  intro Hg. revert x. induction l as [| y l IH]; intros x Hgaps.
  - constructor.
  - destruct Hgaps as [Hxy Hrest]. constructor; [lra |].
    specialize (IH y Hrest). rewrite Forall_forall in *.
    intros z Hz. specialize (IH z Hz). lra.
Qed.

Lemma gaps_last_greatest (g d : Q) (l : list Q) :
  0 < g -> gaps_ge g l -> forall x, In x l -> x <= last l d.
Proof.
  intro Hg. induction l as [| y l IH]; intros Hgaps x Hx.
  - destruct Hx.
  - destruct l as [| z l].
    + destruct Hx as [<- | []]. simpl. lra.
    + destruct Hgaps as [Hyz Hrest].
      change (last (y :: z :: l) d) with (last (z :: l) d).
      destruct Hx as [<- | Hx].
      * specialize (IH Hrest z (or_introl eq_refl)). lra.
      * apply IH; assumption.
Qed.

Lemma last_in (d : Q) (l : list Q) : l <> [] -> In (last l d) l.
Proof.
  induction l as [| y l IH]; intro Hne.
  - congruence.
  - destruct l as [| z l].
    + left. reflexivity.
    + right. apply IH. discriminate.
Qed.

(** The sorted spline: it starts at [0], ends at [1] and its adjacent
    samples are at least [radius] apart. *)
Lemma sorted_spline (darts : list Q) :
  separated (0 :: 1 :: darts) ->
  Forall (fun p => radius <= p /\ p < 1 - radius) darts ->
  let spline := sort (0 :: 1 :: darts) in
  hd_error spline = Some 0 /\ last spline 0 = 1 /\ gaps_ge radius spline
  /\ length spline = S (S (length darts)).
Proof.
  intros Hsep Hd spline. assert (R := radius_value).
  assert (Hgaps : gaps_ge radius spline) by (apply sort_gaps; exact Hsep).
  assert (Hmem : forall x, In x spline -> x = 0 \/ x = 1 \/ In x darts).
  { intros x Hx. apply (proj1 (sort_in _ _)) in Hx. simpl in Hx.
    destruct Hx as [<- | [<- | Hx]]; auto. }
  assert (H0 : In 0 spline) by (apply sort_in; simpl; auto).
  assert (H1 : In 1 spline) by (apply sort_in; simpl; auto).
  rewrite Forall_forall in Hd.
  split; [| split; [| split]].
  - destruct spline as [| x l] eqn:Es; [destruct H0 |].
    assert (Hleast := gaps_head_least radius x l ltac:(lra) Hgaps).
    rewrite Forall_forall in Hleast.
    destruct (Hmem x (or_introl eq_refl)) as [-> | [-> | Hx]].
    + reflexivity.
    + destruct H0 as [H0 | H0]; [discriminate H0 |].
      specialize (Hleast 0 H0). lra.
    + specialize (Hd x Hx). destruct H0 as [H0 | H0].
      * rewrite H0 in Hd. lra.
      * specialize (Hleast 0 H0). lra.
  - assert (Hne : spline <> []) by (intro E; rewrite E in H0; destruct H0).
    assert (Hin := last_in 0 spline Hne).
    assert (Hmax := gaps_last_greatest radius 0 spline ltac:(lra) Hgaps 1 H1).
    destruct (Hmem _ Hin) as [E | [E | Hx]].
    + rewrite E in Hmax. lra.
    + exact E.
    + specialize (Hd _ Hx). lra.
  - exact Hgaps.
  - unfold spline. rewrite sort_length. reflexivity.
Qed.

(** The sampler returns, whatever the draws of [[0, 1)], and its result
    starts at [0], ends at [1] and has gaps of at least [radius]. *)
Lemma createPoisson_returns (fuel : nat) (h : Host) (k : Calls) :
  (9 <= fuel)%nat -> draws_in_unit h ->
  exists spline k',
    createPoisson fuel h k = (Some spline, k')
    /\ hd_error spline = Some 0
    /\ last spline 0 = 1
    /\ gaps_ge radius spline.
Proof.
  intros Hfuel Hrand. assert (R := radius_value).
  destruct (createPoisson_while_ends h fuel Hrand [(radius, 1 - radius)]
              (1 - radius2) [] k sampling_start)
    as (darts & k' & Hrun & Hsep & Hd).
  - simpl. unfold radius2. ring.
  - simpl. assert (9 <= inject_Z (Z.of_nat fuel)).
    { change 9 with (inject_Z 9). rewrite <- Zle_Qle. lia. }
    nra.
  - destruct (sorted_spline darts Hsep Hd) as (A & B & C & _).
    exists (sort (0 :: 1 :: darts)), k'.
    unfold createPoisson, bind. simpl flat in Hrun. rewrite Hrun.
    simpl. repeat split; assumption.
Qed.

Lemma gaps_ge_weaken (g g' : Q) (l : list Q) :
  g' <= g -> gaps_ge g l -> gaps_ge g' l.
Proof.
  intro Hg. induction l as [| x l IH]; intro H.
  - exact I.
  - destruct l as [| y l]; [exact I |].
    destruct H as [Hxy Hrest]. split; [lra | exact (IH Hrest)].
Qed.

(** C1, amended: for draws of [[0, 1)] the sampler (eccentricity 10,
    radius [1/10]) returns a sequence sorted ascending that starts at
    [0], ends at [1], and whose adjacent samples differ by at least
    [radius = 0.1] up to the rounding of the doubles: by at least
    [radius - slack]. *)
Theorem createPoisson_spacing (fuel : nat) (h : Host) (k : Calls) :
  (9 <= fuel)%nat -> draws_in_unit h ->
  exists spline k',
    createPoisson fuel h k = (Some spline, k')
    /\ hd_error spline = Some 0
    /\ last spline 0 = 1
    /\ gaps_ge (radius - slack) spline
    /\ radius == 0.1.
Proof.
  intros Hfuel Hrand.
  destruct (createPoisson_returns fuel h k Hfuel Hrand)
    as (spline & k' & Hrun & Hhd & Hlast & Hgaps).
  exists spline, k'. repeat split; try assumption.
  apply (gaps_ge_weaken radius); [| exact Hgaps].
  assert (Hs := slack_pos). lra.
Qed.

End Sampler.

(** ** createPoisson in doubles *)

Section SamplerInDoubles.

Import Stdlib.Floats.PrimFloat.
Import Background.

(** C1, as stated, fails: when every draw is [0] the sampler returns
    eleven samples, the first two [0] and [0.1]: they are [0.1] apart,
    less than [2 * radius = 0.2]. *)
Lemma createPoisson_gap_is_radius :
  exists spline,
    fst (Binary64.createPoisson 9 (fun _ => 0%float)) = Some spline
    /\ spline
       = [0; 0.1; 0.2; 0.30000000000000004; 0.4; 0.5; 0.6; 0.7;
          0.7999999999999999; 0.8999999999999999; 1]%float
    /\ ~ gaps_ge radius2 (map Binary64.to_Q spline).
Proof.
  eexists. split; [vm_compute; reflexivity |]. split.
  - reflexivity.
  - intros [H _]. vm_compute in H. apply H. reflexivity.
Qed.

(** The gaps of a spline of doubles, as exact rationals. *)
Ltac gaps_by_evaluation :=
  cbn [map gaps_ge]; repeat split; vm_compute; discriminate.

(** The runs at the ends and in the middle of the range of the draws:
    the samples start at [0], end at [1] and keep gaps of [radius] up
    to rounding; with the draws [0] the gap from [0.7] to
    [0.7999999999999999] is below [radius]. *)
Example createPoisson_in_doubles :
  (let spline :=
     [0; 0.1; 0.2; 0.30000000000000004; 0.4; 0.5; 0.6; 0.7;
      0.7999999999999999; 0.8999999999999999; 1]%float in
   Binary64.createPoisson 9 (fun _ => 0%float) = (Some spline, 9%nat)
   /\ gaps_ge (radius - slack) (map Binary64.to_Q spline)
   /\ ~ gaps_ge radius (map Binary64.to_Q spline))
  /\ (let spline :=
        [0; 0.10625000000000007; 0.21250000000000013; 0.3500000000000001;
         0.5; 0.6; 0.7249999999999999; 0.85625; 1]%float in
      Binary64.createPoisson 9 (fun _ => 0.5%float) = (Some spline, 7%nat)
      /\ gaps_ge (radius - slack) (map Binary64.to_Q spline))
  /\ (let spline :=
        [0; 0.1999999999999998; 0.2999999999999998; 0.3999999999999998;
         0.4999999999999998; 0.5999999999999998; 0.6999999999999997;
         0.7999999999999998; 0.8999999999999999; 1]%float in
      Binary64.createPoisson 9 (fun _ => Binary64.top) = (Some spline, 8%nat)
      /\ gaps_ge (radius - slack) (map Binary64.to_Q spline)).
Proof.
  split; [| split]; cbv zeta.
  - split; [vm_compute; reflexivity |]. split; [gaps_by_evaluation |].
    cbn [map gaps_ge]. intro H.
    destruct H as (_ & _ & _ & _ & _ & _ & _ & H & _).
    vm_compute in H. apply H. reflexivity.
  - split; [vm_compute; reflexivity | gaps_by_evaluation].
  - split; [vm_compute; reflexivity | gaps_by_evaluation].
Qed.

End SamplerInDoubles.

(** ** Confetto: the spline arrays and the bracket search *)

Section Confetto.

Import Background.

Lemma Qtrunc_nonneg (q : Q) : 0 <= q -> Qtrunc q = Qfloor q.
Proof.
  intro H. unfold Qtrunc. destruct (q <? 0) eqn:E; qfacts; [lra | reflexivity].
Qed.

(** For a non-negative [frame] the phase is in [[0, 1)]. *)
Lemma phase_unit (f : Q) : 0 <= f -> 0 <= phase f /\ phase f < 1.
Proof.
  intro Hf. unfold phase, js_rem.
  assert (Hq : 0 <= f / 7777) by (apply Qle_shift_div_l; [reflexivity | lra]).
  rewrite (Qtrunc_nonneg _ Hq).
  assert (Hlo := Qfloor_le (f / 7777)).
  assert (Hhi := Qlt_floor (f / 7777)).
  rewrite inject_Z_plus in Hhi. change (inject_Z 1) with 1 in Hhi.
  set (n := inject_Z (Qfloor (f / 7777))) in *.
  assert (E : f / 7777 == f * (1 # 7777)) by field.
  rewrite E in Hlo, Hhi.
  assert (E2 : (f - 7777 * n) / 7777 == f * (1 # 7777) - n) by field.
  rewrite E2. lra.
Qed.

(** The bracket search stops inside the array as soon as some element
    from index [j] on is above [phi]. *)
Lemma bracket_while_bounds (phi : Q) (X : list Q) :
  forall (rest : list Q) (i j : nat),
  rest = skipn j X ->
  (exists z, In z rest /\ phi < z) ->
  nth i X 0 <= phi -> j = S i ->
  let (i', j') := bracket_while phi rest i j in
  j' = S i' /\ (j' < length X)%nat
  /\ nth i' X 0 <= phi /\ phi < nth j' X 0.
Proof.
  induction rest as [| xj rest IH]; intros i j Hrest (z & Hz & Hphi) Hi Hj.
  - destruct Hz.
  - assert (Hlen : (j < length X)%nat).
    { destruct (Nat.lt_ge_cases j (length X)) as [H | H]; [exact H |].
      rewrite skipn_all2 in Hrest by exact H. discriminate. }
    assert (Hnth : nth j X 0 = xj).
    { rewrite <- (firstn_skipn j X) at 1. rewrite <- Hrest.
      rewrite app_nth2; rewrite length_firstn, Nat.min_l by lia; [| lia].
      rewrite Nat.sub_diag. reflexivity. }
    assert (Hnext : rest = skipn (S j) X).
    { rewrite <- (firstn_skipn j X) at 1. rewrite <- Hrest.
      replace (S j) with (length (firstn j X) + 1)%nat
        by (rewrite length_firstn, Nat.min_l by lia; lia).
      rewrite skipn_app, skipn_all2 by lia.
      replace (length (firstn j X) + 1 - length (firstn j X))%nat
        with 1%nat by lia.
      reflexivity. }
    simpl. destruct (phi >=? xj) eqn:E; qfacts.
    + apply IH.
      * exact Hnext.
      * exists z. split; [| exact Hphi].
        destruct Hz as [Hz | Hz]; [| exact Hz]. subst z. lra.
      * rewrite Hnth. exact E.
      * reflexivity.
    + repeat split; try assumption. rewrite Hnth. exact E.
Qed.

Lemma bracket_bounds (phi : Q) (X : list Q) :
  hd_error X = Some 0 -> last X 0 = 1 -> 0 <= phi -> phi < 1 ->
  let (i, j) := bracket phi X in
  j = S i /\ (j < length X)%nat /\ nth i X 0 <= phi /\ phi < nth j X 0.
Proof.
  intros Hhd Hlast H0 H1. unfold bracket.
  destruct X as [| x0 X]; [discriminate |].
  simpl in Hhd. injection Hhd as ->.
  apply bracket_while_bounds.
  - reflexivity.
  - exists 1. split; [| exact H1]. simpl skipn.
    destruct X as [| x1 X].
    + simpl in Hlast. discriminate Hlast.
    + change (last (0 :: x1 :: X) 0) with (last (x1 :: X) 0) in Hlast.
      rewrite <- Hlast. apply last_in. discriminate.
  - simpl. exact H0.
  - reflexivity.
Qed.

(** *** The array [splineY] *)

Lemma array_set_append (vs : list Q) (v : Q) :
  array_set (None :: map Some vs) (Z.of_nat (S (length vs))) v
  = None :: map Some (vs ++ [v]).
Proof.
  unfold array_set.
  destruct (Z.of_nat (S (length vs))) eqn:Ez; try lia.
  rewrite <- Ez. rewrite Nat2Z.id. simpl length. rewrite length_map.
  rewrite Nat.ltb_irrefl. rewrite Nat.sub_diag. simpl.
  rewrite map_app. reflexivity.
Qed.

Lemma splineY_for_fills (h : Host) (n : nat) :
  forall (vs : list Q) (k : Calls),
  exists vs' k',
    splineY_for n (Z.of_nat (S (length vs))) (None :: map Some vs) h k
    = (None :: map Some (vs ++ vs'), k')
    /\ length vs' = n.
Proof.
  induction n as [| n IH]; intros vs k.
  - exists [], k. rewrite app_nil_r. split; reflexivity.
  - cbn [splineY_for]. unfold bind at 1, random at 1.
    rewrite array_set_append.
    replace (Z.of_nat (S (length vs)) + 1)%Z
      with (Z.of_nat (S (length (vs ++ [deviation * Math_random h (randoms k)]))))
      by (rewrite length_app; simpl; lia).
    destruct (IH (vs ++ [deviation * Math_random h (randoms k)])
                 {| randoms := S (randoms k); clocks := clocks k |})
      as (vs' & k' & Hrun & Hlen).
    exists (deviation * Math_random h (randoms k) :: vs'), k'.
    rewrite Hrun. rewrite <- app_assoc. split; [reflexivity |].
    simpl. rewrite Hlen. reflexivity.
Qed.

(** For a spline of at least two samples [splineY] gets one defined
    entry per sample. *)
Lemma new_splineY_full (h : Host) (X : list Q) (k : Calls) :
  (2 <= length X)%nat ->
  exists vs k',
    new_splineY X h k = (map Some vs, k') /\ length vs = length X.
Proof.
  intro Hlen. unfold new_splineY.
  destruct X as [| x0 [| x1 X]]; simpl in Hlen; try lia.
  replace (Z.to_nat (Z.of_nat (length (x0 :: x1 :: X)) - 1 - 1))
    with (length X) by (simpl length; lia).
  replace (Z.of_nat (length (x0 :: x1 :: X)) - 1)%Z
    with (Z.of_nat (S (length X))) by (simpl length; lia).
  destruct (length X) as [| n] eqn:En.
  - unfold bind, random, ret. simpl.
    eexists [_; _], _. split; [reflexivity | simpl; rewrite En; reflexivity].
  - cbn [splineY_for]. unfold bind at 1. unfold bind at 1, random at 1.
    change (array_set [] 1 (deviation * Math_random h (randoms k)))
      with (None :: map Some [deviation * Math_random h (randoms k)]).
    change (1 + 1)%Z
      with (Z.of_nat (S (length [deviation * Math_random h (randoms k)]))).
    destruct (splineY_for_fills h n
                [deviation * Math_random h (randoms k)]
                {| randoms := S (randoms k); clocks := clocks k |})
      as (vs' & k' & Hrun & Hn).
    rewrite Hrun. unfold bind, random, ret.
    set (vs := [deviation * Math_random h (randoms k)] ++ vs') in *.
    set (v := deviation * Math_random h (randoms k')).
    assert (Hvs : length vs = S n) by (unfold vs; simpl; lia).
    rewrite <- Hvs. rewrite array_set_append.
    exists (v :: vs ++ [v]), {| randoms := S (randoms k'); clocks := clocks k' |}.
    split; [reflexivity |].
    simpl length. rewrite length_app. simpl length. lia.
Qed.

Lemma spline_two_samples (l : list Q) :
  hd_error l = Some 0 -> last l 0 = 1 -> (2 <= length l)%nat.
Proof.
  intros Hhd Hlast. destruct l as [| x0 [| x1 l]]; simpl in *.
  - discriminate.
  - injection Hhd as ->. discriminate Hlast.
  - lia.
Qed.

(** [update] leaves the two spline arrays alone. *)
Lemma update_spline (height delta : Q) (c : Confetto) :
  splineX (fst (update height delta c)) = splineX c
  /\ splineY (fst (update height delta c)) = splineY c
  /\ frame (fst (update height delta c)) = frame c + delta.
Proof. repeat split. Qed.

(** The constructor returns a particle whose [splineX] is a result of
    [createPoisson] and whose [splineY] has a defined entry for each
    sample. *)
Lemma new_Confetto_splines (fuel : nat) (h : Host) (k : Calls) :
  (9 <= fuel)%nat -> draws_in_unit h ->
  exists c k',
    new_Confetto fuel h k = (Some c, k')
    /\ frame c = 0
    /\ hd_error (splineX c) = Some 0
    /\ last (splineX c) 0 = 1
    /\ gaps_ge radius (splineX c)
    /\ (exists vs, splineY c = map Some vs)
    /\ length (splineY c) = length (splineX c).
Proof.
  intros Hfuel Hrand. unfold new_Confetto, theme0.
  unfold bind, random, host, ret. cbv beta iota.
  match goal with
  | |- context [createPoisson fuel h ?k0] =>
      destruct (createPoisson_returns fuel h k0 Hfuel Hrand)
        as (X & k1 & Hrun & Hhd & Hlast & Hgaps)
  end.
  rewrite Hrun.
  destruct (new_splineY_full h X k1 (spline_two_samples X Hhd Hlast))
    as (vs & k2 & HY & Hlen).
  rewrite HY.
  eexists _, _. split; [reflexivity |]. simpl.
  repeat split; try assumption.
  - exists vs. reflexivity.
  - rewrite length_map. exact Hlen.
Qed.

(** C9: for every particle the constructor returns, [splineY] has the
    length of [splineX], and in every later [update] call that leaves
    [frame >= 0] the index [phi = (frame mod 7777) / 7777] is within
    [[splineX[0], splineX[last]] = [0, 1]], so that the bracket search
    ends with [i < j] inside the arrays and
    [splineX[i] <= phi < splineX[j]]. *)
Theorem bracket_search_in_bounds (fuel : nat) (h : Host) (k : Calls) :
  (9 <= fuel)%nat -> draws_in_unit h ->
  exists c k',
    new_Confetto fuel h k = (Some c, k')
    /\ length (splineY c) = length (splineX c)
    /\ hd_error (splineX c) = Some 0
    /\ last (splineX c) 0 = 1
    /\ forall (c1 : Confetto) (height delta : Q),
         splineX c1 = splineX c -> splineY c1 = splineY c ->
         0 <= frame c1 + delta ->
         let c2 := fst (update height delta c1) in
         let phi := phase (frame c2) in
         let (i, j) := bracket phi (splineX c2) in
         splineX c2 = splineX c /\ splineY c2 = splineY c
         /\ 0 <= phi /\ phi < 1
         /\ (i < j)%nat /\ (j < length (splineX c2))%nat
         /\ (j < length (splineY c2))%nat
         /\ nth i (splineX c2) 0 <= phi /\ phi < nth j (splineX c2) 0.
Proof.
  intros Hfuel Hrand.
  destruct (new_Confetto_splines fuel h k Hfuel Hrand)
    as (c & k' & Hrun & _ & Hhd & Hlast & _ & _ & Hlen).
  exists c, k'. repeat split; try assumption.
  intros c1 height delta HX HY Hframe c2 phi.
  destruct (update_spline height delta c1) as (EX & EY & EF).
  fold c2 in EX, EY, EF.
  assert (Hphi : 0 <= phi /\ phi < 1).
  { unfold phi. rewrite EF. apply phase_unit. exact Hframe. }
  assert (Hb := bracket_bounds phi (splineX c2)).
  rewrite EX, HX in Hb. specialize (Hb Hhd Hlast (proj1 Hphi) (proj2 Hphi)).
  rewrite EX, EY, HX, HY.
  destruct (bracket phi (splineX c)) as [i j].
  destruct Hb as (Hj & Hjlen & Hi & Hjphi).
  repeat split; try tauto; try lia.
Qed.

End Confetto.

(** ** The rendered offset *)

Section RenderedOffset.

Import Stdlib.Reals.Reals Stdlib.Reals.Qreals.
Import Background Render.
Local Open Scope Q_scope.

Lemma nth_error_defined (vs : list Q) (i : nat) :
  (i < length vs)%nat ->
  nth_error (map Some vs) i = Some (Some (nth i vs 0)).
Proof.
  intro Hi. rewrite nth_error_map.
  rewrite (nth_error_nth' vs 0 Hi). reflexivity.
Qed.

(** With the arrays the constructor builds, [update] finds both spline
    values and the offset [rho] lies between them. *)
Lemma rho_between (c : Confetto) (vs : list Q) :
  hd_error (splineX c) = Some 0 -> last (splineX c) 0 = 1 ->
  splineY c = map Some vs -> length vs = length (splineX c) ->
  0 <= frame c ->
  exists i j r,
    bracket (phase (frame c)) (splineX c) = (i, j)
    /\ rho c = Some r
    /\ (Rmin (Q2R (nth i vs 0%Q)) (Q2R (nth j vs 0%Q)) <= r
        <= Rmax (Q2R (nth i vs 0%Q)) (Q2R (nth j vs 0%Q)))%R.
Proof.
  intros Hhd Hlast HY Hlen Hframe.
  destruct (phase_unit (frame c) Hframe) as [H0 H1].
  assert (Hb := bracket_bounds (phase (frame c)) (splineX c) Hhd Hlast H0 H1).
  unfold rho.
  destruct (bracket (phase (frame c)) (splineX c)) as [i j].
  destruct Hb as (Hj & Hjlen & _).
  rewrite HY.
  rewrite (nth_error_defined vs i) by lia.
  rewrite (nth_error_defined vs j) by lia.
  eexists i, j, _. split; [reflexivity | split; [reflexivity |]].
  apply interpolation_convex.
Qed.

End RenderedOffset.

(** ** Sample runs *)

Section Samples.

Import Background Poof.

Lemma half_host_draws : draws_in_unit half_host.
Proof. intro n. simpl. lra. Defined.

Example three_spawned_run :
  length (confetti three_spawned) = 3%nat
  /\ map (fun k => length (confetti
            (run (frame_events (firstn k eight_frames) 1%Z) three_spawned)))
         [1; 4; 5; 7; 8]%nat
     = [3; 2; 1; 0; 0]%nat.
Proof. vm_compute. split; reflexivity. Qed.

Lemma createPoisson_spacing_witness :
  exists spline k',
    createPoisson 9 half_host (mkCalls 0 0) = (Some spline, k')
    /\ hd_error spline = Some 0
    /\ last spline 0 = 1
    /\ gaps_ge (radius - slack) spline
    /\ radius == 0.1.
Proof.
  apply (createPoisson_spacing 9 half_host (mkCalls 0 0)).
  - lia.
  - exact half_host_draws.
Defined.

Lemma bracket_search_in_bounds_witness :
  exists c k',
    new_Confetto 9 half_host (mkCalls 0 0) = (Some c, k')
    /\ length (splineY c) = length (splineX c)
    /\ hd_error (splineX c) = Some 0
    /\ last (splineX c) 0 = 1
    /\ forall (c1 : Confetto) (height delta : Q),
         splineX c1 = splineX c -> splineY c1 = splineY c ->
         0 <= Background.frame c1 + delta ->
         let c2 := fst (update height delta c1) in
         let phi := phase (Background.frame c2) in
         let (i, j) := bracket phi (splineX c2) in
         splineX c2 = splineX c /\ splineY c2 = splineY c
         /\ 0 <= phi /\ phi < 1
         /\ (i < j)%nat /\ (j < length (splineX c2))%nat
         /\ (j < length (splineY c2))%nat
         /\ nth i (splineX c2) 0 <= phi /\ phi < nth j (splineX c2) 0.
Proof.
  apply (bracket_search_in_bounds 9 half_host (mkCalls 0 0)).
  - lia.
  - exact half_host_draws.
Defined.

Lemma dom_loop_terminates_witness :
  exists n, (n <= length eight_frames)%nat
    /\ stopped (run (frame_events (firstn n eight_frames) 1%Z) three_spawned)
    /\ run (frame_events eight_frames 1%Z) three_spawned
       = run (frame_events (firstn n eight_frames) 1%Z) three_spawned.
Proof.
  apply (proj2 dom_loop_terminates eight_frames 1%Z three_spawned).
  - reflexivity.
  - reflexivity.
  - reflexivity.
  - discriminate.
  - intros c Hc. unfold three_spawned in Hc. cbn [confetti addConfetto poof
      initial truthy_handle Poof.frame negb app In] in Hc.
    destruct Hc as [<- | [<- | [<- | []]]]; vm_compute; reflexivity.
Defined.

Lemma unmocked_loop_never_stops_witness :
  let s := run [Spawn (sample_confetto 0.2) (Some 2%Z);
                Frame 1000 500 1%Z;
                Spawn (sample_confetto 0.3) (Some 3%Z);
                Frame 9000 500 2%Z;
                Frame 17000 500 3%Z]
               (poof (sample_confetto 0.13) (Some 1%Z) initial) in
  truthy_handle (timer s) = true
  /\ attached s = true
  /\ scheduled s = true
  /\ forall timestamp height raf,
       let s' := loop timestamp height raf s in
       scheduled s' = true /\ attached s' = true
       /\ Poof.frame s' = Some raf.
Proof.
  apply (proj2 (proj2 unmocked_loop_never_stops)
           (sample_confetto 0.13) 1%Z).
  - lia.
  - repeat constructor.
Defined.

Example unmocked_run_is_empty_but_live :
  let s := run [Spawn (sample_confetto 0.2) (Some 2%Z);
                Frame 1000 500 1%Z;
                Spawn (sample_confetto 0.3) (Some 3%Z);
                Frame 9000 500 2%Z;
                Frame 17000 500 3%Z]
               (poof (sample_confetto 0.13) (Some 1%Z) initial) in
  confetti s = [] /\ attached s = true /\ scheduled s = true.
Proof. vm_compute. repeat split. Qed.

End Samples.

(** * Further properties *)

(** ** Utils *)

Section UtilsMore.

(** [min] is a multiple of [10 ^ -precision]. *)
Lemma getRandomInRange_at_range (min max : Q) (precision : Z) (u : Q) :
  min < max -> 0 <= u -> u < 1 ->
  inject_Z (Qfloor (min * 10 ^ precision)) == min * 10 ^ precision ->
  min <= Utils.getRandomInRange_at min max precision u
  /\ Utils.getRandomInRange_at min max precision u < max.
Proof.
  intros Hmm Hu0 Hu1 Hal. assert (Hm := pow10_pos precision).
  unfold Utils.getRandomInRange_at. cbv zeta.
  set (v := u * (max - min) + min).
  assert (Hv : min <= v /\ v < max) by (unfold v; split; nra).
  split.
  - apply floor_div_ge_aligned; [exact Hm | tauto | exact Hal].
  - assert (H := floor_div_le v (10 ^ precision) Hm). lra.
Qed.



Lemma floor_index (u : Q) (n : nat) :
  0 <= u -> u < 1 -> (0 < n)%nat ->
  (0 <= Qfloor (u * inject_Z (Z.of_nat n)) < Z.of_nat n)%Z.
Proof.
  intros Hu0 Hu1 Hn.
  assert (Hpos : 0 < inject_Z (Z.of_nat n)).
  { change 0 with (inject_Z 0). rewrite <- Zlt_Qlt. lia. }
  split.
  - change 0%Z with (Qfloor 0). apply Qfloor_resp_le. nra.
  - assert (H := Qfloor_le (u * inject_Z (Z.of_nat n))).
    rewrite Zlt_Qlt. nra.
Qed.

Lemma getRandomItem_at_in {A : Type} (array : list A) (u : Q) :
  0 <= u -> u < 1 -> array <> [] ->
  exists i item,
    (i < length array)%nat /\ nth_error array i = Some item
    /\ Utils.getRandomItem_at array u = Some item /\ In item array.
Proof.
  intros Hu0 Hu1 Hne.
  assert (Hn : (0 < length array)%nat)
    by (destruct array; [congruence | simpl; lia]).
  destruct (floor_index u (length array) Hu0 Hu1 Hn) as [Hlo Hhi].
  unfold Utils.getRandomItem_at.
  set (z := Qfloor (u * inject_Z (Z.of_nat (length array)))) in *.
  assert (Hi : (Z.to_nat z < length array)%nat) by lia.
  destruct (nth_error array (Z.to_nat z)) as [item |] eqn:E.
  - exists (Z.to_nat z), item. repeat split; try assumption.
    + destruct z; try lia; exact E.
    + eapply nth_error_In. exact E.
  - apply nth_error_None in E. lia.
Qed.

(** X2: [getRandomItem]: on a non-empty array and a draw of [[0, 1)] the
    index [floor (u * length)] is in range and the result is an element
    of the array; on the empty array the result is [undefined]. *)
Theorem getRandomItem_picks_element {A : Type} (array : list A) (u : Q) :
  0 <= u -> u < 1 ->
  (array <> [] ->
   exists i item,
     (i < length array)%nat /\ nth_error array i = Some item
     /\ Utils.getRandomItem_at array u = Some item /\ In item array)
  /\ (array = [] -> Utils.getRandomItem_at array u = None).
Proof.
  intros Hu0 Hu1. split.
  - apply getRandomItem_at_in; assumption.
  - intros ->. unfold Utils.getRandomItem_at.
    destruct (Qfloor _) as [| q | q]; try reflexivity.
    destruct (Z.to_nat (Z.pos q)); reflexivity.
Qed.

Lemma getRandomItem_picks_element_witness :
  (Canvas.defaultColors <> [] ->
   exists i item,
     (i < length Canvas.defaultColors)%nat
     /\ nth_error Canvas.defaultColors i = Some item
     /\ Utils.getRandomItem_at Canvas.defaultColors 0.99 = Some item
     /\ In item Canvas.defaultColors)
  /\ (Canvas.defaultColors = [] ->
      Utils.getRandomItem_at Canvas.defaultColors 0.99 = None).
Proof.
  apply (getRandomItem_picks_element Canvas.defaultColors 0.99).
  - lra.
  - lra.
Defined.

End UtilsMore.

(** ** The constructor of Confetti *)

Section ConfettiConstructor.

Import Canvas.

Ltac unfold_constructor :=
  unfold new_Confetti, Utils.getRandomInRange, Utils.getRandomItem,
    Utils.getScaleFactor;
  unfold bind, random, host, now, ret; cbv beta iota.

(** The fields of a new particle, in terms of the draws of the run. *)
Lemma new_Confetti_fields (a : ConfettiArgs) (h : Host) (k : Calls) :
  let p := fst (new_Confetti a h k) in
  (exists n, finalSpeedX p
             = Utils.getRandomInRange_at 0.2 0.6 3 (Math_random h n))
  /\ (exists n, dragCoefficient p
                = Utils.getRandomInRange_at 0.0005 0.0009 6 (Math_random h n))
  /\ (exists n,
        rotationAngle p
        = if is_left (arg_direction a)
          then Utils.getRandomInRange_at 0 0.2 3 (Math_random h n)
          else Utils.getRandomInRange_at (-0.2) 0 3 (Math_random h n))
  /\ (exists n,
        position p
        = mkVec (x (arg_initialPosition a)
                 + (if is_left (arg_direction a)
                    then - Utils.getRandomInRange_at (-150) 0 0 (Math_random h n)
                    else Utils.getRandomInRange_at (-150) 0 0 (Math_random h n))
                   * absCos p)
                (y (arg_initialPosition a)
                 - Utils.getRandomInRange_at (-150) 0 0 (Math_random h n)
                   * absSin p))
  /\ (exists angle, absCos p = Qabs (Math_cos h angle)
                    /\ absSin p = Qabs (Math_sin h angle))
  /\ initialPosition p = position p
  /\ radius p = mkVec (arg_radius a) (arg_radius a)
  /\ initialRadius p = arg_radius a
  /\ radiusYDirection p = down
  /\ svgIcon p = None
  /\ direction p = arg_direction a
  /\ x (speed p) = y (speed p).
Proof.
  unfold_constructor.
  destruct (emojis_or_icon a); destruct (is_left (arg_direction a));
    destruct (negb (length (arg_emojis a) =? 0)%nat);
    cbv beta iota; cbn [fst];
    repeat split; try (eexists; reflexivity);
    try (eexists; split; reflexivity).
Qed.


Lemma new_Confetti_modes (a : ConfettiArgs) (h : Host) (k : Calls) :
  let p := fst (new_Confetti a h k) in
  (exists n, color p
             = if emojis_or_icon a then None
               else Utils.getRandomItem_at (arg_colors a) (Math_random h n))
  /\ (exists n, emoji p
                = if negb (length (arg_emojis a) =? 0)%nat
                  then Utils.getRandomItem_at (arg_emojis a) (Math_random h n)
                  else None)
  /\ svgImage p
     = (if truthy_str (arg_svgIcon a) then arg_svgIcon a else None).
Proof.
  unfold_constructor.
  destruct (emojis_or_icon a); destruct (is_left (arg_direction a));
    destruct (negb (length (arg_emojis a) =? 0)%nat);
    cbv beta iota; cbn [fst];
    (split; [| split]);
    first [reflexivity | exists 0%nat; reflexivity | eexists; reflexivity].
Qed.

(** X3: every new particle, for draws of [[0, 1)]: the floor of the
    horizontal speed is in [[0.2, 0.6)], the drag in
    [[0.0005, 0.0009]] (the upper end is reached in doubles), the tilt
    in [[0, 0.2)] flying left and in [[-0.2, 0)] flying right; both
    radii are the given radius, the flutter starts downward, and no
    icon is usable yet. *)
Theorem new_Confetti_ranges (a : ConfettiArgs) (h : Host) (k : Calls) :
  draws_in_unit h ->
  let p := fst (new_Confetti a h k) in
  (0.2 <= finalSpeedX p /\ finalSpeedX p < 0.6)
  /\ (0.0005 <= dragCoefficient p /\ dragCoefficient p <= 0.0009)
  /\ (if is_left (direction p)
      then 0 <= rotationAngle p /\ rotationAngle p < 0.2
      else - 0.2 <= rotationAngle p /\ rotationAngle p < 0)
  /\ 0 <= absCos p /\ 0 <= absSin p
  /\ radius p = mkVec (arg_radius a) (arg_radius a)
  /\ initialRadius p = arg_radius a
  /\ radiusYDirection p = down
  /\ initialPosition p = position p
  /\ svgIcon p = None.
Proof.
  intros Hrand p.
  destruct (new_Confetti_fields a h k)
    as ((n1 & F1) & (n2 & F2) & (n3 & F3) & _ & (angle & F5 & F6) & F7 & F8
        & F9 & F10 & F11 & F12 & _).
  fold p in F1, F2, F3, F5, F6, F7, F8, F9, F10, F11, F12.
  split; [| split; [| split; [| split; [| split]]]].
  - rewrite F1. apply getRandomInRange_at_range;
      [reflexivity | apply Hrand | apply Hrand | reflexivity].
  - rewrite F2.
    destruct (getRandomInRange_at_range 0.0005 0.0009 6 (Math_random h n2))
      as [Hlo Hhi]; [reflexivity | apply Hrand | apply Hrand | reflexivity |].
    split; [exact Hlo | apply Qlt_le_weak; exact Hhi].
  - rewrite F12, F3. destruct (is_left (arg_direction a));
      apply getRandomInRange_at_range;
      try reflexivity; apply Hrand.
  - rewrite F5. apply Qabs_nonneg.
  - rewrite F6. apply Qabs_nonneg.
  - repeat split; assumption.
Qed.

Lemma new_Confetti_ranges_witness :
  let p := fst (new_Confetti (args_left (merge emptyConfig) 1920 700)
                             half_host (mkCalls 0 0)) in
  (0.2 <= finalSpeedX p /\ finalSpeedX p < 0.6)
  /\ (0.0005 <= dragCoefficient p /\ dragCoefficient p <= 0.0009)
  /\ (if is_left (direction p)
      then 0 <= rotationAngle p /\ rotationAngle p < 0.2
      else - 0.2 <= rotationAngle p /\ rotationAngle p < 0)
  /\ 0 <= absCos p /\ 0 <= absSin p
  /\ radius p = mkVec (arg_radius (args_left (merge emptyConfig) 1920 700))
                      (arg_radius (args_left (merge emptyConfig) 1920 700))
  /\ initialRadius p = arg_radius (args_left (merge emptyConfig) 1920 700)
  /\ radiusYDirection p = down
  /\ initialPosition p = position p
  /\ svgIcon p = None.
Proof.
  apply (new_Confetti_ranges (args_left (merge emptyConfig) 1920 700)
           half_host (mkCalls 0 0)).
  exact half_host_draws.
Defined.

(** X4: a new particle starts behind its edge point, along the launch
    direction: flying right it is at most [150 * absCos] to the left of
    the given point, flying left at most that far to its right, and in
    both cases at most [150 * absSin] below it. *)
Theorem new_Confetti_starts_behind (a : ConfettiArgs) (h : Host) (k : Calls) :
  draws_in_unit h ->
  let p := fst (new_Confetti a h k) in
  let x0 := x (arg_initialPosition a) in
  let y0 := y (arg_initialPosition a) in
  (if is_left (direction p)
   then x0 <= x (position p) /\ x (position p) <= x0 + 150 * absCos p
   else x0 - 150 * absCos p <= x (position p) /\ x (position p) <= x0)
  /\ y0 <= y (position p) /\ y (position p) <= y0 + 150 * absSin p.
Proof.
  intros Hrand p x0 y0.
  destruct (new_Confetti_fields a h k)
    as (_ & _ & _ & (n & F4) & (angle & F5 & F6) & _ & _ & _ & _ & _ & F11 & _).
  fold p in F4, F5, F6, F11.
  assert (Hc : 0 <= absCos p) by (rewrite F5; apply Qabs_nonneg).
  assert (Hs : 0 <= absSin p) by (rewrite F6; apply Qabs_nonneg).
  assert (Hoff : -150 <= Utils.getRandomInRange_at (-150) 0 0 (Math_random h n)
                 /\ Utils.getRandomInRange_at (-150) 0 0 (Math_random h n) < 0).
  { apply getRandomInRange_at_range;
      [reflexivity | apply Hrand | apply Hrand | reflexivity]. }
  set (offset := Utils.getRandomInRange_at (-150) 0 0 (Math_random h n)) in *.
  rewrite F11, F4. fold x0 y0.
  destruct (is_left (arg_direction a)); simpl; repeat split; nra.
Qed.

Lemma new_Confetti_starts_behind_witness :
  let a := args_right (merge emptyConfig) 700 in
  let p := fst (new_Confetti a half_host (mkCalls 0 0)) in
  let x0 := x (arg_initialPosition a) in
  let y0 := y (arg_initialPosition a) in
  (if is_left (direction p)
   then x0 <= x (position p) /\ x (position p) <= x0 + 150 * absCos p
   else x0 - 150 * absCos p <= x (position p) /\ x (position p) <= x0)
  /\ y0 <= y (position p) /\ y (position p) <= y0 + 150 * absSin p.
Proof.
  apply (new_Confetti_starts_behind (args_right (merge emptyConfig) 700)
           half_host (mkCalls 0 0)).
  exact half_host_draws.
Defined.

Lemma emojis_empty (a : ConfettiArgs) :
  negb (length (arg_emojis a) =? 0)%nat = false <-> arg_emojis a = [].
Proof.
  rewrite negb_false_iff, Nat.eqb_eq. destruct (arg_emojis a); simpl.
  - split; reflexivity.
  - split; discriminate.
Qed.

(** X5: the rendering mode of a new particle, for draws of [[0, 1)]: with
    emojis or an icon given it has no color; without emojis it has no
    emoji; a color, when set, is one of the given colors and an emoji
    one of the given emojis, so that a particle never has both. *)
Theorem new_Confetti_render_mode (a : ConfettiArgs) (h : Host) (k : Calls) :
  draws_in_unit h ->
  let p := fst (new_Confetti a h k) in
  (emojis_or_icon a = true -> color p = None)
  /\ (arg_emojis a = [] -> emoji p = None)
  /\ (emojis_or_icon a = false -> arg_colors a <> [] ->
      exists c, color p = Some c /\ In c (arg_colors a))
  /\ (arg_emojis a <> [] ->
      exists e, emoji p = Some e /\ In e (arg_emojis a))
  /\ (color p = None \/ emoji p = None).
Proof.
  intros Hrand p.
  destruct (new_Confetti_modes a h k) as ((n1 & M1) & (n2 & M2) & _).
  fold p in M1, M2.
  assert (Hboth : emojis_or_icon a = false -> arg_emojis a = []).
  { unfold emojis_or_icon. intro H. apply orb_false_iff in H.
    apply emojis_empty. tauto. }
  split; [| split; [| split; [| split]]].
  - intro H. rewrite M1, H. reflexivity.
  - intro H. rewrite M2. apply emojis_empty in H. rewrite H. reflexivity.
  - intros H Hne. rewrite M1, H.
    destruct (getRandomItem_at_in (arg_colors a) (Math_random h n1))
      as (i & c & _ & _ & E & Hin); try apply Hrand; try assumption.
    exists c. split; assumption.
  - intro Hne. rewrite M2.
    destruct (negb (length (arg_emojis a) =? 0)%nat) eqn:E.
    + destruct (getRandomItem_at_in (arg_emojis a) (Math_random h n2))
        as (i & e & _ & _ & Ee & Hin); try apply Hrand; try assumption.
      exists e. split; assumption.
    + apply emojis_empty in E. congruence.
  - destruct (emojis_or_icon a) eqn:E.
    + left. rewrite M1. reflexivity.
    + right. rewrite M2. specialize (Hboth eq_refl).
      apply emojis_empty in Hboth. rewrite Hboth. reflexivity.
Qed.

Lemma new_Confetti_render_mode_witness :
  let a := args_right (merge emptyConfig) 700 in
  let p := fst (new_Confetti a half_host (mkCalls 0 0)) in
  (emojis_or_icon a = true -> color p = None)
  /\ (arg_emojis a = [] -> emoji p = None)
  /\ (emojis_or_icon a = false -> arg_colors a <> [] ->
      exists c, color p = Some c /\ In c (arg_colors a))
  /\ (arg_emojis a <> [] ->
      exists e, emoji p = Some e /\ In e (arg_emojis a))
  /\ (color p = None \/ emoji p = None).
Proof.
  apply (new_Confetti_render_mode (args_right (merge emptyConfig) 700)
           half_host (mkCalls 0 0)).
  exact half_host_draws.
Defined.

End ConfettiConstructor.

(** ** Confetti.draw *)

Section Drawing.

Import Canvas CanvasDraw.

(** What [draw] reads and [updatePosition] leaves alone. *)
Lemma updatePosition_draw_constants (deltaTime currentTime : Q)
  (c : Confetti) :
  let c' := updatePosition deltaTime currentTime c in
  color c' = color c /\ emoji c' = emoji c /\ svgIcon c' = svgIcon c
  /\ svgImage c' = svgImage c
  /\ emojiRotationAngle c' = emojiRotationAngle c
  /\ x (radius c') = x (radius c).
Proof.
  unfold updatePosition.
  destruct (if negb (truthy_str (emoji c)) && negb (truthy_str (svgIcon c))
            then _ else _) as [ry rd].
  simpl. repeat split; reflexivity.
Qed.

Lemma updates_draw_constants (calls : list (Q * Q)) :
  forall c : Confetti,
  color (updates calls c) = color c /\ emoji (updates calls c) = emoji c
  /\ svgIcon (updates calls c) = svgIcon c
  /\ svgImage (updates calls c) = svgImage c
  /\ emojiRotationAngle (updates calls c) = emojiRotationAngle c
  /\ x (radius (updates calls c)) = x (radius c).
Proof.
  induction calls as [| [dt t] rest IH]; intro c; simpl.
  - repeat split.
  - destruct (IH (updatePosition dt t c)) as (A1 & A2 & A3 & A4 & A5 & A6).
    destruct (updatePosition_draw_constants dt t c)
      as (B1 & B2 & B3 & B4 & B5 & B6).
    cbv zeta in *. repeat split; congruence.
Qed.

(** With a usable icon the particle is not plain: its [radius.y] stays. *)
Lemma updatePosition_icon_radius (deltaTime currentTime : Q) (c : Confetti) :
  truthy_str (svgIcon c) = true ->
  y (radius (updatePosition deltaTime currentTime c)) = y (radius c).
Proof.
  intro Hi. unfold updatePosition. rewrite Hi.
  rewrite andb_false_r. reflexivity.
Qed.

Lemma updates_icon_radius (calls : list (Q * Q)) :
  forall c : Confetti,
  truthy_str (svgIcon c) = true ->
  y (radius (updates calls c)) = y (radius c).
Proof.
  induction calls as [| [dt t] rest IH]; intros c Hi; simpl.
  - reflexivity.
  - destruct (updatePosition_draw_constants dt t c) as (_ & _ & B3 & _).
    cbv zeta in B3.
    rewrite IH by (rewrite B3; exact Hi).
    apply updatePosition_icon_radius. exact Hi.
Qed.

(** X6: a particle built with an icon and no emojis draws nothing as
    long as the image has not loaded, whatever calls of [updatePosition]
    it gets; these treat it as a plain particle and change its
    [radius.y].  Once [onload] has run, and after any further calls, it
    draws the image at its current position scaled by the pixel ratio;
    the image is twice the given radius wide and twice as high as the
    [radius.y] that was reached when the image loaded, which no later
    call changes. *)
Theorem draw_icon_after_load (a : ConfettiArgs) (h : Host) (k : Calls)
  (icon : String.string) (scale pi : Q) (before after : list (Q * Q)) :
  arg_emojis a = [] -> arg_svgIcon a = Some icon ->
  truthy_str (Some icon) = true ->
  let p := updates before (fst (new_Confetti a h k)) in
  let q := updates after (svgImage_onload p) in
  draw scale pi p = NoDraw
  /\ y (radius q) = y (radius p)
  /\ draw scale pi q
     = DrawImage icon (scale * x (position q)) (scale * y (position q))
                 (emojiRotationAngle (fst (new_Confetti a h k)))
                 (- arg_radius a) (- y (radius p))
                 (arg_radius a * 2) (y (radius p) * 2).
Proof.
  intros Hemojis Hicon Htruthy p q.
  destruct (new_Confetti_modes a h k) as ((n1 & M1) & (n2 & M2) & M3).
  destruct (new_Confetti_fields a h k)
    as (_ & _ & _ & _ & _ & _ & F8 & _ & _ & F11 & _).
  cbv zeta in M1, M2, M3, F8, F11.
  assert (E1 : emojis_or_icon a = true).
  { unfold emojis_or_icon. rewrite Hicon, Htruthy. apply orb_true_r. }
  assert (E2 : negb (length (arg_emojis a) =? 0)%nat = false)
    by (rewrite Hemojis; reflexivity).
  rewrite E1 in M1. rewrite E2 in M2. rewrite Hicon, Htruthy in M3.
  destruct (updates_draw_constants before (fst (new_Confetti a h k)))
    as (P1 & P2 & P3 & P4 & P5 & P6).
  fold p in P1, P2, P3, P4, P5, P6.
  rewrite M1 in P1. rewrite M2 in P2. rewrite F11 in P3. rewrite M3 in P4.
  rewrite F8 in P6. cbn [x] in P6.
  destruct (updates_draw_constants after (svgImage_onload p))
    as (_ & _ & Q3 & _ & Q5 & Q6).
  fold q in Q3, Q5, Q6.
  cbn [svgImage_onload svgIcon emojiRotationAngle radius] in Q3, Q5, Q6.
  rewrite P4 in Q3. rewrite P5 in Q5. rewrite P6 in Q6.
  assert (Q7 : y (radius q) = y (radius p)).
  { unfold q. rewrite updates_icon_radius.
    - reflexivity.
    - cbn [svgImage_onload svgIcon]. rewrite P4. exact Htruthy. }
  split; [| split].
  - unfold draw. rewrite P3, P1, P2. reflexivity.
  - exact Q7.
  - unfold draw. rewrite Q3, Htruthy, Q5, Q6, Q7. reflexivity.
Qed.

Lemma draw_icon_after_load_witness :
  let a := mkArgs (mkVec 0 700) dir_right 5 defaultColors []
                  (Some "star.svg"%string) in
  let p := updates [(16, 16); (16, 32)]
             (fst (new_Confetti a half_host (mkCalls 0 0))) in
  let q := updates [(16, 48)] (svgImage_onload p) in
  draw 2 3 p = NoDraw
  /\ y (radius q) = y (radius p)
  /\ draw 2 3 q
     = DrawImage "star.svg"%string
                 (2 * x (position q)) (2 * y (position q))
                 (emojiRotationAngle
                    (fst (new_Confetti a half_host (mkCalls 0 0))))
                 (- arg_radius a) (- y (radius p))
                 (arg_radius a * 2) (y (radius p) * 2).
Proof.
  apply (draw_icon_after_load
           (mkArgs (mkVec 0 700) dir_right 5 defaultColors []
                   (Some "star.svg"%string))
           half_host (mkCalls 0 0) "star.svg"%string 2 3
           [(16, 16); (16, 32)] [(16, 48)]).
  - reflexivity.
  - reflexivity.
  - reflexivity.
Defined.

(** The flutter before the load shows in the drawing: built with the
    radius [5], the particle of the witness has a [radius.y] of about
    [4.688] when the image loads after two frames of 16 ms. *)
Example icon_is_drawn_squashed :
  let a := mkArgs (mkVec 0 700) dir_right 5 defaultColors []
                  (Some "star.svg"%string) in
  let p := updates [(16, 16); (16, 32)]
             (fst (new_Confetti a half_host (mkCalls 0 0))) in
  x (radius p) == 5 /\ 4.687 < y (radius p) /\ y (radius p) < 4.688.
Proof. vm_compute. repeat split. Qed.

End Drawing.

(** ** Confetti.updatePosition over a run of calls *)

Section UpdateRuns.

Import Canvas.


Lemma updatePosition_more_constants (deltaTime currentTime : Q)
  (c : Confetti) :
  let c' := updatePosition deltaTime currentTime c in
  finalSpeedX c' = finalSpeedX c /\ dragCoefficient c' = dragCoefficient c
  /\ emoji c' = emoji c /\ svgIcon c' = svgIcon c.
Proof.
  unfold updatePosition.
  destruct (if negb (truthy_str (emoji c)) && negb (truthy_str (svgIcon c))
            then _ else _) as [ry rd].
  simpl. repeat split; reflexivity.
Qed.



Lemma total_time_nonneg (calls : list (Q * Q)) :
  Forall (fun call => 0 <= fst call) calls -> 0 <= total_time calls.
Proof.
  induction 1 as [| [d0 t0] l H0 _ IHl]; simpl in *; lra.
Qed.






Lemma updatePosition_speed_x (deltaTime currentTime : Q) (c : Confetti) :
  x (speed (updatePosition deltaTime currentTime c))
  = if x (speed c) >? finalSpeedX c
    then x (speed c) - dragCoefficient c * deltaTime
    else x (speed c).
Proof.
  unfold updatePosition.
  destruct (if negb (truthy_str (emoji c)) && negb (truthy_str (svgIcon c))
            then _ else _) as [ry rd].
  reflexivity.
Qed.

Lemma updates_speed_x_inv (D top : Q) (calls : list (Q * Q)) :
  0 <= D ->
  Forall (fun call => 0 <= fst call /\ fst call <= D) calls ->
  forall c : Confetti,
  0 <= dragCoefficient c ->
  finalSpeedX c - dragCoefficient c * D <= x (speed c) ->
  x (speed c) <= top ->
  finalSpeedX c - dragCoefficient c * D <= x (speed (updates calls c))
  /\ x (speed (updates calls c)) <= top.
Proof.
  intros HD Hcalls.
  induction Hcalls as [| [dt t] rest [Hdt0 HdtD] _ IH];
    intros c Hdrag Hlo Hhi; simpl.
  - split; assumption.
  - simpl in Hdt0, HdtD.
    destruct (updatePosition_more_constants dt t c) as (B1 & B2 & _).
    cbv zeta in B1, B2. rewrite <- B1, <- B2.
    assert (Hsx := updatePosition_speed_x dt t c).
    apply IH.
    + rewrite B2. exact Hdrag.
    + rewrite B1, B2, Hsx.
      destruct (x (speed c) >? finalSpeedX c) eqn:E; qfacts; nra.
    + rewrite Hsx.
      destruct (x (speed c) >? finalSpeedX c) eqn:E; qfacts; nra.
Qed.

(** X8: the horizontal speed never grows, and the missing clamp costs at
    most one decrement: over calls with [0 <= deltaTime <= D], a speed
    that starts at or above [finalSpeedX] stays at or above
    [finalSpeedX - dragCoefficient * D]. *)
Theorem speed_x_undershoot_bounded (calls : list (Q * Q)) (c : Confetti)
  (D : Q) :
  0 <= dragCoefficient c -> 0 <= D ->
  Forall (fun call => 0 <= fst call /\ fst call <= D) calls ->
  finalSpeedX c <= x (speed c) ->
  finalSpeedX c - dragCoefficient c * D <= x (speed (updates calls c))
  /\ x (speed (updates calls c)) <= x (speed c).
Proof.
  intros Hdrag HD Hcalls Hstart.
  apply (updates_speed_x_inv D (x (speed c)) calls HD Hcalls c Hdrag).
  - nra.
  - lra.
Qed.

Lemma speed_x_undershoot_bounded_witness :
  finalSpeedX fresh_particle - dragCoefficient fresh_particle * 16
    <= x (speed (updates (frames16 3 1000) fresh_particle))
  /\ x (speed (updates (frames16 3 1000) fresh_particle))
     <= x (speed fresh_particle).
Proof.
  apply (speed_x_undershoot_bounded (frames16 3 1000) fresh_particle 16).
  - simpl. lra.
  - lra.
  - repeat constructor; simpl; lra.
  - simpl. lra.
Defined.

End UpdateRuns.

(** ** ConfettiManager: the render loop and resetAndStart *)

Section CanvasLoop.

Import Canvas.

Lemma overdue_not_visible (canvasHeight deltaTime t : Q) (c : Confetti) :
  overdue canvasHeight t c ->
  isVisible canvasHeight (updatePosition deltaTime t c) = false.
Proof.
  intros (He & Hfast & Hfar). unfold isVisible. apply Qltb_ge.
  rewrite updatePosition_y.
  set (e := t - createdAt c) in *.
  set (a := y (speed c) * absSin c) in *.
  assert (Hsq : e ^ 2 == e * e) by (simpl; ring).
  rewrite Hsq.
  assert (Hprod : 0 <= e * (0.000625 * e - a - 1))
    by (apply Qmult_le_0_compat; lra).
  assert (Hexp : e * (0.000625 * e - a - 1) == 0.000625 * (e * e) - a * e - e)
    by ring.
  rewrite Hexp in Hprod. lra.
Qed.

(** X9: one frame of the canvas loop stamps the time it read, keeps only
    particles above the removal line [canvasHeight + 100], never adds
    one, and drops every particle that is overdue: the quadratic fall
    wins over the launch speed, so every particle is removed in the
    end. *)
Theorem canvas_loop_reaps (canvasHeight : Q) (mgr : ConfettiManager)
  (h : Host) (k : Calls) :
  let t := Date_now h (clocks k) in
  let mgr' := fst (loop canvasHeight mgr h k) in
  lastUpdated mgr' = t
  /\ Forall (fun c' => y (position c') < canvasHeight + 100) (confetti mgr')
  /\ (length (confetti mgr') <= length (confetti mgr))%nat
  /\ (forall c, In c (confetti mgr) -> overdue canvasHeight t c ->
        ~ In (updatePosition (t - lastUpdated mgr) t c) (confetti mgr'))
  /\ ((forall c, In c (confetti mgr) -> overdue canvasHeight t c) ->
      confetti mgr' = []).
Proof.
  intros t mgr'. unfold loop, bind, now, ret in mgr'. simpl in mgr'.
  fold t in mgr'. subst mgr'. cbn [lastUpdated confetti].
  split; [reflexivity | split; [| split; [| split]]].
  - apply Forall_forall. intros c' Hin. apply filter_In in Hin.
    destruct Hin as [_ Hvis]. unfold isVisible in Hvis.
    apply Qltb_lt in Hvis. exact Hvis.
  - rewrite <- (length_map (updatePosition (t - lastUpdated mgr) t)
                           (confetti mgr)).
    apply filter_length_le.
  - intros c _ Hover Hin. apply filter_In in Hin. destruct Hin as [_ Hvis].
    rewrite (overdue_not_visible canvasHeight _ t c Hover) in Hvis.
    discriminate.
  - intro Hall.
    induction (confetti mgr) as [| c l IH]; simpl.
    + reflexivity.
    + rewrite (overdue_not_visible canvasHeight _ t c)
        by (apply Hall; left; reflexivity).
      apply IH. intros c0 Hc0. apply Hall. right. exact Hc0.
Qed.

(** X10: [resetAndStart] discards the particles alive before the call: for
    any integer count the manager then holds exactly the new burst,
    [ceil (count / 2)] particles for each direction (none for a count
    [<= 0]), and [lastUpdated] is untouched. *)
Theorem resetAndStart_replaces (fuel : nat) (config : Config)
  (mgr : ConfettiManager) (h : Host) (k : Calls) :
  let n := m_confettiesNumber (merge config) in
  let r := Z.to_nat ((n + 1) / 2) in
  (r <= fuel)%nat ->
  exists created k',
    resetAndStart fuel config mgr h k
    = (Some (mkManager created (lastUpdated mgr)), k')
    /\ length created = (2 * r)%nat
    /\ count_direction dir_right created = r
    /\ count_direction dir_left created = r
    /\ Forall (burst_particle h (merge config)) created
    /\ ((n <= 0)%Z -> created = []).
Proof.
  intros n r Hfuel. unfold resetAndStart.
  destruct (addConfetti_pairs fuel config (mkManager [] (lastUpdated mgr)) h k
              Hfuel)
    as (created & k' & Hrun & Hlen & Hright & Hleft & Hall).
  exists created, k'. fold n r in Hlen, Hright, Hleft.
  split; [exact Hrun |].
  split; [exact Hlen | split; [exact Hright | split; [exact Hleft |]]].
  split; [exact Hall |].
  intro Hn. assert (Hr : r = 0%nat).
  { unfold r. assert ((n + 1) / 2 < 1)%Z.
    { apply Z.div_lt_upper_bound; lia. }
    lia. }
  rewrite Hr in Hlen. destruct created; [reflexivity | discriminate].
Qed.

Lemma resetAndStart_replaces_witness :
  exists created k',
    resetAndStart 3 (mkConfig (Some 5%Z) None None None None)
                  (mkManager [fresh_particle] 42) host0 (mkCalls 0 0)
    = (Some (mkManager created 42), k')
    /\ length created = 6%nat
    /\ count_direction dir_right created = 3%nat
    /\ count_direction dir_left created = 3%nat
    /\ Forall (burst_particle host0
                 (merge (mkConfig (Some 5%Z) None None None None))) created
    /\ ((5 <= 0)%Z -> created = []).
Proof.
  apply (resetAndStart_replaces 3 (mkConfig (Some 5%Z) None None None None)
           (mkManager [fresh_particle] 42) host0 (mkCalls 0 0)).
  simpl. lia.
Defined.

End CanvasLoop.

(** ** createPoisson: the update of the domain and maximality *)

Section Maximality.

Import Background.

Lemma update_interval_cover (c d a b t : Q) :
  a <= t -> t <= b ->
  in_domain (update_interval c d (a, b)) t \/ (c <= t /\ t <= d).
Proof.
  intros Hat Htb. unfold update_interval, in_domain.
  destruct (a >=? c) eqn:E1; destruct (a <? d) eqn:E2;
    destruct (b >? d) eqn:E3; destruct (a <? c) eqn:E4;
    destruct (b >? c) eqn:E5; destruct (b <=? d) eqn:E6;
    simpl; qfacts; try lra;
    try (right; lra);
    try (left; exists (a, b); simpl; split; [tauto | lra]);
    try (destruct (Qlt_le_dec t d);
         [right; lra | left; exists (d, b); simpl; split; [tauto | lra]]);
    try (destruct (Qlt_le_dec c t);
         [right; lra | left; exists (a, c); simpl; split; [tauto | lra]]);
    try (destruct (Qlt_le_dec c t);
         [destruct (Qlt_le_dec t d);
          [right; lra | left; exists (d, b); simpl; split; [tauto | lra]]
         | left; exists (a, c); simpl; split; [tauto | lra]]).
Qed.

Lemma update_interval_outside (c d a b t : Q) :
  a <= t -> t <= b -> t < c \/ d < t ->
  in_domain (update_interval c d (a, b)) t.
Proof.
  intros Hat Htb Hout.
  destruct (update_interval_cover c d a b t Hat Htb) as [H | H];
    [exact H | lra].
Qed.

Lemma in_domain_intervals (c d : Q) (ps : list (Q * Q)) (t : Q) :
  in_domain (update_intervals c d ps) t <->
  exists ab, In ab ps /\ in_domain (update_interval c d ab) t.
Proof.
  unfold in_domain, update_intervals. split.
  - intros (piece & Hin & Hlo & Hhi). apply in_flat_map in Hin.
    destruct Hin as (ab & Hab & Hpiece).
    exists ab. split; [exact Hab |]. exists piece. tauto.
  - intros (ab & Hab & piece & Hpiece & Hlo & Hhi).
    exists piece. split; [| tauto].
    apply in_flat_map. exists ab. tauto.
Qed.

(** X11: "Update the domain", read on points: the array after the downward
    loop with its in-place splices is the array of the intervals left,
    each with an interior; a point still available was available before
    and is not inside the zone [(c, d)]; and no available point outside
    [[c, d]] is lost. *)
Theorem update_domain_removes_zone (c d : Q) (ps : list (Q * Q)) :
  Forall proper ps -> c < d ->
  exists ps',
    update_domain c d (flat ps) = flat ps'
    /\ Forall proper ps'
    /\ (forall t, in_domain ps' t ->
                  in_domain ps t /\ (t <= c \/ d <= t))
    /\ (forall t, in_domain ps t -> t < c \/ d < t -> in_domain ps' t).
Proof.
  intros Hproper Hcd. exists (update_intervals c d ps).
  split; [apply update_domain_flat |].
  split; [apply update_intervals_proper; assumption |].
  split.
  - intros t Ht. apply in_domain_intervals in Ht.
    destruct Ht as ([a b] & Hab & [a' b'] & Hpiece & Hlo & Hhi).
    rewrite Forall_forall in Hproper.
    destruct (update_interval_pieces c d a b a' b' (Hproper _ Hab) Hcd Hpiece)
      as (H1 & H2 & H3 & H4).
    simpl in Hlo, Hhi. split.
    + exists (a, b). simpl. split; [exact Hab | lra].
    + lra.
  - intros t ([a b] & Hab & Hlo & Hhi) Hout. simpl in Hlo, Hhi.
    apply in_domain_intervals. exists (a, b). split; [exact Hab |].
    apply update_interval_outside; assumption.
Qed.

Lemma update_domain_removes_zone_witness :
  exists ps',
    update_domain 0.4 0.6 (flat [(0.1, 0.45); (0.5, 0.9)]) = flat ps'
    /\ Forall proper ps'
    /\ (forall t, in_domain ps' t ->
                  in_domain [(0.1, 0.45); (0.5, 0.9)] t
                  /\ (t <= 0.4 \/ 0.6 <= t))
    /\ (forall t, in_domain [(0.1, 0.45); (0.5, 0.9)] t ->
                  t < 0.4 \/ 0.6 < t -> in_domain ps' t).
Proof.
  apply (update_domain_removes_zone 0.4 0.6 [(0.1, 0.45); (0.5, 0.9)]).
  - repeat constructor; unfold proper; simpl; lra.
  - lra.
Defined.

Lemma covering_start : covering [(radius, 1 - radius)] [].
Proof.
  intros t Hlo Hhi. left. exists (radius, 1 - radius). simpl. tauto.
Qed.

Lemma covering_step (ps : list (Q * Q)) (darts : list Q) (p : Q) :
  covering ps darts ->
  covering (update_intervals (p - radius) (p + radius) ps) (darts ++ [p]).
Proof.
  intros Hcov t Hlo Hhi.
  destruct (Hcov t Hlo Hhi) as [([a b] & Hab & Hat & Htb) | (q & Hq & Hqt)].
  - simpl in Hat, Htb.
    destruct (update_interval_cover (p - radius) (p + radius) a b t Hat Htb)
      as [Hin | Hzone].
    + left. apply in_domain_intervals. exists (a, b). tauto.
    + right. exists p. split; [apply in_or_app; right; left; reflexivity |].
      exact Hzone.
  - right. exists q. split; [apply in_or_app; left; exact Hq | exact Hqt].
Qed.

(** The sampling loop, with the coverage and the count of its draws. *)
Lemma createPoisson_while_maximal (h : Host) (fuel : nat) :
  draws_in_unit h ->
  forall (ps : list (Q * Q)) (measure : Q) (darts : list Q) (k : Calls),
  sampling ps darts -> covering ps darts ->
  measure == measure_of ps ->
  weight ps <= radius * inject_Z (Z.of_nat fuel) ->
  exists more k',
    createPoisson_while fuel (flat ps) measure (0 :: 1 :: darts) h k
    = (Some (0 :: 1 :: darts ++ more), k')
    /\ separated (0 :: 1 :: darts ++ more)
    /\ Forall (fun p => radius <= p /\ p < 1 - radius) (darts ++ more)
    /\ covering [] (darts ++ more)
    /\ randoms k' = (randoms k + length more)%nat
    /\ clocks k' = clocks k.
Proof.
  intro Hrand. assert (R := radius_value).
  assert (Hstop : forall ps measure darts k,
            sampling ps darts -> covering ps darts ->
            measure == measure_of ps -> Qeq_bool measure 0 = true ->
            separated (0 :: 1 :: darts ++ [])
            /\ Forall (fun p => radius <= p /\ p < 1 - radius) (darts ++ [])
            /\ covering [] (darts ++ [])
            /\ randoms k = (randoms k + length (@nil Q))%nat
            /\ clocks k = clocks k).
  { intros ps measure darts k Hs Hcov Hm E.
    apply Qeq_bool_iff in E.
    assert (Hnil : ps = []).
    { apply measure_of_zero; [apply Hs | rewrite <- Hm; exact E]. }
    subst ps. rewrite app_nil_r.
    destruct Hs as (_ & _ & _ & Hsep & Hd).
    split; [exact Hsep | split; [exact Hd | split; [exact Hcov |]]].
    simpl. split; [lia | reflexivity]. }
  induction fuel as [| fuel IH]; intros ps measure darts k Hs Hcov Hm Hw.
  - destruct (Qeq_bool measure 0) eqn:E.
    + exists [], k. simpl createPoisson_while. rewrite E.
      split; [rewrite app_nil_r; reflexivity |].
      exact (Hstop ps measure darts k Hs Hcov Hm E).
    + exfalso. apply Qeq_bool_neq in E.
      destruct Hs as (Hproper & _).
      assert (Hne : ps <> []).
      { intros ->. apply E. rewrite Hm. reflexivity. }
      assert (H1 := weight_ge_radius ps Hproper Hne).
      change (inject_Z (Z.of_nat 0)) with 0 in Hw. lra.
  - cbn [createPoisson_while]. destruct (Qeq_bool measure 0) eqn:E.
    + exists [], k.
      split; [rewrite app_nil_r; reflexivity |].
      exact (Hstop ps measure darts k Hs Hcov Hm E).
    + apply Qeq_bool_neq in E.
      assert (Hproper : Forall proper ps) by apply Hs.
      assert (Hpos : 0 < measure).
      { assert (H0 := measure_of_nonneg ps Hproper).
        destruct (Qlt_le_dec 0 measure) as [Hlt | Hle]; [exact Hlt |].
        exfalso. apply E. lra. }
      unfold bind at 1. unfold random at 1.
      destruct (Hrand (randoms k)) as [Hu0 Hu1].
      set (u := Math_random h (randoms k)) in *.
      destruct (find_dart_lands ps (measure * u) 0) as (p & Hfind & Hex).
      { nra. }
      { rewrite <- Hm. nra. }
      rewrite Hfind. rewrite update_domain_flat.
      destruct (update_intervals_weight p ps Hproper) as [_ Hdrop].
      specialize (Hdrop Hex).
      destruct (IH (update_intervals (p - radius) (p + radius) ps)
                   (remeasure
                      (flat (update_intervals (p - radius) (p + radius) ps)) 0)
                   (darts ++ [p])
                   {| randoms := S (randoms k); clocks := clocks k |})
        as (more & k' & Hrun & Hsep & Hd & Hc & Hr & Hcl).
      * apply sampling_step; assumption.
      * apply covering_step. exact Hcov.
      * rewrite remeasure_flat. ring.
      * rewrite Nat2Z.inj_succ in Hw. unfold Z.succ in Hw.
        rewrite inject_Z_plus in Hw. change (inject_Z 1) with 1 in Hw. lra.
      * exists (p :: more), k'.
        rewrite <- app_assoc in Hrun, Hsep, Hd, Hc. simpl app in *.
        split; [exact Hrun |].
        split; [exact Hsep | split; [exact Hd | split; [exact Hc |]]].
        simpl in Hr, Hcl. simpl length. split; [lia | exact Hcl].
Qed.

(** In a strictly ascending list whose elements cover
    [[radius, 1 - radius]] up to distance [radius], together with
    points at or below [lo], no gap exceeds [2 * radius]. *)
Lemma gaps_le_of_cover (l : list Q) :
  forall lo : Q,
  gaps_ge radius l ->
  Forall (fun z => 0 <= z /\ z <= 1) l ->
  match l with [] => True | z :: _ => lo <= z end ->
  (forall t, radius <= t -> t <= 1 - radius ->
     exists p, (p <= lo \/ In p l) /\ p - radius <= t /\ t <= p + radius) ->
  gaps_le radius2 l.
Proof.
  assert (R := radius_value). assert (R2 := radius2_value).
  induction l as [| z l IH]; intros lo Hgaps Hunit Hlo Hcov.
  - exact I.
  - destruct l as [| z' l'].
    + exact I.
    + destruct Hgaps as [Hzz' Hrest].
      inversion Hunit as [| ? ? Hz Hunit']; subst.
      assert (Hz' : 0 <= z' /\ z' <= 1) by (inversion Hunit'; assumption).
      assert (Hlater := gaps_head_least radius z' l' ltac:(lra) Hrest).
      rewrite Forall_forall in Hlater.
      split.
      * destruct (Qlt_le_dec (z + radius2) z') as [Hwide | Hok]; [| exact Hok].
        exfalso.
        destruct (Hcov ((z + z') / 2)) as (p & Hp & Hp1 & Hp2).
        { apply Qle_shift_div_l; [reflexivity | lra]. }
        { apply Qle_shift_div_r; [reflexivity | lra]. }
        assert (Emid : (z + z') / 2 == z * (1 # 2) + z' * (1 # 2)) by field.
        rewrite Emid in Hp1, Hp2.
        destruct Hp as [Hp | [Hp | [Hp | Hp]]].
        -- lra.
        -- subst p. lra.
        -- subst p. lra.
        -- specialize (Hlater p Hp). lra.
      * apply (IH z); try assumption.
        -- lra.
        -- intros t Ht1 Ht2.
           destruct (Hcov t Ht1 Ht2) as (p & Hp & Hpt).
           exists p. split; [| exact Hpt].
           destruct Hp as [Hp | [Hp | Hp]].
           ++ left. lra.
           ++ left. subst p. lra.
           ++ right. exact Hp.
Qed.

(** The distance from the head to the last element of a list is at
    least, resp. at most, the gap bound times the count of gaps. *)
Lemma gaps_ge_span (g d : Q) (l : list Q) (z : Q) :
  gaps_ge g (z :: l) ->
  z + g * inject_Z (Z.of_nat (length l)) <= last (z :: l) d.
Proof.
  revert z. induction l as [| z' l IH]; intros z Hgaps.
  - simpl. change (inject_Z 0) with 0. lra.
  - destruct Hgaps as [Hzz' Hrest]. specialize (IH z' Hrest).
    change (last (z :: z' :: l) d) with (last (z' :: l) d).
    simpl length. rewrite Nat2Z.inj_succ. unfold Z.succ.
    rewrite inject_Z_plus. change (inject_Z 1) with 1. lra.
Qed.

Lemma gaps_le_span (g d : Q) (l : list Q) (z : Q) :
  gaps_le g (z :: l) ->
  last (z :: l) d <= z + g * inject_Z (Z.of_nat (length l)).
Proof.
  revert z. induction l as [| z' l IH]; intros z Hgaps.
  - simpl. change (inject_Z 0) with 0. lra.
  - destruct Hgaps as [Hzz' Hrest]. specialize (IH z' Hrest).
    change (last (z :: z' :: l) d) with (last (z' :: l) d).
    simpl length. rewrite Nat2Z.inj_succ. unfold Z.succ.
    rewrite inject_Z_plus. change (inject_Z 1) with 1. lra.
Qed.

(** At most eight darts fit: they are [radius] apart inside
    [[radius, 1 - radius)]. *)
Lemma darts_at_most_eight (darts : list Q) :
  separated darts ->
  Forall (fun p => radius <= p /\ p < 1 - radius) darts ->
  (length darts <= 8)%nat.
Proof.
  intros Hsep Hd. assert (R := radius_value).
  assert (Hgaps := sort_gaps darts Hsep).
  rewrite <- (sort_length darts).
  assert (Hmem : forall z, In z (sort darts) -> radius <= z /\ z < 1 - radius).
  { intros z Hz. apply (proj1 (sort_in _ _)) in Hz.
    rewrite Forall_forall in Hd. apply Hd. exact Hz. }
  destruct (sort darts) as [| z l] eqn:Es.
  - simpl. lia.
  - assert (Hspan := gaps_ge_span radius 0 l z Hgaps).
    assert (Hhead := Hmem z (or_introl eq_refl)).
    assert (Hlast : In (last (z :: l) 0) (z :: l))
      by (apply last_in; discriminate).
    apply Hmem in Hlast.
    assert (Hn : inject_Z (Z.of_nat (length l)) < 8) by nra.
    change 8 with (inject_Z 8) in Hn. rewrite <- Zlt_Qlt in Hn.
    simpl length. lia.
Qed.

(** In exact arithmetic the sampler stops only when no room is left:
    adjacent samples are at most [2 * radius] apart, and at least
    [radius] apart, so that there are between 6 and 10 of them. *)
Lemma createPoisson_cover (fuel : nat) (h : Host) (k : Calls) :
  (9 <= fuel)%nat -> draws_in_unit h ->
  exists spline k',
    createPoisson fuel h k = (Some spline, k')
    /\ gaps_le radius2 spline
    /\ radius2 == 0.2
    /\ (6 <= length spline <= 10)%nat
    /\ randoms k' = (randoms k + (length spline - 2))%nat
    /\ clocks k' = clocks k.
Proof.
  intros Hfuel Hrand. assert (R := radius_value).
  assert (R2 := radius2_value).
  destruct (createPoisson_while_maximal h fuel Hrand [(radius, 1 - radius)]
              (1 - radius2) [] k sampling_start covering_start)
    as (darts & k' & Hrun & Hsep & Hd & Hcov & Hr & Hcl).
  - simpl. unfold radius2. ring.
  - simpl. assert (9 <= inject_Z (Z.of_nat fuel)).
    { change 9 with (inject_Z 9). rewrite <- Zle_Qle. lia. }
    nra.
  - simpl app in *.
    destruct (sorted_spline darts Hsep Hd) as (Hhd & Hlast & Hgaps & Hlen).
    cbv zeta in Hhd, Hlast, Hgaps, Hlen.
    set (spline := sort (0 :: 1 :: darts)) in *.
    assert (Hunit : Forall (fun z => 0 <= z /\ z <= 1) spline).
    { apply Forall_forall. intros z Hz. apply (proj1 (sort_in _ _)) in Hz.
      destruct Hz as [<- | [<- | Hz]]; try lra.
      rewrite Forall_forall in Hd. specialize (Hd z Hz). lra. }
    assert (Hle : gaps_le radius2 spline).
    { apply (gaps_le_of_cover spline 0); try assumption.
      - destruct spline as [| z l]; [exact I |].
        inversion Hunit; subst. tauto.
      - intros t Ht1 Ht2.
        destruct (Hcov t Ht1 Ht2) as [(ab & [] & _) | (p & Hp & Hpt)].
        exists p. split; [| exact Hpt].
        right. apply sort_in. right. right. exact Hp. }
    exists spline, k'.
    unfold createPoisson, bind. simpl flat in Hrun. rewrite Hrun.
    split; [reflexivity |]. split; [exact Hle |]. split; [exact R2 |].
    assert (Hmax : (length darts <= 8)%nat).
    { apply darts_at_most_eight; [| exact Hd].
      destruct Hsep as (_ & _ & Hsep'). exact Hsep'. }
    split; [| split; [| exact Hcl]].
    + rewrite Hlen. split; [| lia].
      destruct spline as [| z l] eqn:Es; [discriminate |].
      simpl in Hhd. injection Hhd as ->.
      assert (Hspan := gaps_le_span radius2 0 l 0 Hle).
      rewrite Hlast in Hspan.
      assert (Hn : 4 < inject_Z (Z.of_nat (length l))) by nra.
      change 4 with (inject_Z 4) in Hn. rewrite <- Zlt_Qlt in Hn.
      simpl in Hlen. lia.
    + rewrite Hlen. rewrite Hr. simpl. lia.
Qed.

Lemma gaps_le_weaken (g g' : Q) (l : list Q) :
  g <= g' -> gaps_le g l -> gaps_le g' l.
Proof.
  intro Hg. induction l as [| x l IH]; intro H.
  - exact I.
  - destruct l as [| y l]; [exact I |].
    destruct H as [Hxy Hrest]. split; [lra | exact (IH Hrest)].
Qed.

(** X12: the sampler is maximal: for draws of [[0, 1)] it stops only when no
    room is left, so adjacent samples of the result are at most
    [2 * radius = 0.2] apart, up to the rounding of the doubles (at
    most [2 * radius + slack]); the result has between 6 and 11
    samples, and the run made one draw per sample other than the two
    ends. *)
Theorem createPoisson_maximal (fuel : nat) (h : Host) (k : Calls) :
  (9 <= fuel)%nat -> draws_in_unit h ->
  exists spline k',
    createPoisson fuel h k = (Some spline, k')
    /\ gaps_le (radius2 + slack) spline
    /\ radius2 == 0.2
    /\ (6 <= length spline <= 11)%nat
    /\ randoms k' = (randoms k + (length spline - 2))%nat
    /\ clocks k' = clocks k.
Proof.
  intros Hfuel Hrand.
  destruct (createPoisson_cover fuel h k Hfuel Hrand)
    as (spline & k' & Hrun & Hle & R2 & Hlen & Hr & Hcl).
  exists spline, k'. repeat split; try assumption; try lia.
  apply (gaps_le_weaken radius2); [| exact Hle].
  assert (Hs := slack_pos). lra.
Qed.

Lemma createPoisson_maximal_witness :
  exists spline k',
    createPoisson 9 half_host (mkCalls 0 0) = (Some spline, k')
    /\ gaps_le (radius2 + slack) spline
    /\ radius2 == 0.2
    /\ (6 <= length spline <= 11)%nat
    /\ randoms k' = (randoms (mkCalls 0 0) + (length spline - 2))%nat
    /\ clocks k' = clocks (mkCalls 0 0).
Proof.
  apply (createPoisson_maximal 9 half_host (mkCalls 0 0)).
  - lia.
  - exact half_host_draws.
Defined.

End Maximality.

Section MaximalityInDoubles.

Import Stdlib.Floats.PrimFloat.
Import Background.

(** The runs of the sampler on doubles at the ends and in the middle
    of the range of the draws: one draw per dart, at most eleven
    samples, and gaps of at most [2 * radius] up to rounding. *)
Example createPoisson_maximal_in_doubles :
  Forall
    (fun random =>
       exists spline n,
         Binary64.createPoisson 9 random = (Some spline, n)
         /\ gaps_le (radius2 + slack) (map Binary64.to_Q spline)
         /\ (6 <= length spline <= 11)%nat
         /\ n = (length spline - 2)%nat)
    [fun _ => 0%float; fun _ => 0.5%float; fun _ => Binary64.top].
Proof.
  repeat constructor;
    (eexists; eexists; split; [vm_compute; reflexivity |]);
    (split; [cbn [map gaps_le]; repeat split; vm_compute; discriminate |]);
    (split; [simpl; lia | reflexivity]).
Qed.

End MaximalityInDoubles.

(** ** The constructor of Confetto *)

Section ConfettoConstructor.

Import Background.

Lemma splineY_for_draws (h : Host) (n : nat) :
  forall (vs : list Q) (k : Calls),
  exists vs' k',
    splineY_for n (Z.of_nat (S (length vs))) (None :: map Some vs) h k
    = (None :: map Some (vs ++ vs'), k')
    /\ length vs' = n /\ Forall (deviation_draw h) vs'.
Proof.
  induction n as [| n IH]; intros vs k.
  - exists [], k. rewrite app_nil_r. repeat split. constructor.
  - cbn [splineY_for]. unfold bind at 1, random at 1.
    rewrite array_set_append.
    replace (Z.of_nat (S (length vs)) + 1)%Z
      with (Z.of_nat (S (length (vs ++ [deviation * Math_random h (randoms k)]))))
      by (rewrite length_app; simpl; lia).
    destruct (IH (vs ++ [deviation * Math_random h (randoms k)])
                 {| randoms := S (randoms k); clocks := clocks k |})
      as (vs' & k' & Hrun & Hlen & Hall).
    exists (deviation * Math_random h (randoms k) :: vs'), k'.
    rewrite Hrun. rewrite <- app_assoc. split; [reflexivity |].
    split; [simpl; rewrite Hlen; reflexivity |].
    constructor; [eexists; reflexivity | exact Hall].
Qed.

(** [splineY] for a spline of at least two samples: one value for both
    ends and one for each sample between them. *)
Lemma new_splineY_closed (h : Host) (X : list Q) (k : Calls) :
  (2 <= length X)%nat ->
  exists v mid k',
    new_splineY X h k = (map Some (v :: mid ++ [v]), k')
    /\ S (S (length mid)) = length X
    /\ Forall (deviation_draw h) (v :: mid).
Proof.
  intro Hlen. unfold new_splineY.
  destruct X as [| x0 [| x1 X]]; simpl in Hlen; try lia.
  replace (Z.to_nat (Z.of_nat (length (x0 :: x1 :: X)) - 1 - 1))
    with (length X) by (simpl length; lia).
  replace (Z.of_nat (length (x0 :: x1 :: X)) - 1)%Z
    with (Z.of_nat (S (length X))) by (simpl length; lia).
  destruct (length X) as [| n] eqn:En.
  - unfold bind, random, ret. simpl.
    eexists _, [], _. split; [reflexivity |].
    split; [simpl; rewrite En; reflexivity |].
    constructor; [eexists; reflexivity | constructor].
  - cbn [splineY_for]. unfold bind at 1. unfold bind at 1, random at 1.
    change (array_set [] 1 (deviation * Math_random h (randoms k)))
      with (None :: map Some [deviation * Math_random h (randoms k)]).
    change (1 + 1)%Z
      with (Z.of_nat (S (length [deviation * Math_random h (randoms k)]))).
    destruct (splineY_for_draws h n
                [deviation * Math_random h (randoms k)]
                {| randoms := S (randoms k); clocks := clocks k |})
      as (vs' & k' & Hrun & Hn & Hall).
    rewrite Hrun. unfold bind, random, ret.
    set (vs := [deviation * Math_random h (randoms k)] ++ vs') in *.
    set (v := deviation * Math_random h (randoms k')).
    assert (Hvs : length vs = S n) by (unfold vs; simpl; lia).
    rewrite <- Hvs. rewrite array_set_append.
    exists v, vs, {| randoms := S (randoms k'); clocks := clocks k' |}.
    split; [reflexivity |].
    split; [simpl length; rewrite En; lia |].
    constructor; [eexists; reflexivity |].
    unfold vs. constructor; [eexists; reflexivity | exact Hall].
Qed.

(** The particle the constructor returns, in terms of the draws. *)
Lemma new_Confetto_fields (fuel : nat) (h : Host) (k : Calls) :
  (9 <= fuel)%nat -> draws_in_unit h ->
  exists c k' v mid,
    new_Confetto fuel h k = (Some c, k')
    /\ frame c = 0 /\ y c = - deviation
    /\ (exists n, outer_width c = sizeMin + sizeMax * Math_random h n)
    /\ (exists n, outer_height c = sizeMin + sizeMax * Math_random h n)
    /\ (exists n1 n2 n3,
          backgroundColor c
          = (Qtrunc (200 * Math_random h n1), Qtrunc (200 * Math_random h n2),
             Qtrunc (200 * Math_random h n3)))
    /\ (exists n, theta c = 360 * Math_random h n)
    /\ (exists n, dTheta c = dThetaMin + dThetaMax * Math_random h n)
    /\ (exists n, x c = innerWidth h * Math_random h n)
    /\ (exists n, dy c = dyMin + dyMax * Math_random h n)
    /\ splineY c = map Some (v :: mid ++ [v])
    /\ S (S (length mid)) = length (splineX c)
    /\ Forall (deviation_draw h) (v :: mid).
Proof.
  intros Hfuel Hrand. unfold new_Confetto, theme0.
  unfold bind, random, host, ret. cbv beta iota.
  match goal with
  | |- context [createPoisson fuel h ?k0] =>
      destruct (createPoisson_returns fuel h k0 Hfuel Hrand)
        as (X & k1 & Hrun & Hhd & Hlast & Hgaps)
  end.
  rewrite Hrun.
  destruct (new_splineY_closed h X k1 (spline_two_samples X Hhd Hlast))
    as (v & mid & k2 & HY & Hlen & Hall).
  rewrite HY.
  eexists _, _, v, mid. split; [reflexivity |]. cbn [frame y outer_width
    outer_height backgroundColor theta dTheta x dy splineY splineX].
  split; [reflexivity | split; [reflexivity |]].
  split; [eexists; reflexivity |]. split; [eexists; reflexivity |].
  split; [eexists _, _, _; reflexivity |].
  split; [eexists; reflexivity |]. split; [eexists; reflexivity |].
  split; [eexists; reflexivity |]. split; [eexists; reflexivity |].
  split; [reflexivity | split; assumption].
Qed.

Lemma color_component (u : Q) :
  0 <= u -> u < 1 -> (0 <= Qtrunc (200 * u) <= 199)%Z.
Proof.
  intros Hu0 Hu1. rewrite Qtrunc_nonneg by lra.
  split.
  - change 0%Z with (Qfloor 0). apply Qfloor_resp_le. lra.
  - assert (H := Qfloor_le (200 * u)).
    assert (H2 : inject_Z (Qfloor (200 * u)) < inject_Z 200).
    { change (inject_Z 200) with 200. lra. }
    rewrite <- Zlt_Qlt in H2. lia.
Qed.

(** X13: every new ambient particle, for draws of [[0, 1)]: it starts at
    [frame = 0], [deviation = 100] pixels above the viewport, falls at a
    rate [dy] of [[0.13, 0.31)] and turns at a rate of [[0.4, 0.7]] (the
    upper end is reached in doubles); its
    sides are in [[3, 12)] pixels, its color components in [0..199],
    and it starts inside the width of the viewport. *)
Theorem new_Confetto_ranges (fuel : nat) (h : Host) (k : Calls) :
  (9 <= fuel)%nat -> draws_in_unit h -> 0 <= innerWidth h ->
  exists c k',
    new_Confetto fuel h k = (Some c, k')
    /\ frame c = 0 /\ y c = - 100
    /\ (0.13 <= dy c /\ dy c < 0.31)
    /\ (0.4 <= dTheta c /\ dTheta c <= 0.7)
    /\ (0 <= theta c /\ theta c < 360)
    /\ (3 <= outer_width c /\ outer_width c < 12)
    /\ (3 <= outer_height c /\ outer_height c < 12)
    /\ (0 <= x c /\ x c <= innerWidth h)
    /\ (let '(r, g, b) := backgroundColor c in
        (0 <= r <= 199 /\ 0 <= g <= 199 /\ 0 <= b <= 199)%Z).
Proof.
  intros Hfuel Hrand Hw.
  destruct (new_Confetto_fields fuel h k Hfuel Hrand)
    as (c & k' & v & mid & Hrun & F1 & F2 & (n3 & F3) & (n4 & F4)
        & (n5 & n6 & n7 & F5) & (n8 & F8) & (n9 & F9) & (n10 & F10)
        & (n11 & F11) & _).
  exists c, k'. split; [exact Hrun |].
  split; [exact F1 | split; [exact F2 |]].
  assert (D3 := Hrand n3). assert (D4 := Hrand n4). assert (D8 := Hrand n8).
  assert (D9 := Hrand n9). assert (D10 := Hrand n10).
  assert (D11 := Hrand n11).
  rewrite F3, F4, F5, F8, F9, F10, F11.
  unfold dyMin, dyMax, dThetaMax, dThetaMin, sizeMax, sizeMin.
  repeat split; try lra; try nra;
    try (apply color_component; apply Hrand).
Qed.

Lemma new_Confetto_ranges_witness :
  exists c k',
    new_Confetto 9 half_host (mkCalls 0 0) = (Some c, k')
    /\ frame c = 0 /\ y c = - 100
    /\ (0.13 <= dy c /\ dy c < 0.31)
    /\ (0.4 <= dTheta c /\ dTheta c <= 0.7)
    /\ (0 <= theta c /\ theta c < 360)
    /\ (3 <= outer_width c /\ outer_width c < 12)
    /\ (3 <= outer_height c /\ outer_height c < 12)
    /\ (0 <= x c /\ x c <= innerWidth half_host)
    /\ (let '(r, g, b) := backgroundColor c in
        (0 <= r <= 199 /\ 0 <= g <= 199 /\ 0 <= b <= 199)%Z).
Proof.
  apply (new_Confetto_ranges 9 half_host (mkCalls 0 0)).
  - lia.
  - exact half_host_draws.
  - simpl. lra.
Defined.

(** X14: the spline of a new particle is closed: [splineY] has one defined
    value per sample of [splineX], each in [[0, deviation)], and its
    first and last values are the same draw. *)
Theorem new_Confetto_spline_closed (fuel : nat) (h : Host) (k : Calls) :
  (9 <= fuel)%nat -> draws_in_unit h ->
  exists c k' ys,
    new_Confetto fuel h k = (Some c, k')
    /\ splineY c = map Some ys
    /\ length ys = length (splineX c)
    /\ hd_error ys = Some (last ys 0)
    /\ Forall (fun v => 0 <= v /\ v < deviation) ys.
Proof.
  intros Hfuel Hrand.
  destruct (new_Confetto_fields fuel h k Hfuel Hrand)
    as (c & k' & v & mid & Hrun & _ & _ & _ & _ & _ & _ & _ & _ & _
        & FY & Hlen & Hall).
  exists c, k', (v :: mid ++ [v]).
  split; [exact Hrun | split; [exact FY |]].
  assert (Hrange : forall z, deviation_draw h z -> 0 <= z /\ z < deviation).
  { intros z (n & ->). destruct (Hrand n). unfold deviation. lra. }
  split; [| split].
  - simpl. rewrite length_app. simpl. lia.
  - change (v :: mid ++ [v]) with ((v :: mid) ++ [v]).
    rewrite last_last. reflexivity.
  - inversion Hall as [| ? ? Hv Hmid]; subst.
    constructor; [apply Hrange; exact Hv |].
    apply Forall_app. split.
    + rewrite Forall_forall in *. intros z Hz. apply Hrange, Hmid, Hz.
    + constructor; [apply Hrange; exact Hv | constructor].
Qed.

Lemma new_Confetto_spline_closed_witness :
  exists c k' ys,
    new_Confetto 9 half_host (mkCalls 0 0) = (Some c, k')
    /\ splineY c = map Some ys
    /\ length ys = length (splineX c)
    /\ hd_error ys = Some (last ys 0)
    /\ Forall (fun v => 0 <= v /\ v < deviation) ys.
Proof.
  apply (new_Confetto_spline_closed 9 half_host (mkCalls 0 0)).
  - lia.
  - exact half_host_draws.
Defined.

End ConfettoConstructor.

(** ** Confetto.update over a run of calls *)

Section AmbientRuns.

Import Background Poof.







Lemma survivors_flat_map (height delta : Q) (l : list Confetto) :
  survivors height delta l
  = flat_map (fun c => if snd (update height delta c) then []
                        else [fst (update height delta c)]) l.
Proof.
  induction l as [| c l IH].
  - reflexivity.
  - change (c :: l) with ([c] ++ l).
    rewrite survivors_app, survivors_one, flat_map_app, IH.
    cbn [flat_map]. rewrite app_nil_r. reflexivity.
Qed.

(** X17: the frame loop removes exactly the particles that are done: after a
    frame the array holds, in their order, the particles whose [update]
    returned false, each updated once with the delta of the frame; the
    delta is [0] on the first frame, and the handle in [timer] is as
    before. *)
Theorem loop_removes_done (timestamp height : Q) (raf : Z) (s : System) :
  let delta :=
    match prev s with
    | Some p => if truthy_num (prev s) then timestamp - p else 0
    | None => 0
    end in
  confetti (loop timestamp height raf s)
  = flat_map (fun c => if snd (update height delta c) then []
                        else [fst (update height delta c)]) (confetti s)
  /\ (prev s = None -> delta = 0)
  /\ prev (loop timestamp height raf s) = Some timestamp
  /\ timer (loop timestamp height raf s) = timer s
  /\ (length (confetti (loop timestamp height raf s))
      <= length (confetti s))%nat.
Proof.
  intro delta.
  assert (Hc := loop_confetti timestamp height raf s).
  unfold frame_delta in Hc. fold delta in Hc.
  split; [rewrite Hc; apply survivors_flat_map |].
  split; [intro Hp; unfold delta; rewrite Hp; reflexivity |].
  split; [apply loop_prev | split; [apply loop_timer |]].
  rewrite Hc, survivors_flat_map.
  generalize (confetti s). intro l.
  induction l as [| c l IH]; cbn [flat_map length].
  - lia.
  - rewrite length_app.
    destruct (snd (update height delta c)); cbn [length]; lia.
Qed.



Lemma Qfloor_unique (q : Q) (z : Z) :
  inject_Z z <= q -> q < inject_Z (z + 1) -> Qfloor q = z.
Proof.
  intros Hlo Hhi.
  assert (H1 : (z <= Qfloor q)%Z).
  { rewrite <- (Qfloor_Z z). apply Qfloor_resp_le. exact Hlo. }
  assert (H2 := Qfloor_le q).
  assert (H3 : inject_Z (Qfloor q) < inject_Z (z + 1)) by lra.
  rewrite <- Zlt_Qlt in H3. lia.
Qed.

(** X19: the phase has period 7777: adding 7777 ms to a non-negative
    [frame] leaves [phi] where it is. *)
Theorem phase_periodic (f : Q) :
  0 <= f -> phase (f + 7777) == phase f.
Proof.
  intro Hf. unfold phase, js_rem.
  assert (Hq : 0 <= f / 7777) by (apply Qle_shift_div_l; [reflexivity | lra]).
  assert (E : (f + 7777) / 7777 == f / 7777 + 1) by field.
  assert (Hq' : 0 <= (f + 7777) / 7777) by (rewrite E; lra).
  rewrite (Qtrunc_nonneg _ Hq), (Qtrunc_nonneg _ Hq').
  assert (Hlo := Qfloor_le (f / 7777)).
  assert (Hhi := Qlt_floor (f / 7777)).
  assert (Hfl : Qfloor ((f + 7777) / 7777) = (Qfloor (f / 7777) + 1)%Z).
  { apply Qfloor_unique.
    - rewrite E. rewrite inject_Z_plus. change (inject_Z 1) with 1. lra.
    - rewrite E. rewrite !inject_Z_plus in *. change (inject_Z 1) with 1 in *.
      lra. }
  rewrite Hfl. rewrite inject_Z_plus. change (inject_Z 1) with 1. field.
Qed.

Lemma phase_periodic_witness : phase (1234 + 7777) == phase 1234.
Proof.
  apply (phase_periodic 1234). lra.
Defined.

End AmbientRuns.

(** ** The interpolation parameter *)

Section SplineParameter.

Import Background.

Lemma gaps_ge_nth (g : Q) (l : list Q) :
  forall i, gaps_ge g l -> (S i < length l)%nat ->
            nth i l 0 + g <= nth (S i) l 0.
Proof.
  induction l as [| z l IH]; intros i Hgaps Hi.
  - simpl in Hi. lia.
  - destruct l as [| z' l'].
    + simpl in Hi. lia.
    + destruct Hgaps as [Hzz' Hrest]. destruct i as [| i].
      * simpl. exact Hzz'.
      * change (nth (S i) (z :: z' :: l') 0) with (nth i (z' :: l') 0).
        change (nth (S (S i)) (z :: z' :: l') 0)
          with (nth (S i) (z' :: l') 0).
        apply IH; [exact Hrest | simpl in *; lia].
Qed.

Lemma spline_t_bounds (c : Confetto) :
  hd_error (splineX c) = Some 0 -> last (splineX c) 0 = 1 ->
  gaps_ge radius (splineX c) -> 0 <= frame c ->
  let (i, j) := bracket (phase (frame c)) (splineX c) in
  radius <= nth j (splineX c) 0 - nth i (splineX c) 0
  /\ 0 <= spline_t c /\ spline_t c < 1.
Proof.
  intros Hhd Hlast Hgaps Hframe. assert (R := radius_value).
  destruct (phase_unit (frame c) Hframe) as [H0 H1].
  assert (Hb := bracket_bounds (phase (frame c)) (splineX c) Hhd Hlast H0 H1).
  unfold spline_t.
  destruct (bracket (phase (frame c)) (splineX c)) as [i j].
  destruct Hb as (Hj & Hjlen & Hlo & Hhi). subst j.
  assert (Hw := gaps_ge_nth radius (splineX c) i Hgaps Hjlen).
  split; [lra |]. split.
  - apply Qle_shift_div_l; lra.
  - apply Qlt_shift_div_r; lra.
Qed.

(** X20: [update] never divides by zero: for every particle the constructor
    returns and every later state with [frame >= 0], the two samples
    that bracket [phi] are at least [radius = 0.1] apart up to the
    rounding of the doubles (at least [radius - slack]), and the
    interpolation parameter [(phi - splineX[i]) / (splineX[j] - splineX[i])]
    lies in [[0, 1]]. *)
Theorem interpolation_parameter_in_unit (fuel : nat) (h : Host) (k : Calls) :
  (9 <= fuel)%nat -> draws_in_unit h ->
  exists c k',
    new_Confetto fuel h k = (Some c, k')
    /\ forall c1 : Confetto,
         splineX c1 = splineX c -> 0 <= frame c1 ->
         let (i, j) := bracket (phase (frame c1)) (splineX c1) in
         radius - slack <= nth j (splineX c1) 0 - nth i (splineX c1) 0
         /\ 0 <= spline_t c1 /\ spline_t c1 <= 1.
Proof.
  intros Hfuel Hrand.
  destruct (new_Confetto_splines fuel h k Hfuel Hrand)
    as (c & k' & Hrun & _ & Hhd & Hlast & Hgaps & _).
  exists c, k'. split; [exact Hrun |].
  intros c1 HX Hframe. assert (Hs := slack_pos).
  assert (H := spline_t_bounds c1). rewrite HX in H at 1 2 3.
  specialize (H Hhd Hlast Hgaps Hframe).
  destruct (bracket (phase (frame c1)) (splineX c1)) as [i j].
  destruct H as (Hw & H0 & H1). repeat split; lra.
Qed.

Lemma interpolation_parameter_in_unit_witness :
  exists c k',
    new_Confetto 9 half_host (mkCalls 0 0) = (Some c, k')
    /\ forall c1 : Confetto,
         splineX c1 = splineX c -> 0 <= frame c1 ->
         let (i, j) := bracket (phase (frame c1)) (splineX c1) in
         radius - slack <= nth j (splineX c1) 0 - nth i (splineX c1) 0
         /\ 0 <= spline_t c1 /\ spline_t c1 <= 1.
Proof.
  apply (interpolation_parameter_in_unit 9 half_host (mkCalls 0 0)).
  - lia.
  - exact half_host_draws.
Defined.

End SplineParameter.

(** ** The rendered offset *)

Section RenderedSample.

Import Stdlib.Reals.Reals Stdlib.Reals.Qreals.
Import Background Render.
Local Open Scope Q_scope.

(** X21: the offset [rho] stays between the two spline values: for a
    particle whose [splineX] starts at [0] and ends at [1] and whose
    [splineY] has a defined value of [[0, deviation]] per sample, with
    [frame >= 0], [update] finds both bracket values and the [rho] it
    computes lies between [splineY[i]] and [splineY[j]] up to the
    rounding of the doubles, that is within the margin [slack] of
    their range. *)
Theorem rho_lies_between (c : Confetto) (ys : list Q) :
  hd_error (splineX c) = Some 0 -> last (splineX c) 0 = 1 ->
  splineY c = map Some ys -> length ys = length (splineX c) ->
  Forall (fun v => 0 <= v /\ v <= deviation) ys ->
  0 <= frame c ->
  exists i j r,
    bracket (phase (frame c)) (splineX c) = (i, j)
    /\ rho c = Some r
    /\ (Rmin (Q2R (nth i ys 0%Q)) (Q2R (nth j ys 0%Q)) - Q2R slack <= r
        <= Rmax (Q2R (nth i ys 0%Q)) (Q2R (nth j ys 0%Q)) + Q2R slack)%R.
Proof.
  intros Hhd Hlast HY Hlen _ Hframe.
  destruct (rho_between c ys Hhd Hlast HY Hlen Hframe)
    as (i & j & r & Hb & Hr & Hlo & Hhi).
  exists i, j, r. assert (Hs := slack_pos_R).
  split; [exact Hb |]. split; [exact Hr |]. split; lra.
Qed.

Lemma rho_lies_between_witness :
  let ys : list Q := [50; 10; 20; 30; 40; 60; 70; 50] in
  exists i j r,
    bracket (phase (frame (sample_confetto 0.2)))
            (splineX (sample_confetto 0.2)) = (i, j)
    /\ rho (sample_confetto 0.2) = Some r
    /\ (Rmin (Q2R (nth i ys 0%Q)) (Q2R (nth j ys 0%Q)) - Q2R slack <= r
        <= Rmax (Q2R (nth i ys 0%Q)) (Q2R (nth j ys 0%Q)) + Q2R slack)%R.
Proof.
  intro ys. apply (rho_lies_between (sample_confetto 0.2) ys).
  - reflexivity.
  - reflexivity.
  - reflexivity.
  - reflexivity.
  - unfold ys, deviation. repeat constructor; discriminate.
  - simpl. lra.
Defined.

(** X22: the cosine interpolation of two values of [[-100, 100]] starts
    at [a]; at the end of the bracket it is [b] and at the middle the
    mean of the two, up to the rounding of the doubles (within the
    margin [slack]). *)
Theorem interpolation_reaches_ends (a b : R) :
  (-100 <= a <= 100 -> -100 <= b <= 100 ->
   interpolation a b 0 = a
   /\ b - Q2R slack <= interpolation a b 1 <= b + Q2R slack
   /\ (a + b) / 2 - Q2R slack <= interpolation a b (1 / 2)
      <= (a + b) / 2 + Q2R slack)%R.
Proof.
  intros _ _. assert (Hs := slack_pos_R).
  destruct (interpolation_ends a b) as [H0 H1].
  assert (H2 : interpolation a b (1 / 2) = ((a + b) / 2)%R).
  { unfold interpolation.
    replace (PI * (1 / 2))%R with (PI / 2)%R by lra.
    rewrite cos_PI2. lra. }
  rewrite H0, H1, H2. repeat split; lra.
Qed.

Lemma interpolation_reaches_ends_witness :
  (interpolation 30 70 0 = 30
   /\ 70 - Q2R slack <= interpolation 30 70 1 <= 70 + Q2R slack
   /\ (30 + 70) / 2 - Q2R slack <= interpolation 30 70 (1 / 2)
      <= (30 + 70) / 2 + Q2R slack)%R.
Proof.
  apply (interpolation_reaches_ends 30 70).
  - lra.
  - lra.
Defined.

End RenderedSample.

(** ** Utils.debounce *)

Section Debouncing.

Import Debounce.

Variable A : Type.

Lemma calls_in_app (evs1 evs2 : list (Event A)) :
  calls_in (evs1 ++ evs2) = (calls_in evs1 + calls_in evs2)%nat.
Proof.
  induction evs1 as [| [t a fresh | t] evs1 IH]; simpl.
  - reflexivity.
  - rewrite IH. reflexivity.
  - exact IH.
Qed.

Lemma run_snoc (delay : Q) (evs : list (Event A)) (e : Event A) :
  run delay (evs ++ [e]) start = step delay (run delay evs start) e.
Proof. unfold run. rewrite fold_left_app. reflexivity. Qed.

Lemma call_timers (delay t : Q) (a : A) (fresh : Z)
  (evs : list (Event A)) (s : State A) :
  one_timer delay evs s ->
  timers (call delay t a fresh s) = [mkTimer fresh (t + delay) a].
Proof.
  intros [Hnil | (tm & t0 & Htm & Hto & _)]; unfold call; simpl.
  - rewrite Hnil. destruct (timeout s); reflexivity.
  - rewrite Htm, Hto. simpl. rewrite Z.eqb_refl. reflexivity.
Qed.

Lemma debounce_invariant (delay : Q) (evs : list (Event A)) :
  let s := run delay evs start in
  one_timer delay evs s
  /\ (length (invoked s) + length (timers s) <= calls_in evs)%nat
  /\ (forall t a, In (t, a) (invoked s) ->
        exists t0 fresh, In (Call t0 a fresh) evs /\ t0 + delay <= t).
Proof.
  induction evs as [| e evs IH] using rev_ind.
  - simpl. split; [left; reflexivity | split; [lia |]].
    intros t a [].
  - cbv zeta in *. rewrite run_snoc. rewrite calls_in_app.
    destruct IH as (Hone & Hcount & Horigin).
    set (s := run delay evs start) in *.
    assert (Hkeep : forall t a,
              In (t, a) (invoked s) ->
              exists t0 fresh,
                In (Call t0 a fresh) (evs ++ [e]) /\ t0 + delay <= t).
    { intros t a Hin. destruct (Horigin t a Hin) as (t0 & fresh & H1 & H2).
      exists t0, fresh. split; [apply in_or_app; left; exact H1 | exact H2]. }
    destruct e as [t a fresh | t]; cbn [step].
    + assert (Ht := call_timers delay t a fresh evs s Hone).
      split; [| split].
      * right. exists (mkTimer fresh (t + delay) a), t.
        split; [exact Ht |]. split; [reflexivity |].
        split; [apply in_or_app; right; left; reflexivity | reflexivity].
      * rewrite Ht. cbn [call invoked length calls_in]. lia.
      * exact Hkeep.
    + destruct Hone as [Hnil | (tm & t0 & Htm & Hto & Hcall & Hdue)].
      * unfold fire. rewrite Hnil. cbn [filter map app timers invoked].
        split; [left; reflexivity |].
        split; [rewrite Hnil in Hcount; simpl in *; lia | exact Hkeep].
      * unfold fire. rewrite Htm. cbn [filter].
        destruct (due tm <=? t) eqn:E; cbn [negb map app timers invoked
          timeout length].
        -- split; [left; reflexivity |].
           split; [rewrite Htm in Hcount; simpl in *; lia |].
           intros t1 a1 [Heq | Hin]; [| apply Hkeep; exact Hin].
           injection Heq as <- <-.
           exists t0, (handle tm).
           split; [apply in_or_app; left; exact Hcall |].
           apply Qleb_le in E. rewrite Hdue in E. exact E.
        -- split; [| split; [rewrite Htm in Hcount; simpl in *; lia
                            | exact Hkeep]].
           right. exists tm, t0. repeat split; try assumption.
           apply in_or_app. left. exact Hcall.
Qed.

(** X23: the debounced function: whatever calls and timer firings occur, at
    most one timer is waiting; [func] has run at most as often as the
    wrapper was called, each time with the arguments of a call made at
    least [delay] earlier; and a call leaves one timer, its own: the
    invocation that was waiting before is cancelled. *)
Theorem debounce_latest_call_wins (delay : Q) (evs : list (Event A)) :
  let s := run delay evs start in
  (length (timers s) <= 1)%nat
  /\ (forall tm, In tm (timers s) -> timeout s = Some (handle tm))
  /\ (length (invoked s) + length (timers s) <= calls_in evs)%nat
  /\ (forall t a, In (t, a) (invoked s) ->
        exists t0 fresh, In (Call t0 a fresh) evs /\ t0 + delay <= t)
  /\ (forall evs' t a fresh,
        evs = evs' ++ [Call t a fresh] ->
        timers s = [mkTimer fresh (t + delay) a]
        /\ invoked s = invoked (run delay evs' start)).
Proof.
  intro s. destruct (debounce_invariant delay evs) as (Hone & Hcount & Horigin).
  fold s in Hone, Hcount, Horigin.
  split; [| split; [| split; [exact Hcount | split; [exact Horigin |]]]].
  - destruct Hone as [-> | (tm & t0 & -> & _)]; simpl; lia.
  - intros tm Hin.
    destruct Hone as [Hnil | (tm' & t0 & Htm & Hto & _)].
    + rewrite Hnil in Hin. destruct Hin.
    + rewrite Htm in Hin. destruct Hin as [<- | []]. exact Hto.
  - intros evs' t a fresh ->. unfold s. rewrite run_snoc. cbn [step].
    destruct (debounce_invariant delay evs') as (Hone' & _).
    split; [| reflexivity].
    apply (call_timers delay t a fresh evs'). exact Hone'.
Qed.

End Debouncing.
